(** * QR decomposition ([linalg/qrdecomp/qr.py]): a shallow embedding

    The Python class [QR] is embedded in three layers.

    - Scalars.  The code computes on [np.float64].  Every definition is
      written over an arbitrary carrier [F] with the operations the code
      uses ([Scalar]); the structural theorems hold for every such carrier.
      The carrier is then instantiated with the kernel's binary64 floats
      ([Float64]) to run the code on concrete inputs, and with the real
      numbers ([Exact]) for statements about exact arithmetic.
    - Arrays.  A 2-D array is its shape and its rows; the entry accessors
      [mget]/[mset] play the part of [A[r, c]] and [A[r, c] = v]; the
      column slices [A[i:, j]] are built from them.
    - The engine.  The object [self] is a record of attributes together
      with the buffers they refer to ([heap]): [np.array] allocates a
      fresh buffer, the in-place statements modify the buffer an attribute
      refers to, and slices are views of a buffer. *)

From Stdlib Require Import List Arith PeanoNat Bool Lia.
From Stdlib Require Floats.
From Stdlib Require Reals Lra.
Import ListNotations.

Set Implicit Arguments.

(** ** Scalars *)

(** The operations of [np.float64] that [qr.py] and its helpers use. *)
Class Scalar (F : Type) : Type := {
  fzero : F;                       (* 0.0 *)
  fone : F;                        (* 1.0 *)
  ftwo : F;                        (* the literal 2 *)
  fadd : F -> F -> F;
  fsub : F -> F -> F;
  fmul : F -> F -> F;
  fdiv : F -> F -> F;
  fopp : F -> F;
  fsqrt : F -> F;
  fle : F -> F -> bool;            (* x <= y *)
  isclose0 : F -> bool             (* np.isclose(x, 0) *)
}.

(** Exceptions and outcomes of a call. *)
Inductive exn : Type := ValueError | IndexError | AttributeError.

Inductive result (A : Type) : Type :=
| Ok (a : A)
| Raise (e : exn).
Arguments Ok {A} a.
Arguments Raise {A} e.

(** [l[i] = v] on a list; the callers only use indices in range. *)
Fixpoint upd {A : Type} (i : nat) (v : A) (l : list A) : list A :=
  match l, i with
  | [], _ => []
  | _ :: t, 0 => v :: t
  | x :: t, S i' => x :: upd i' v t
  end.

(** [enumerate(l)] *)
Definition enumerate {A : Type} (l : list A) : list (nat * A) :=
  combine (seq 0 (length l)) l.

Section Model.
Context {F : Type} {SF : Scalar F}.

(** ** 1-D arrays *)

Definition vec : Type := list F.

(** [u @ v] for 1-D arrays: the products are added from left to right. *)
Definition vdot (u v : vec) : F :=
  fold_left (fun acc p => fadd acc (fmul (fst p) (snd p))) (combine u v) fzero.

(** [c * v] *)
Definition vscale (c : F) (v : vec) : vec := map (fmul c) v.

(** [u + v] and [u - v] *)
Definition vadd (u v : vec) : vec := map (fun p => fadd (fst p) (snd p)) (combine u v).
Definition vsub (u v : vec) : vec := map (fun p => fsub (fst p) (snd p)) (combine u v).

(** ** 2-D arrays *)

Record matrix : Type := mk_matrix {
  nrows : nat;
  ncols : nat;
  rows : list (list F)
}.

(** [A[r, c]] *)
Definition mget (A : matrix) (r c : nat) : F :=
  nth c (nth r (rows A) []) fzero.

(** [A[r, c] = v] *)
Definition mset (A : matrix) (r c : nat) (v : F) : matrix :=
  mk_matrix (nrows A) (ncols A) (upd r (upd c v (nth r (rows A) [])) (rows A)).

(** The [m] by [n] array whose entry [(r, c)] is [f r c]. *)
Definition tabulate (m n : nat) (f : nat -> nat -> F) : matrix :=
  mk_matrix m n (map (fun r => map (fun c => f r c) (seq 0 n)) (seq 0 m)).

(** [np.eye(m)] and [np.zeros([m, n])] *)
Definition eye (m : nat) : matrix :=
  tabulate m m (fun r c => if r =? c then fone else fzero).
Definition zeros (m n : nat) : matrix := tabulate m n (fun _ _ => fzero).

(** [A.T] *)
Definition transpose (A : matrix) : matrix :=
  tabulate (ncols A) (nrows A) (fun i j => mget A j i).

(** [A @ B] when the shapes agree: entry [(i, k)] adds the products
    [A[i, r] * B[r, k]] from left to right. *)
Definition matmul (A B : matrix) : matrix :=
  tabulate (nrows A) (ncols B) (fun i k =>
    fold_left (fun acc r => fadd acc (fmul (mget A i r) (mget B r k)))
              (seq 0 (ncols A)) fzero).

(** [A[:, :k]] and [A[:k, :]] *)
Definition slice_cols (k : nat) (A : matrix) : matrix :=
  mk_matrix (nrows A) (Nat.min k (ncols A)) (map (firstn k) (rows A)).
Definition slice_rows (k : nat) (A : matrix) : matrix :=
  mk_matrix (Nat.min k (nrows A)) (ncols A) (firstn k (rows A)).

(** [A[i:, j]] read as a 1-D array. *)
Definition col_from (A : matrix) (i j : nat) : vec :=
  map (fun r => mget A r j) (seq i (nrows A - i)).

(** [A[i:, j] = w] *)
Definition col_assign (A : matrix) (i j : nat) (w : vec) : matrix :=
  fold_left (fun A' p => mset A' (fst p) j (snd p))
            (combine (seq i (nrows A - i)) w) A.

(** [A[i:, j] -= w] *)
Definition col_sub (A : matrix) (i j : nat) (w : vec) : matrix :=
  col_assign A i j (vsub (col_from A i j) w).

(** [A[:, j] /= d] *)
Definition col_div (A : matrix) (j : nat) (d : F) : matrix :=
  col_assign A 0 j (map (fun x => fdiv x d) (col_from A 0 j)).

(** ** [linalg.utils] *)

(** Modelled from the spec: [linalg/utils.py] is missing; [l2_norm(v)] is
    "Euclidean norm, sqrt(sum(v_i^2))". *)
Definition l2_norm (v : vec) : F :=
  fsqrt (fold_left fadd (map (fun x => fmul x x) v) fzero).

(** Modelled from the spec: [linalg/utils.py] is missing; [sign(x)]
    "returns +1 if x >= 0, else -1". *)
Definition sign (x : F) : F :=
  if fle fzero x then fone else fopp fone.

(** Modelled from the spec: [linalg/utils.py] is missing; [projection(u, v)]
    is "(u^T v / v^T v) * v". *)
Definition projection (u v : vec) : vec :=
  vscale (fdiv (vdot u v) (vdot v v)) v.

(** Modelled from the spec: [linalg/utils.py] is missing; [normalize(v)]
    "scales v to unit L2 norm". *)
Definition normalize (v : vec) : vec :=
  map (fun x => fdiv x (l2_norm v)) v.

(** Modelled from the spec: [linalg/utils.py] is missing; [basis_vec(i, n)]
    is "the i-th standard basis vector in n dimensions". *)
Definition basis_vec (i n : nat) : vec :=
  map (fun k => if k =? i then fone else fzero) (seq 0 n).

(** ** [linalg.kahan] *)

(** Modelled from the spec: [linalg/kahan.py] is missing; the accumulator
    keeps "a running total and a running correction term". *)
Record KahanSum : Type := mk_kahan {
  total : F;
  correction : F
}.

Definition KahanSum_init : KahanSum := mk_kahan fzero fzero.

(** Modelled from the spec: "for each new term t, compute y = t - correction;
    temp = total + y; new correction = (temp - total) - y; total = temp". *)
Definition kahan_add (acc : KahanSum) (t : F) : KahanSum :=
  let y := fsub t (correction acc) in
  let temp := fadd (total acc) y in
  mk_kahan temp (fsub (fsub temp (total acc)) y).

(** Modelled from the spec: [result()] "returns the compensated sum". *)
Definition kahan_result (acc : KahanSum) : F := total acc.

(** ** Householder: the loops of [QR.householder] on array values *)

(** [M0[i:, j] -= (2 * v.T @ M0[i:, j]) / (v.T @ v) * v]; Python reads
    [2 * v.T @ c] as [(2 * v.T) @ c]. *)
Definition reflect (v : vec) (M0 : matrix) (i j : nat) : matrix :=
  let c := col_from M0 i j in
  let coef := fdiv (vdot (vscale ftwo v) c) (vdot v v) in
  col_sub M0 i j (vscale coef v).

(** Lines 97-103: the reflection vector of step [i]. *)
Definition reflection_vector (Ai : matrix) (i : nat) : vec :=
  let a := col_from Ai i i in
  let c := l2_norm a in
  let s := sign (nth 0 a fzero) in
  let e := basis_vec 0 (length a) in
  vadd a (vscale (fmul s c) e).

(** Lines 96-109: one pass of [for i in range(K)], on the working array
    and the list [vs]. *)
Definition hh_step (K : nat) (st : matrix * list vec) (i : nat) : matrix * list vec :=
  let v := reflection_vector (fst st) i in
  let vs := snd st ++ [v] in
  if negb (isclose0 (vdot v v))
  then (fold_left (fun Aj j => reflect v Aj i j) (seq i (K - i)) (fst st), vs)
  else (fst st, vs).

(** Lines 94-109. *)
Definition eliminate (K : nat) (A0 : matrix) : matrix * list vec :=
  fold_left (hh_step K) (seq 0 K) (A0, []).

(** Lines 115-116: the body of [for j, v in enumerate(reversed(vs))]. *)
Definition q_step (K i : nat) (Q0 : matrix) (jv : nat * vec) : matrix :=
  if negb (isclose0 (vdot (snd jv) (snd jv)))
  then reflect (snd jv) Q0 (K - fst jv - 1) i
  else Q0.

(** Lines 113-116, applied to the buffer of [self.Q]. *)
Definition build_Q (K : nat) (vs : list vec) (M : nat) (Q0 : matrix) : matrix :=
  fold_left (fun Qi i => fold_left (q_step K i) (enumerate (rev vs)) Qi)
            (seq 0 M) Q0.

(** ** Gram-Schmidt: the loops of the two variants on array values *)

(** Lines 61-64. *)
Definition gs_loop (N : nat) (A0 : matrix) : matrix :=
  fold_left (fun Ai i =>
    let Ai' := fold_left (fun Aj j =>
                 col_sub Aj 0 i (projection (col_from Aj 0 i) (col_from Aj 0 j)))
                 (seq 0 i) Ai in
    col_assign Ai' 0 i (normalize (col_from Ai' 0 i)))
    (seq 1 (N - 1)) A0.

(** Lines 79-82. *)
Definition gsm_loop (N : nat) (A0 : matrix) : matrix :=
  fold_left (fun Ai i =>
    let Ai' := col_div Ai i (l2_norm (col_from Ai 0 i)) in
    fold_left (fun Aj j =>
      col_sub Aj 0 j (projection (col_from Aj 0 j) (col_from Aj 0 i)))
      (seq (i + 1) (N - (i + 1))) Ai')
    (seq 0 N) A0.

(** ** Back substitution: the loops of [QR._backward] on array values *)

(** Lines 158-160: the accumulator after [for j in range(K-1, i, -1)]. *)
Definition bs_acc (K : nat) (Rm x : matrix) (i k : nat) : KahanSum :=
  fold_left (fun acc j => kahan_add acc (fmul (mget Rm i j) (mget x j k)))
            (rev (seq (S i) (K - S i))) KahanSum_init.

(** Lines 158-161: one pass of [for i in range(K-1, -1, -1)]. *)
Definition bs_row (K : nat) (Rm y : matrix) (k : nat) (x : matrix) (i : nat) : matrix :=
  mset x i k (fdiv (fsub (mget y i k) (kahan_result (bs_acc K Rm x i k)))
                   (mget Rm i i)).

(** Lines 157-161: one pass of [for k in range(num_iters)]. *)
Definition bs_col (K : nat) (Rm y : matrix) (x : matrix) (k : nat) : matrix :=
  fold_left (bs_row K Rm y k) (rev (seq 0 K)) x.

(** Lines 156-161. *)
Definition back_sub (K : nat) (Rm y : matrix) (num_iters : nat) (x : matrix) : matrix :=
  fold_left (bs_col K Rm y) (seq 0 num_iters) x.

End Model.

Arguments matrix F : clear implicits.
Arguments vec F : clear implicits.
Arguments KahanSum F : clear implicits.

(** ** N-dimensional arrays as [solve] receives and returns them *)

Section Engine.
Context {F : Type} {SF : Scalar F}.

(** An array of 0, 1 or 2 dimensions. *)
Inductive ndarray : Type :=
| Arr0 (s : F)
| Arr1 (v : vec F)
| Arr2 (m : matrix F).

(** [a.shape] and [a.ndim] *)
Definition shape (a : ndarray) : list nat :=
  match a with
  | Arr0 _ => []
  | Arr1 v => [length v]
  | Arr2 m => [nrows m; ncols m]
  end.

Definition ndim (a : ndarray) : nat := length (shape a).

(** [np.dot(A, b)] for a 2-D [A]: a 0-d [b] scales [A]; a 1-D or 2-D [b]
    must have as many rows as [A] has columns, otherwise numpy raises
    [ValueError] (shapes not aligned). *)
Definition np_dot (A : matrix F) (b : ndarray) : result ndarray :=
  match b with
  | Arr0 s =>
      Ok (Arr2 (tabulate (nrows A) (ncols A) (fun i r => fmul (mget A i r) s)))
  | Arr1 v =>
      if ncols A =? length v
      then Ok (Arr1 (map (fun i =>
                  fold_left (fun acc r => fadd acc (fmul (mget A i r) (nth r v fzero)))
                            (seq 0 (ncols A)) fzero)
                (seq 0 (nrows A))))
      else Raise ValueError
  | Arr2 m =>
      if ncols A =? nrows m then Ok (Arr2 (matmul A m)) else Raise ValueError
  end.

(** [np.reshape(y, [-1, 1])] of a 1-D array. *)
Definition reshape_col (v : vec F) : matrix F :=
  tabulate (length v) 1 (fun i _ => nth i v fzero).

(** The 2-D array behind [self.y] when the loops index it: a 1-D [y] has
    been reshaped into a column before (lines 146-147), and [np.dot] with
    a 2-D left operand never returns a 0-d array. *)
Definition nd_matrix (a : ndarray) : matrix F :=
  match a with
  | Arr2 m => m
  | Arr1 v => reshape_col v
  | Arr0 s => tabulate 1 1 (fun _ _ => s)
  end.

(** [x.squeeze()] of a 2-D array: every axis of length one is removed. *)
Definition squeeze (x : matrix F) : ndarray :=
  if (nrows x =? 1) && (ncols x =? 1) then Arr0 (mget x 0 0)
  else if ncols x =? 1 then Arr1 (col_from x 0 0)
  else if nrows x =? 1 then Arr1 (map (fun c => mget x 0 c) (seq 0 (ncols x)))
  else Arr2 x.

(** The entries of an array in row-major order ([a.ravel()]). *)
Definition ravel (a : ndarray) : list F :=
  match a with
  | Arr0 s => [s]
  | Arr1 v => v
  | Arr2 m => concat (map (fun r => map (fun c => mget m r c) (seq 0 (ncols m)))
                          (seq 0 (nrows m)))
  end.

(** ** The engine *)

(** A buffer is named by its position in the heap. *)
Definition loc : Type := nat.

(** What an attribute holds: a whole buffer, or the view [buf[:k, :]] or
    [buf[:, :k]] of one (basic slicing shares the buffer). *)
Inductive aref : Type :=
| Whole (l : loc)
| RowsTo (k : nat) (l : loc)
| ColsTo (k : nat) (l : loc).

(** The object [self]: its buffers and its attributes.  An attribute that
    has not been assigned yet is [None].  [b], [y] and [x] are held by
    value: [y] and [x] are created by each call of [_backward] and [b] is
    only read. *)
Record QR : Type := mk_QR {
  heap : list (matrix F);
  backup : loc;
  reduce : bool;
  self_A : option loc;
  self_Q : option aref;
  self_R : option aref;
  self_b : option ndarray;
  self_y : option ndarray;
  self_x : option ndarray
}.

Definition set_heap (self : QR) (h : list (matrix F)) : QR :=
  mk_QR h (backup self) (reduce self) (self_A self) (self_Q self) (self_R self)
        (self_b self) (self_y self) (self_x self).
Definition set_A (self : QR) (a : option loc) : QR :=
  mk_QR (heap self) (backup self) (reduce self) a (self_Q self) (self_R self)
        (self_b self) (self_y self) (self_x self).
Definition set_Q (self : QR) (q : option aref) : QR :=
  mk_QR (heap self) (backup self) (reduce self) (self_A self) q (self_R self)
        (self_b self) (self_y self) (self_x self).
Definition set_R (self : QR) (r : option aref) : QR :=
  mk_QR (heap self) (backup self) (reduce self) (self_A self) (self_Q self) r
        (self_b self) (self_y self) (self_x self).
Definition set_b (self : QR) (b : option ndarray) : QR :=
  mk_QR (heap self) (backup self) (reduce self) (self_A self) (self_Q self) (self_R self)
        b (self_y self) (self_x self).
Definition set_y (self : QR) (y : option ndarray) : QR :=
  mk_QR (heap self) (backup self) (reduce self) (self_A self) (self_Q self) (self_R self)
        (self_b self) y (self_x self).
Definition set_x (self : QR) (x : option ndarray) : QR :=
  mk_QR (heap self) (backup self) (reduce self) (self_A self) (self_Q self) (self_R self)
        (self_b self) (self_y self) x.

(** The buffer at a location, and the array an attribute denotes. *)
Definition cell (h : list (matrix F)) (l : loc) : matrix F :=
  nth l h (mk_matrix 0 0 []).

Definition deref (h : list (matrix F)) (r : aref) : matrix F :=
  match r with
  | Whole l => cell h l
  | RowsTo k l => slice_rows k (cell h l)
  | ColsTo k l => slice_cols k (cell h l)
  end.

(** A new buffer holding [m] ([np.array(m)], [np.eye], [np.dot]). *)
Definition alloc (self : QR) (m : matrix F) : QR * loc :=
  (set_heap self (heap self ++ [m]), length (heap self)).

(** An in-place statement on the buffer at [l]. *)
Definition modify (self : QR) (l : loc) (f : matrix F -> matrix F) : QR :=
  set_heap self (upd l (f (cell (heap self) l)) (heap self)).

(** [QR(A, reduce)]: [np.array(A, dtype=np.float64)] copies the argument
    into a buffer of the engine. *)
Definition QR_init (A : matrix F) (reduce : bool) : QR :=
  mk_QR [A] 0 reduce None None None None None None.

(** [QR.householder]; the pair is what [ret=True] returns, [solve] calls
    it with [ret=False] and only keeps the engine. *)
Definition householder (self : QR) : QR * (aref * aref) :=
  let (self, la) := alloc self (cell (heap self) (backup self)) in
  let self := set_A self (Some la) in
  let M := nrows (cell (heap self) la) in
  let N := ncols (cell (heap self) la) in
  let K := Nat.min M N in
  let vs := snd (eliminate K (cell (heap self) la)) in
  let self := modify self la (fun A0 => fst (eliminate K A0)) in
  let (self, lq) := alloc self (eye M) in
  let self := set_Q self (Some (Whole lq)) in
  let self := modify self lq (build_Q K vs M) in
  let self := set_R self (Some (Whole la)) in
  let q := if reduce self then ColsTo K lq else Whole lq in
  let r := if reduce self then RowsTo K la else Whole la in
  let self := set_R (set_Q self (Some q)) (Some r) in
  (self, (q, r)).

(** [QR.decompose] *)
Definition decompose (self : QR) : QR * (aref * aref) := householder self.

(** [QR.gram_schmidt]; [self.A[:, 0]] raises [IndexError] on an array
    without columns. *)
Definition gram_schmidt (self : QR) : QR * result (aref * aref) :=
  let (self, la) := alloc self (cell (heap self) (backup self)) in
  let self := set_A self (Some la) in
  let N := ncols (cell (heap self) la) in
  let (self, lr) := alloc self (cell (heap self) la) in
  let self := set_R self (Some (Whole lr)) in
  if N =? 0 then (self, Raise IndexError)
  else
    let self := modify self la (fun A0 => col_div A0 0 (l2_norm (col_from A0 0 0))) in
    let self := modify self la (gs_loop N) in
    let self := set_Q self (Some (Whole la)) in
    let (self, lr') := alloc self (matmul (transpose (cell (heap self) la))
                                          (cell (heap self) lr)) in
    let self := set_R self (Some (Whole lr')) in
    (self, Ok (Whole la, Whole lr')).

(** [QR.gram_schmidt_modified] *)
Definition gram_schmidt_modified (self : QR) : QR * (aref * aref) :=
  let (self, la) := alloc self (cell (heap self) (backup self)) in
  let self := set_A self (Some la) in
  let N := ncols (cell (heap self) la) in
  let (self, lr) := alloc self (cell (heap self) la) in
  let self := set_R self (Some (Whole lr)) in
  let self := modify self la (gsm_loop N) in
  let self := set_Q self (Some (Whole la)) in
  let (self, lr') := alloc self (matmul (transpose (cell (heap self) la))
                                        (cell (heap self) lr)) in
  let self := set_R self (Some (Whole lr')) in
  (self, (Whole la, Whole lr')).

(** [QR._backward]; reading an attribute that was never assigned raises
    [AttributeError]. *)
Definition _backward (self : QR) : QR * result unit :=
  match self_R self, self_Q self, self_b self with
  | Some r, Some q, Some b =>
      let Rm := deref (heap self) r in
      let M := nrows Rm in
      let N := ncols Rm in
      let K := Nat.min M N in
      match np_dot (transpose (deref (heap self) q)) b with
      | Raise e => (self, Raise e)
      | Ok y0 =>
          let y := match y0 with Arr1 v => Arr2 (reshape_col v) | _ => y0 end in
          let self := set_y self (Some y) in
          let num_iters := if ndim b =? 2 then nth 1 (shape b) 0 else 1 in
          let x := back_sub K Rm (nd_matrix y) num_iters (zeros N num_iters) in
          let self := set_x self (Some (if ndim b =? 1 then squeeze x else Arr2 x)) in
          (self, Ok tt)
      end
  | _, _, _ => (self, Raise AttributeError)
  end.

(** [QR.solve] *)
Definition solve (self : QR) (b : ndarray) : QR * result ndarray :=
  let self := set_b self (Some b) in
  let self := fst (householder self) in
  match _backward self with
  | (self, Ok _) =>
      match self_x self with
      | Some x => (self, Ok x)
      | None => (self, Raise AttributeError)
      end
  | (self, Raise e) => (self, Raise e)
  end.

(** The arrays a returned pair [(Q, R)] denotes in the engine's heap. *)
Definition values (self : QR) (qr : aref * aref) : matrix F * matrix F :=
  (deref (heap self) (fst qr), deref (heap self) (snd qr)).

End Engine.

Arguments ndarray F : clear implicits.
Arguments QR F : clear implicits.

(** ** Notions used in the statements *)

Section Notions.
Context {F : Type} {SF : Scalar F}.

(** The rows agree with the recorded shape. *)
Definition wf (A : matrix F) : Prop :=
  length (rows A) = nrows A /\
  forall r, r < nrows A -> length (nth r (rows A) []) = ncols A.

(** The state of the elimination after the steps [0 .. n-1]. *)
Definition eliminate_upto (K n : nat) (A0 : matrix F) : matrix F * list (vec F) :=
  fold_left (hh_step K) (seq 0 n) (A0, []).

(** The factors of the array [A0] as [householder] computes them: the
    working array after the elimination and the array built from the
    identity, before the [reduce] slices are taken. *)
Definition hh_K (A0 : matrix F) : nat := Nat.min (nrows A0) (ncols A0).
Definition hh_R (A0 : matrix F) : matrix F := fst (eliminate (hh_K A0) A0).
Definition hh_vs (A0 : matrix F) : list (vec F) := snd (eliminate (hh_K A0) A0).
Definition hh_Q (A0 : matrix F) : matrix F :=
  build_Q (hh_K A0) (hh_vs A0) (nrows A0) (eye (nrows A0)).

(** The pair of arrays [householder] returns. *)
Definition householder_values (self : QR F) : matrix F * matrix F :=
  values (fst (householder self)) (snd (householder self)).

(** The buffer an attribute views. *)
Definition aref_loc (r : aref) : loc :=
  match r with Whole l | RowsTo _ l | ColsTo _ l => l end.

(** [h'] is [h] followed by newer buffers. *)
Definition extends (h h' : list (matrix F)) : Prop := exists ext, h' = h ++ ext.

(** A call on the engine, and the engine it leaves (whatever is returned
    or raised). *)
Inductive call : Type :=
| Call_gram_schmidt
| Call_gram_schmidt_modified
| Call_householder
| Call_decompose
| Call_solve (b : ndarray F).

Definition run_call (self : QR F) (c : call) : QR F :=
  match c with
  | Call_gram_schmidt => fst (gram_schmidt self)
  | Call_gram_schmidt_modified => fst (gram_schmidt_modified self)
  | Call_householder => fst (householder self)
  | Call_decompose => fst (decompose self)
  | Call_solve b => fst (solve self b)
  end.

(** The passes of the row loop over the rows [m-1, ..., 0] of column [k]. *)
Definition bs_rows (K : nat) (Rm y : matrix F) (k m : nat) (x : matrix F) : matrix F :=
  fold_left (bs_row K Rm y k) (rev (seq 0 m)) x.

(** What [_backward] leaves in [self.x], as a function of the arrays that
    [self.Q] and [self.R] denote and of [b] (lines 142-164). *)
Definition backward_value (Qv Rv : matrix F) (b : ndarray F) : result (ndarray F) :=
  match np_dot (transpose Qv) b with
  | Raise e => Raise e
  | Ok y0 =>
      let y := match y0 with Arr1 v => Arr2 (reshape_col v) | _ => y0 end in
      let K := Nat.min (nrows Rv) (ncols Rv) in
      let num_iters := if ndim b =? 2 then nth 1 (shape b) 0 else 1 in
      let x := back_sub K Rv (nd_matrix y) num_iters (zeros (ncols Rv) num_iters) in
      Ok (if ndim b =? 1 then squeeze x else Arr2 x)
  end.

(** [b] has as many rows as [A] (a 0-d [b] has none to compare). *)
Definition aligned (M : nat) (b : ndarray F) : bool :=
  match b with
  | Arr0 _ => true
  | Arr1 v => length v =? M
  | Arr2 m => nrows m =? M
  end.

(** The entry [(r, k)] of a result of [solve]; a 1-D result is read as a
    column and a 0-d result as its only entry. *)
Definition nd_get (a : ndarray F) (r k : nat) : F :=
  match a with
  | Arr0 s => s
  | Arr1 v => nth r v fzero
  | Arr2 m => mget m r k
  end.

(** The entry [(r, k)] of an array, where the array has one: a 2-D array
    at a row and a column within its shape, a 1-D array (read as a
    column) at an index within its length, a 0-d array at [(0, 0)]. *)
Definition nd_entry (a : ndarray F) (r k : nat) : option F :=
  match a with
  | Arr0 s => if (r =? 0) && (k =? 0) then Some s else None
  | Arr1 v => if k =? 0 then nth_error v r else None
  | Arr2 m =>
      if (r <? nrows m) && (k <? ncols m)
      then match nth_error (rows m) r with
           | Some row => nth_error row k
           | None => None
           end
      else None
  end.

End Notions.

(** The scalars [SF] with [d] in place of the division. *)
Definition with_div {F : Type} (SF : Scalar F) (d : F -> F -> F) : Scalar F :=
  {| fzero := fzero; fone := fone; ftwo := ftwo;
     fadd := fadd; fsub := fsub; fmul := fmul; fdiv := d;
     fopp := fopp; fsqrt := fsqrt; fle := fle; isclose0 := isclose0 |}.

(** ** Notions used in the further properties *)

Section MoreNotions.
Context {F : Type} {SF : Scalar F}.

(** [A[:, c]] read as a 1-D array. *)
Definition colv (A : matrix F) (c : nat) : vec F := col_from A 0 c.

(** The array [Q] that [gram_schmidt] builds from the backup [A0] (lines
    60-65), the one [gram_schmidt_modified] builds (lines 79-83), and the
    array [R = Q.T @ A0] of both (lines 66 and 84). *)
Definition gs_Q (A0 : matrix F) : matrix F :=
  gs_loop (ncols A0) (col_div A0 0 (l2_norm (col_from A0 0 0))).
Definition gsm_Q (A0 : matrix F) : matrix F := gsm_loop (ncols A0) A0.
Definition gs_R (Qm A0 : matrix F) : matrix F := matmul (transpose Qm) A0.

(** The pair of arrays [gram_schmidt] returns, if it returns, and the
    pair [gram_schmidt_modified] returns. *)
Definition gram_schmidt_values (self : QR F) : result (matrix F * matrix F) :=
  match snd (gram_schmidt self) with
  | Ok qr => Ok (values (fst (gram_schmidt self)) qr)
  | Raise e => Raise e
  end.
Definition gram_schmidt_modified_values (self : QR F) : matrix F * matrix F :=
  values (fst (gram_schmidt_modified self)) (snd (gram_schmidt_modified self)).

(** A column [a] after the projections onto the columns [qs[0]], ...,
    [qs[m-1]] have been subtracted from it, one after the other. *)
Definition residual (qs : list (vec F)) (m : nat) (a : vec F) : vec F :=
  fold_left (fun u j => vsub u (projection u (nth j qs []))) (seq 0 m) a.

(** The first [n] columns that both Gram-Schmidt loops arrive at: column
    [c] is the normalized residual of [A0[:, c]] against the columns
    before it. *)
Fixpoint gs_columns (A0 : matrix F) (n : nat) : list (vec F) :=
  match n with
  | 0 => []
  | S n' => gs_columns A0 n' ++ [normalize (residual (gs_columns A0 n') n' (colv A0 n'))]
  end.

(** The columns below [n] are final and the others are still those of
    [A0]: the invariant of [for i in range(1, N)] in [gram_schmidt]. *)
Definition gs_done (A0 : matrix F) (n : nat) (A : matrix F) : Prop :=
  wf A /\ nrows A = nrows A0 /\ ncols A = ncols A0 /\
  (forall c, c < n -> colv A c = nth c (gs_columns A0 (ncols A0)) []) /\
  (forall c, n <= c -> c < ncols A0 -> colv A c = colv A0 c).

(** The columns below [n] are final and every other column has lost its
    projections onto them: the invariant of [for i in range(N)] in
    [gram_schmidt_modified]. *)
Definition gsm_done (A0 : matrix F) (n : nat) (A : matrix F) : Prop :=
  wf A /\ nrows A = nrows A0 /\ ncols A = ncols A0 /\
  (forall c, c < n -> colv A c = nth c (gs_columns A0 (ncols A0)) []) /\
  (forall c, n <= c -> c < ncols A0 -> colv A c = residual (gs_columns A0 (ncols A0)) n (colv A0 c)).

(** No normalization divides by zero: the norm by which line 64 (line
    80) divides column [c] is the norm of its residual. *)
Definition gs_regular (A0 : matrix F) : Prop :=
  forall c, c < ncols A0 ->
    l2_norm (residual (gs_columns A0 (ncols A0)) c (colv A0 c)) <> fzero.

(** What line 109 (line 116) does to a whole column [x]: the rows above
    [i] stay, the slice from row [i] on is reflected. *)
Definition reflect_vec (v : vec F) (i : nat) (x : vec F) : vec F :=
  firstn i x ++
  vsub (skipn i x) (vscale (fdiv (vdot (vscale ftwo v) (skipn i x)) (vdot v v)) v).

(** No step of the elimination is skipped: the test of line 107 succeeds
    for every reflection vector. *)
Definition hh_regular (A0 : matrix F) : Prop :=
  forall i, i < hh_K A0 ->
    isclose0 (vdot (nth i (hh_vs A0) []) (nth i (hh_vs A0) [])) = false.

(** [c] is a call of [solve]. *)
Definition is_solve (c : @call F) : bool :=
  match c with
  | Call_solve _ => true
  | _ => false
  end.

(** Row [i] of the triangular system that [_backward] is documented to
    solve, [R[i, i:K] @ x[i:K, k]], added from left to right. *)
Definition upper_row_dot (Rm X : matrix F) (K i k : nat) : F :=
  fold_left fadd (map (fun j => fmul (mget Rm i j) (mget X j k)) (seq i (K - i))) fzero.

End MoreNotions.

(** ** binary64 *)

Module Float64.
Import Floats.

(** [np.isclose(x, 0)] with the default [rtol = 1e-05], [atol = 1e-08]:
    [|x - 0| <= atol + rtol * |0|], false on NaN and on infinities. *)
Definition isclose0_f (x : float) : bool :=
  PrimFloat.leb (PrimFloat.abs x) 0x1.5798ee2308c3ap-27%float.

#[export] Instance float64 : Scalar float := {
  fzero := 0%float;
  fone := 1%float;
  ftwo := 2%float;
  fadd := PrimFloat.add;
  fsub := PrimFloat.sub;
  fmul := PrimFloat.mul;
  fdiv := PrimFloat.div;
  fopp := PrimFloat.opp;
  fsqrt := PrimFloat.sqrt;
  fle := PrimFloat.leb;
  isclose0 := isclose0_f
}.

(** [np.array(rows)] for a rectangular nested list. *)
Definition of_rows (l : list (list float)) : matrix float :=
  mk_matrix (length l) (length (hd [] l)) l.

Local Open Scope float_scope.

(** The arrays of the runs below, and engines on them: a 1 by 2 array,
    1 by 1 arrays, a 2 by 1 array with [reduce] set, the 3 by 2 array of
    the line-fit example, a singular array, a diagonal array. *)
Definition wide_A : matrix float := of_rows [[3; 4]].
Definition wide_engine : QR float := QR_init wide_A false.
Definition scalar_engine : QR float := QR_init (of_rows [[2]]) false.
Definition zero_engine : QR float := QR_init (of_rows [[0]]) false.
Definition tall_reduced_engine : QR float := QR_init (of_rows [[3]; [4]]) true.
Definition line_fit_engine : QR float :=
  QR_init (of_rows [[1; 1]; [1; 2]; [1; 3]]) false.
Definition diagonal_engine : QR float := QR_init (of_rows [[2; 0]; [0; 4]]) false.

End Float64.

(** ** Exact arithmetic *)

Module Exact.
Import Reals Lra.
Local Open Scope R_scope.

(** [np.isclose(x, 0)] read over the reals: [|x| <= 1e-8]. *)
Definition isclose0_R (x : R) : bool :=
  if Rle_dec (Rabs x) (/ 100000000) then true else false.

#[export] Instance real_scalar : Scalar R := {
  fzero := 0;
  fone := 1;
  ftwo := 2;
  fadd := Rplus;
  fsub := Rminus;
  fmul := Rmult;
  fdiv := Rdiv;
  fopp := Ropp;
  fsqrt := sqrt;
  fle := fun x y => if Rle_dec x y then true else false;
  isclose0 := isclose0_R
}.

(** The working array when step [i] of the elimination starts, and the
    subcolumn [a] that the step extracts from it. *)
Definition step_input (A0 : matrix R) (i : nat) : matrix R :=
  fst (eliminate_upto (hh_K A0) i A0).
Definition subcolumn (A0 : matrix R) (i : nat) : vec R :=
  col_from (step_input A0 i) i i.

(** The sum of squares under the root of [l2_norm]. *)
Definition sumsq (l : list R) : R := fold_left Rplus (map (fun x => x * x) l) 0.

(** An instance: the 1 by 1 array [[2]]. *)
Definition two_engine : QR R := QR_init (mk_matrix 1 1 [[2]]) false.

End Exact.

(** ** Further sample arrays *)

Module Samples.
Import Floats Float64 Reals.

(** A 2 by 0 array, and the first column of the line-fit array on its
    own. *)
Definition no_columns_engine : QR float := QR_init (of_rows [[]; []]) false.
Definition ones_column_engine : QR float :=
  QR_init (of_rows [[1%float]; [1%float]; [1%float]]) false.

(** An upper triangular array, the same array with an entry below the
    diagonal, and a right-hand side. *)
Definition upper_R : matrix float := of_rows [[2%float; 1%float]; [0%float; 4%float]].
Definition filled_R : matrix float := of_rows [[2%float; 1%float]; [7%float; 4%float]].
Definition rhs_y : matrix float := of_rows [[4%float]; [8%float]].

(** Over the reals: the 2 by 1 array [[3], [4]] and a right-hand side for
    the 1 by 1 array [[2]]. *)
Definition three_four : matrix R := mk_matrix 2 1 [[3%R]; [4%R]].
Definition three_four_engine : QR R := QR_init three_four false.
Definition rhs_four : matrix R := mk_matrix 1 1 [[4%R]].

(** Over the reals: the 2 by 2 identity. *)
Definition identity_two : matrix R := mk_matrix 2 2 [[1%R; 0%R]; [0%R; 1%R]].
Definition identity_two_engine : QR R := QR_init identity_two false.

End Samples.

(** * Properties *)

(** ** Lists *)

Lemma upd_length {A : Type} (i : nat) (v : A) (l : list A) :
  length (upd i v l) = length l.
Proof.
  revert i; induction l as [|x t IH]; intros [|i]; simpl; auto.
Qed.

Lemma nth_upd_same {A : Type} (i : nat) (v d : A) (l : list A) :
  i < length l -> nth i (upd i v l) d = v.
Proof.
  revert i; induction l as [|x t IH]; intros [|i] H; simpl in *; try lia; auto.
  apply IH; lia.
Qed.

Lemma nth_upd_other {A : Type} (i j : nat) (v d : A) (l : list A) :
  i <> j -> nth j (upd i v l) d = nth j l d.
Proof.
  revert i j; induction l as [|x t IH]; intros [|i] [|j] H; simpl; auto; try lia.
Qed.

Lemma upd_app_r {A : Type} (h l : list A) (n : nat) (v : A) :
  upd (length h + n) v (h ++ l) = h ++ upd n v l.
Proof.
  induction h as [|x t IH]; [reflexivity|].
  change (x :: upd (length t + n) v (t ++ l) = x :: (t ++ upd n v l)).
  now rewrite IH.
Qed.

Lemma upd_app_end {A : Type} (h : list A) (m v : A) :
  upd (length h) v (h ++ [m]) = h ++ [v].
Proof. rewrite <- (Nat.add_0_r (length h)). exact (upd_app_r h [m] 0 v). Qed.

Lemma upd_app_end2 {A : Type} (h : list A) (m1 m2 v : A) :
  upd (S (length h)) v (h ++ [m1; m2]) = h ++ [m1; v].
Proof. rewrite <- (Nat.add_1_r (length h)). exact (upd_app_r h [m1; m2] 1 v). Qed.

Lemma nth_firstn_lt {A : Type} (k i : nat) (l : list A) (d : A) :
  i < k -> nth i (firstn k l) d = nth i l d.
Proof.
  revert i l; induction k as [|k IH]; intros i l H; [lia|].
  destruct l as [|x t]; [now destruct i|].
  destruct i as [|i]; simpl; [reflexivity | apply IH; lia].
Qed.

Lemma fold_left_ext_in {A B : Type} (f g : A -> B -> A) (l : list B) (a : A) :
  (forall a0 x, In x l -> f a0 x = g a0 x) ->
  fold_left f l a = fold_left g l a.
Proof.
  revert a; induction l as [|x t IH]; intros a H; simpl; [reflexivity|].
  rewrite H by (left; reflexivity). apply IH.
  intros a0 y Hy; apply H; right; exact Hy.
Qed.

(** An invariant of the accumulator of a loop. *)
Lemma fold_left_inv {A B : Type} (P : A -> Prop) (f : A -> B -> A) (l : list B) (a : A) :
  P a -> (forall a0 x, In x l -> P a0 -> P (f a0 x)) -> P (fold_left f l a).
Proof.
  revert a; induction l as [|x t IH]; intros a Ha H; simpl; [exact Ha|].
  apply IH.
  - apply H; [left; reflexivity | exact Ha].
  - intros a0 y Hy; apply H; right; exact Hy.
Qed.

(** ** Arrays: reading after writing *)

Section ArrayFacts.
Context {F : Type} {SF : Scalar F}.

Lemma mset_nrows (A : matrix F) r c v : nrows (mset A r c v) = nrows A.
Proof. reflexivity. Qed.

Lemma mset_ncols (A : matrix F) r c v : ncols (mset A r c v) = ncols A.
Proof. reflexivity. Qed.

Lemma mget_mset_other (A : matrix F) r c v r' c' :
  r' <> r \/ c' <> c -> mget (mset A r c v) r' c' = mget A r' c'.
Proof.
  intros H. unfold mget, mset; simpl.
  destruct (Nat.eq_dec r r') as [->|Hr].
  - destruct H as [H|H]; [congruence|].
    destruct (Nat.lt_ge_cases r' (length (rows A))) as [Hlt|Hge].
    + rewrite nth_upd_same by exact Hlt.
      apply nth_upd_other; congruence.
    + assert (E : upd r' (upd c v (nth r' (rows A) [])) (rows A) = rows A).
      { clear -Hge. revert r' Hge. induction (rows A) as [|x t IH]; intros [|r'] Hge;
          simpl in *; try reflexivity; try lia. f_equal.
        rewrite (nth_overflow t) by lia.
        specialize (IH r' ltac:(lia)). rewrite (nth_overflow t) in IH by lia. exact IH. }
      now rewrite E.
  - now rewrite nth_upd_other by exact Hr.
Qed.

Lemma mget_mset_same (A : matrix F) r c v :
  wf A -> r < nrows A -> c < ncols A -> mget (mset A r c v) r c = v.
Proof.
  intros [Hl Hr] Hrl Hc. unfold mget, mset; simpl.
  rewrite nth_upd_same by lia.
  apply nth_upd_same. rewrite Hr by exact Hrl. exact Hc.
Qed.

Lemma wf_mset (A : matrix F) r c v : wf A -> wf (mset A r c v).
Proof.
  intros [Hl Hr]. split; simpl.
  - now rewrite upd_length.
  - intros r' Hr'. destruct (Nat.eq_dec r r') as [->|Hne].
    + rewrite nth_upd_same by lia. rewrite upd_length. now apply Hr.
    + rewrite nth_upd_other by exact Hne. now apply Hr.
Qed.

Lemma wf_tabulate m n (f : nat -> nat -> F) : wf (tabulate m n f).
Proof.
  split; simpl.
  - now rewrite length_map, length_seq.
  - intros r Hr.
    rewrite (nth_indep _ [] (map (fun c => f 0 c) (seq 0 n)))
      by (now rewrite length_map, length_seq).
    rewrite (map_nth (fun r0 => map (fun c => f r0 c) (seq 0 n)) (seq 0 m) 0 r).
    now rewrite length_map, length_seq.
Qed.

Lemma mget_tabulate m n (f : nat -> nat -> F) r c :
  r < m -> c < n -> mget (tabulate m n f) r c = f r c.
Proof.
  intros Hr Hc. unfold mget, tabulate; simpl.
  rewrite (nth_indep _ [] (map (fun c0 => f 0 c0) (seq 0 n)))
    by (now rewrite length_map, length_seq).
  rewrite (map_nth (fun r0 => map (fun c0 => f r0 c0) (seq 0 n)) (seq 0 m) 0 r).
  rewrite seq_nth by exact Hr. simpl.
  rewrite (nth_indep _ fzero (f r 0)) by (now rewrite length_map, length_seq).
  rewrite (map_nth (fun c0 => f r c0) (seq 0 n) 0 c).
  now rewrite seq_nth by exact Hc.
Qed.

(** [np.zeros] reads as zero at every index. *)
Lemma mget_zeros m n r c : mget (zeros m n) r c = fzero.
Proof.
  destruct (Nat.lt_ge_cases r m) as [Hr|Hr].
  - destruct (Nat.lt_ge_cases c n) as [Hc|Hc].
    + unfold zeros. now rewrite mget_tabulate.
    + unfold mget. apply nth_overflow.
      destruct (wf_tabulate m n (fun _ _ => fzero)) as [_ H].
      unfold zeros. simpl in H. rewrite H by exact Hr. exact Hc.
  - unfold mget. rewrite (nth_overflow (rows (zeros m n))).
    + now destruct c.
    + unfold zeros; simpl. now rewrite length_map, length_seq.
Qed.

Lemma mget_slice_rows k (A : matrix F) r c :
  r < k -> mget (slice_rows k A) r c = mget A r c.
Proof. intros H. unfold mget, slice_rows; simpl. now rewrite nth_firstn_lt. Qed.

Lemma mget_slice_cols k (A : matrix F) r c :
  c < k -> mget (slice_cols k A) r c = mget A r c.
Proof.
  intros H. unfold mget, slice_cols; simpl.
  destruct (Nat.lt_ge_cases r (length (rows A))) as [Hr|Hr].
  - rewrite (nth_indep _ [] (firstn k [])) by (now rewrite length_map).
    rewrite (map_nth (firstn k) (rows A) [] r). now apply nth_firstn_lt.
  - rewrite !(nth_overflow _ []); [reflexivity | exact Hr | now rewrite length_map].
Qed.

(** *** Column slices *)

Lemma col_assign_nrows (A : matrix F) i j w : nrows (col_assign A i j w) = nrows A.
Proof.
  unfold col_assign. apply fold_left_inv; [reflexivity|].
  intros a0 x _ H. now rewrite mset_nrows.
Qed.

Lemma col_assign_ncols (A : matrix F) i j w : ncols (col_assign A i j w) = ncols A.
Proof.
  unfold col_assign.
  apply (fold_left_inv (fun B => ncols B = ncols A)); [reflexivity|].
  intros a0 x _ H. now rewrite mset_ncols.
Qed.

Lemma wf_col_assign (A : matrix F) i j w : wf A -> wf (col_assign A i j w).
Proof.
  intros H. unfold col_assign. apply fold_left_inv; [exact H|].
  intros a0 x _ H0. now apply wf_mset.
Qed.

(** An assignment to [A[i:, j]] leaves the other columns and the rows
    above [i] as they were. *)
Lemma mget_col_assign_other (A : matrix F) i j w r c :
  c <> j \/ r < i -> mget (col_assign A i j w) r c = mget A r c.
Proof.
  intros H. unfold col_assign.
  apply (fold_left_inv (fun B => mget B r c = mget A r c)); [reflexivity|].
  intros a0 [r0 x0] Hin H0. simpl.
  rewrite mget_mset_other; [exact H0|].
  apply in_combine_l in Hin. apply in_seq in Hin.
  destruct H as [H|H]; [right; exact H | left; lia].
Qed.

End ArrayFacts.

(** ** The Householder loops *)

Section HouseholderFacts.
Context {F : Type} {SF : Scalar F}.

Lemma reflect_nrows v (M0 : matrix F) i j : nrows (reflect v M0 i j) = nrows M0.
Proof. apply col_assign_nrows. Qed.

Lemma reflect_ncols v (M0 : matrix F) i j : ncols (reflect v M0 i j) = ncols M0.
Proof. apply col_assign_ncols. Qed.

Lemma wf_reflect v (M0 : matrix F) i j : wf M0 -> wf (reflect v M0 i j).
Proof. apply wf_col_assign. Qed.

(** A reflection applied to [M0[i:, j]] touches nothing else. *)
Lemma mget_reflect_other v (M0 : matrix F) i j r c :
  c <> j \/ r < i -> mget (reflect v M0 i j) r c = mget M0 r c.
Proof. apply mget_col_assign_other. Qed.

(** What a step of the elimination keeps: the shape, and every entry
    outside the block of rows [i..] and columns [i..K-1]. *)
Lemma hh_step_nrows K (st : matrix F * list (vec F)) i :
  nrows (fst (hh_step K st i)) = nrows (fst st).
Proof.
  unfold hh_step. destruct (negb _); simpl; [|reflexivity].
  apply (fold_left_inv (fun B => nrows B = nrows (fst st))); [reflexivity|].
  intros a0 x _ H. now rewrite reflect_nrows.
Qed.

Lemma hh_step_ncols K (st : matrix F * list (vec F)) i :
  ncols (fst (hh_step K st i)) = ncols (fst st).
Proof.
  unfold hh_step. destruct (negb _); simpl; [|reflexivity].
  apply (fold_left_inv (fun B => ncols B = ncols (fst st))); [reflexivity|].
  intros a0 x _ H. now rewrite reflect_ncols.
Qed.

Lemma wf_hh_step K (st : matrix F * list (vec F)) i :
  wf (fst st) -> wf (fst (hh_step K st i)).
Proof.
  intros H. unfold hh_step. destruct (negb _); simpl; [|exact H].
  apply fold_left_inv; [exact H|].
  intros a0 x _ H0. now apply wf_reflect.
Qed.

Lemma mget_hh_step_other K (st : matrix F * list (vec F)) i r c :
  c < i \/ K <= c \/ r < i ->
  mget (fst (hh_step K st i)) r c = mget (fst st) r c.
Proof.
  intros H. unfold hh_step. destruct (negb _); simpl; [|reflexivity].
  apply (fold_left_inv (fun B => mget B r c = mget (fst st) r c)); [reflexivity|].
  intros a0 j Hj H0. apply in_seq in Hj.
  rewrite mget_reflect_other; [exact H0 | lia].
Qed.

Lemma hh_step_vs K (st : matrix F * list (vec F)) i :
  snd (hh_step K st i) = snd st ++ [reflection_vector (fst st) i].
Proof. unfold hh_step. now destruct (negb _). Qed.

Lemma eliminate_upto_all K (A0 : matrix F) : eliminate K A0 = eliminate_upto K K A0.
Proof. reflexivity. Qed.

Lemma eliminate_upto_S K n (A0 : matrix F) :
  eliminate_upto K (S n) A0 = hh_step K (eliminate_upto K n A0) n.
Proof.
  unfold eliminate_upto. rewrite seq_S, fold_left_app. reflexivity.
Qed.

Lemma eliminate_upto_nrows K n (A0 : matrix F) :
  nrows (fst (eliminate_upto K n A0)) = nrows A0.
Proof.
  induction n as [|n IH]; [reflexivity|].
  now rewrite eliminate_upto_S, hh_step_nrows.
Qed.

Lemma eliminate_upto_ncols K n (A0 : matrix F) :
  ncols (fst (eliminate_upto K n A0)) = ncols A0.
Proof.
  induction n as [|n IH]; [reflexivity|].
  now rewrite eliminate_upto_S, hh_step_ncols.
Qed.

Lemma wf_eliminate_upto K n (A0 : matrix F) :
  wf A0 -> wf (fst (eliminate_upto K n A0)).
Proof.
  intros H. induction n as [|n IH]; [exact H|].
  rewrite eliminate_upto_S. now apply wf_hh_step.
Qed.

Lemma eliminate_upto_length K n (A0 : matrix F) :
  length (snd (eliminate_upto K n A0)) = n.
Proof.
  induction n as [|n IH]; [reflexivity|].
  rewrite eliminate_upto_S, hh_step_vs, length_app, IH. simpl. lia.
Qed.

(** The columns from [K] on are never written by the elimination. *)
Lemma mget_eliminate_upto_right K n (A0 : matrix F) r c :
  K <= c -> mget (fst (eliminate_upto K n A0)) r c = mget A0 r c.
Proof.
  intros H. induction n as [|n IH]; [reflexivity|].
  rewrite eliminate_upto_S, mget_hh_step_other; [exact IH | lia].
Qed.

(** The steps after [i] leave row [i] as step [i] left it. *)
Lemma mget_eliminate_upto_row K n m (A0 : matrix F) r c :
  r < n -> n <= m ->
  mget (fst (eliminate_upto K m A0)) r c = mget (fst (eliminate_upto K n A0)) r c.
Proof.
  intros Hr Hnm. induction m as [|m IH]; [lia|].
  destruct (Nat.eq_dec n (S m)) as [->|Hne]; [reflexivity|].
  rewrite eliminate_upto_S, mget_hh_step_other; [apply IH; lia | lia].
Qed.

Lemma q_step_nrows K i (Q0 : matrix F) jv : nrows (q_step K i Q0 jv) = nrows Q0.
Proof. unfold q_step. destruct (negb _); [apply reflect_nrows | reflexivity]. Qed.

Lemma q_step_ncols K i (Q0 : matrix F) jv : ncols (q_step K i Q0 jv) = ncols Q0.
Proof. unfold q_step. destruct (negb _); [apply reflect_ncols | reflexivity]. Qed.

Lemma build_Q_nrows K vs M (Q0 : matrix F) : nrows (build_Q K vs M Q0) = nrows Q0.
Proof.
  unfold build_Q.
  apply (fold_left_inv (fun B => nrows B = nrows Q0)); [reflexivity|].
  intros a0 i _ H.
  apply (fold_left_inv (fun B => nrows B = nrows Q0)); [exact H|].
  intros a1 jv _ H1. now rewrite q_step_nrows.
Qed.

Lemma build_Q_ncols K vs M (Q0 : matrix F) : ncols (build_Q K vs M Q0) = ncols Q0.
Proof.
  unfold build_Q.
  apply (fold_left_inv (fun B => ncols B = ncols Q0)); [reflexivity|].
  intros a0 i _ H.
  apply (fold_left_inv (fun B => ncols B = ncols Q0)); [exact H|].
  intros a1 jv _ H1. now rewrite q_step_ncols.
Qed.

End HouseholderFacts.

(** ** The engine: what a call leaves behind *)

Section EngineFacts.
Context {F : Type} {SF : Scalar F}.

Lemma cell_app_old (h h' : list (matrix F)) l :
  l < length h -> cell (h ++ h') l = cell h l.
Proof. intros H. unfold cell. now rewrite app_nth1. Qed.

Lemma cell_app_new (h : list (matrix F)) m h' : cell (h ++ m :: h') (length h) = m.
Proof. unfold cell. rewrite app_nth2 by lia. now rewrite Nat.sub_diag. Qed.

Lemma cell_app_new2 (h : list (matrix F)) m1 m2 h' :
  cell (h ++ m1 :: m2 :: h') (S (length h)) = m2.
Proof.
  unfold cell. rewrite app_nth2 by lia.
  now replace (S (length h) - length h) with 1 by lia.
Qed.

(** [householder] in closed form: two buffers are appended to the heap,
    the working copy and [Q]; the attributes [A], [Q], [R] are rebound;
    nothing else changes. *)
Lemma householder_eq (self : QR F) :
  householder self =
  (mk_QR (heap self ++ [hh_R (cell (heap self) (backup self)); hh_Q (cell (heap self) (backup self))])
         (backup self) (reduce self)
         (Some (length (heap self)))
         (Some (if reduce self then ColsTo (hh_K (cell (heap self) (backup self))) (S (length (heap self)))
                else Whole (S (length (heap self)))))
         (Some (if reduce self then RowsTo (hh_K (cell (heap self) (backup self))) (length (heap self))
                else Whole (length (heap self))))
         (self_b self) (self_y self) (self_x self),
   (if reduce self then ColsTo (hh_K (cell (heap self) (backup self))) (S (length (heap self)))
    else Whole (S (length (heap self))),
    if reduce self then RowsTo (hh_K (cell (heap self) (backup self))) (length (heap self))
    else Whole (length (heap self)))).
Proof.
  destruct self as [h bk rd a q r b y x].
  cbv beta iota zeta delta
    [householder alloc modify set_heap set_A set_Q set_R
     heap backup reduce self_A self_Q self_R self_b self_y self_x].
  rewrite !cell_app_new, !upd_app_end, <- app_assoc.
  rewrite !length_app. cbn [length]. rewrite !Nat.add_1_r.
  reflexivity.
Qed.

End EngineFacts.

(** ** The buffers of an engine only grow *)

(** Unfolds a method down to the heap and the attributes. *)
Ltac engine_cbv :=
  cbv beta iota zeta delta
    [householder gram_schmidt gram_schmidt_modified alloc modify
     set_heap set_A set_Q set_R set_b set_y set_x
     heap backup reduce self_A self_Q self_R self_b self_y self_x].

Section Frame.
Context {F : Type} {SF : Scalar F}.

Lemma extends_refl (h : list (matrix F)) : extends h h.
Proof. exists []. now rewrite app_nil_r. Qed.

Lemma extends_app (h h1 l : list (matrix F)) : extends h h1 -> extends h (h1 ++ l).
Proof. intros [ext ->]. exists (ext ++ l). now rewrite app_assoc. Qed.

Lemma extends_upd (h h1 : list (matrix F)) l v :
  extends h h1 -> length h <= l -> extends h (upd l v h1).
Proof.
  intros [ext ->] Hl. exists (upd (l - length h) v ext).
  rewrite <- upd_app_r. f_equal. lia.
Qed.

Lemma extends_length (h h1 : list (matrix F)) : extends h h1 -> length h <= length h1.
Proof. intros [ext ->]. rewrite length_app. lia. Qed.

Lemma extends_cell (h h1 : list (matrix F)) l :
  extends h h1 -> l < length h -> cell h1 l = cell h l.
Proof. intros [ext ->] Hl. now apply cell_app_old. Qed.

Lemma householder_extends (self : QR F) :
  extends (heap self) (heap (fst (householder self))) /\
  backup (fst (householder self)) = backup self /\
  reduce (fst (householder self)) = reduce self.
Proof.
  rewrite householder_eq. cbn [fst heap backup reduce].
  repeat split. apply extends_app, extends_refl.
Qed.

Ltac extends_steps :=
  repeat first [ apply extends_refl
               | apply extends_app
               | apply extends_upd; [|rewrite ?length_app; lia] ].

Lemma gram_schmidt_extends (self : QR F) :
  extends (heap self) (heap (fst (gram_schmidt self))) /\
  backup (fst (gram_schmidt self)) = backup self /\
  reduce (fst (gram_schmidt self)) = reduce self.
Proof.
  destruct self as [h bk rd a q r b y x]. engine_cbv.
  destruct (ncols _ =? 0); cbn [fst heap backup reduce]; repeat split; extends_steps.
Qed.

Lemma gram_schmidt_modified_extends (self : QR F) :
  extends (heap self) (heap (fst (gram_schmidt_modified self))) /\
  backup (fst (gram_schmidt_modified self)) = backup self /\
  reduce (fst (gram_schmidt_modified self)) = reduce self.
Proof.
  destruct self as [h bk rd a q r b y x]. engine_cbv.
  cbn [fst heap backup reduce]; repeat split; extends_steps.
Qed.

(** [_backward] rebinds [y] and [x] and nothing else. *)
Lemma backward_frame (self : QR F) :
  heap (fst (_backward self)) = heap self /\
  backup (fst (_backward self)) = backup self /\
  reduce (fst (_backward self)) = reduce self /\
  self_A (fst (_backward self)) = self_A self /\
  self_Q (fst (_backward self)) = self_Q self /\
  self_R (fst (_backward self)) = self_R self /\
  self_b (fst (_backward self)) = self_b self.
Proof.
  destruct self as [h bk rd a q r b y x].
  unfold _backward. cbn [self_R self_Q self_b].
  destruct r, q, b; try (cbn [fst]; repeat split; reflexivity).
  destruct (np_dot _ _); cbn [fst]; repeat split; reflexivity.
Qed.

Lemma solve_state (self : QR F) b :
  fst (solve self b) = fst (_backward (fst (householder (set_b self (Some b))))).
Proof.
  unfold solve.
  destruct (_backward _) as [s [u|e]]; simpl; [|reflexivity].
  now destruct (self_x s).
Qed.

Lemma solve_extends (self : QR F) b :
  extends (heap self) (heap (fst (solve self b))) /\
  backup (fst (solve self b)) = backup self /\
  reduce (fst (solve self b)) = reduce self.
Proof.
  rewrite solve_state.
  destruct (backward_frame (fst (householder (set_b self (Some b)))))
    as (Hh & Hb & Hr & _).
  rewrite Hh, Hb, Hr.
  apply (householder_extends (set_b self (Some b))).
Qed.

Lemma run_call_extends (self : QR F) c :
  extends (heap self) (heap (run_call self c)) /\
  backup (run_call self c) = backup self /\
  reduce (run_call self c) = reduce self.
Proof.
  destruct c; simpl.
  - apply gram_schmidt_extends.
  - apply gram_schmidt_modified_extends.
  - apply householder_extends.
  - apply householder_extends.
  - apply solve_extends.
Qed.

Lemma householder_values_eq (self : QR F) :
  let A0 := cell (heap self) (backup self) in
  householder_values self =
  (if reduce self then slice_cols (hh_K A0) (hh_Q A0) else hh_Q A0,
   if reduce self then slice_rows (hh_K A0) (hh_R A0) else hh_R A0).
Proof.
  intros A0. unfold householder_values. rewrite householder_eq. fold A0.
  unfold values. simpl.
  destruct (reduce self); simpl; now rewrite cell_app_new, cell_app_new2.
Qed.

(** An attribute keeps denoting the same array while the heap grows. *)
Lemma deref_extends (h h1 : list (matrix F)) (r : aref) :
  extends h h1 -> aref_loc r < length h -> deref h1 r = deref h r.
Proof.
  intros He Hl. destruct r as [l|k l|k l]; cbn [deref aref_loc] in *;
    now rewrite (extends_cell He Hl).
Qed.

(** The pair a call of [householder] has returned is not touched by the
    next call. *)
Lemma householder_pair_kept (self : QR F) :
  values (fst (householder (fst (householder self)))) (snd (householder self)) =
  householder_values self.
Proof.
  unfold householder_values, values.
  destruct (householder_extends (fst (householder self))) as (He & _ & _).
  assert (Hq : aref_loc (fst (snd (householder self))) < length (heap (fst (householder self)))).
  { rewrite householder_eq. cbn [fst snd heap]. rewrite length_app. cbn [length].
    destruct (reduce self); cbn [aref_loc]; lia. }
  assert (Hr : aref_loc (snd (snd (householder self))) < length (heap (fst (householder self)))).
  { rewrite householder_eq. cbn [fst snd heap]. rewrite length_app. cbn [length].
    destruct (reduce self); cbn [aref_loc]; lia. }
  now rewrite (deref_extends _ He Hq), (deref_extends _ He Hr).
Qed.

(** The columns from [K] on of the returned [R] are those of the backup. *)
Lemma householder_right_columns (self : QR F) r c :
  hh_K (cell (heap self) (backup self)) <= c ->
  r < hh_K (cell (heap self) (backup self)) \/ reduce self = false ->
  mget (snd (householder_values self)) r c = mget (cell (heap self) (backup self)) r c.
Proof.
  intros Hc Hr. rewrite householder_values_eq. cbn [snd].
  assert (E : mget (hh_R (cell (heap self) (backup self))) r c =
              mget (cell (heap self) (backup self)) r c).
  { unfold hh_R. rewrite eliminate_upto_all. now apply mget_eliminate_upto_right. }
  destruct (reduce self); [|exact E].
  destruct Hr as [Hr|Hr]; [|discriminate].
  now rewrite mget_slice_rows.
Qed.

(** The engine that a sequence of calls leaves still has its backup. *)
Lemma run_calls_backup (calls : list call) (self : QR F) :
  backup self < length (heap self) ->
  let self' := fold_left run_call calls self in
  backup self' < length (heap self') /\
  backup self' = backup self /\ reduce self' = reduce self /\
  cell (heap self') (backup self') = cell (heap self) (backup self).
Proof.
  revert self. induction calls as [|c t IH]; intros self Hv; simpl; [auto|].
  destruct (run_call_extends self c) as (He & Hb & Hr).
  assert (Hv' : backup (run_call self c) < length (heap (run_call self c))).
  { rewrite Hb. apply extends_length in He. lia. }
  destruct (IH _ Hv') as (H1 & H2 & H3 & H4).
  repeat split; [exact H1 | congruence | congruence |].
  rewrite H4, Hb. now apply extends_cell.
Qed.

End Frame.

(** ** Back substitution *)

Section BackSubFacts.
Context {F : Type} {SF : Scalar F}.

Lemma rev_seq_S (m : nat) : rev (seq 0 (S m)) = m :: rev (seq 0 m).
Proof. rewrite seq_S, rev_app_distr. reflexivity. Qed.

(** The accumulator of row [i] only reads column [k] of [x], at the rows
    [i+1 .. K-1]. *)
Lemma bs_acc_ext K (Rm x x' : matrix F) i k k' :
  (forall j, i < j -> j < K -> mget x j k = mget x' j k') ->
  bs_acc K Rm x i k = bs_acc K Rm x' i k'.
Proof.
  intros H. unfold bs_acc. apply fold_left_ext_in.
  intros a0 j Hj. apply in_rev, in_seq in Hj.
  rewrite H by lia. reflexivity.
Qed.

Lemma bs_row_nrows K (Rm y : matrix F) k x i : nrows (bs_row K Rm y k x i) = nrows x.
Proof. reflexivity. Qed.

Lemma bs_row_ncols K (Rm y : matrix F) k x i : ncols (bs_row K Rm y k x i) = ncols x.
Proof. reflexivity. Qed.

Lemma wf_bs_row K (Rm y : matrix F) k x i : wf x -> wf (bs_row K Rm y k x i).
Proof. apply wf_mset. Qed.

Lemma bs_rows_S K (Rm y : matrix F) k m x :
  bs_rows K Rm y k (S m) x = bs_rows K Rm y k m (bs_row K Rm y k x m).
Proof. unfold bs_rows. now rewrite rev_seq_S. Qed.

Lemma bs_rows_shape K (Rm y : matrix F) k m x :
  nrows (bs_rows K Rm y k m x) = nrows x /\
  ncols (bs_rows K Rm y k m x) = ncols x /\
  (wf x -> wf (bs_rows K Rm y k m x)).
Proof.
  revert x. induction m as [|m IH]; intros x;
    [split; [reflexivity | split; [reflexivity | intros Hx; exact Hx]]|].
  rewrite bs_rows_S. destruct (IH (bs_row K Rm y k x m)) as (H1 & H2 & H3).
  split; [exact H1 | split; [exact H2 |]].
  intros Hx. apply H3. now apply wf_bs_row.
Qed.

(** The loop over the rows writes column [k] below row [m] only. *)
Lemma mget_bs_rows_other K (Rm y : matrix F) k m x r c :
  c <> k \/ m <= r -> mget (bs_rows K Rm y k m x) r c = mget x r c.
Proof.
  revert x. induction m as [|m IH]; intros x H; [reflexivity|].
  rewrite bs_rows_S, IH by lia.
  unfold bs_row. apply mget_mset_other. lia.
Qed.

(** Every row the loop has passed holds the quotient of line 161, read
    against the final contents of column [k]. *)
Lemma mget_bs_rows K (Rm y : matrix F) k m x i :
  wf x -> m <= nrows x -> k < ncols x -> i < m ->
  let X := bs_rows K Rm y k m x in
  mget X i k =
  fdiv (fsub (mget y i k) (kahan_result (bs_acc K Rm X i k))) (mget Rm i i).
Proof.
  revert x. induction m as [|m IH]; intros x Hwf Hm Hk Hi; [lia|].
  cbv zeta. rewrite bs_rows_S.
  set (x1 := bs_row K Rm y k x m).
  destruct (Nat.eq_dec i m) as [->|Hne].
  - rewrite mget_bs_rows_other by lia.
    unfold x1 at 1, bs_row. rewrite mget_mset_same by (auto; lia).
    f_equal. f_equal. f_equal. apply bs_acc_ext.
    intros j Hj _. rewrite mget_bs_rows_other by lia.
    unfold x1, bs_row. symmetry. apply mget_mset_other. lia.
  - apply (IH x1); [now apply wf_bs_row | | exact Hk | lia].
    unfold x1. rewrite bs_row_nrows. lia.
Qed.

Lemma bs_col_rows K (Rm y x : matrix F) k : bs_col K Rm y x k = bs_rows K Rm y k K x.
Proof. reflexivity. Qed.

(** The state of [x] after the columns [0 .. n-1]. *)
Lemma back_sub_S K (Rm y : matrix F) n x :
  back_sub K Rm y (S n) x = bs_col K Rm y (back_sub K Rm y n x) n.
Proof. unfold back_sub. now rewrite seq_S, fold_left_app. Qed.

Lemma back_sub_shape K (Rm y : matrix F) n x :
  nrows (back_sub K Rm y n x) = nrows x /\
  ncols (back_sub K Rm y n x) = ncols x /\
  (wf x -> wf (back_sub K Rm y n x)).
Proof.
  induction n as [|n (H1 & H2 & H3)];
    [split; [reflexivity | split; [reflexivity | intros Hx; exact Hx]]|].
  rewrite back_sub_S, bs_col_rows.
  destruct (bs_rows_shape K Rm y n K (back_sub K Rm y n x)) as (G1 & G2 & G3).
  split; [congruence | split; [congruence | auto]].
Qed.

(** Back substitution writes the rows below [K] and the columns below
    [num_iters] only. *)
Lemma mget_back_sub_other K (Rm y : matrix F) n x r c :
  K <= r \/ n <= c -> mget (back_sub K Rm y n x) r c = mget x r c.
Proof.
  intros H. induction n as [|n IH]; [reflexivity|].
  rewrite back_sub_S, bs_col_rows, mget_bs_rows_other by lia.
  apply IH. lia.
Qed.

(** The equation that back substitution establishes in every column. *)
Lemma mget_back_sub K (Rm y : matrix F) n x i k :
  wf x -> K <= nrows x -> n <= ncols x -> i < K -> k < n ->
  let X := back_sub K Rm y n x in
  mget X i k =
  fdiv (fsub (mget y i k) (kahan_result (bs_acc K Rm X i k))) (mget Rm i i).
Proof.
  intros Hwf HK. induction n as [|n IH]; intros Hn Hi Hk; [lia|].
  cbv zeta. rewrite back_sub_S, bs_col_rows.
  destruct (back_sub_shape K Rm y n x) as (S1 & S2 & S3).
  destruct (Nat.eq_dec k n) as [->|Hne].
  - apply mget_bs_rows; [auto | lia | lia | exact Hi].
  - rewrite mget_bs_rows_other by lia.
    cbv zeta in IH. rewrite IH by lia.
    f_equal. f_equal. f_equal. apply bs_acc_ext.
    intros j _ _. symmetry. apply mget_bs_rows_other. lia.
Qed.

(** Two columns that satisfy the equation for the same right-hand side
    are equal: the equation determines the column, last row first. *)
Lemma back_sub_unique K (Rm y y' X X' : matrix F) k k' :
  (forall i, i < K -> mget y i k = mget y' i k') ->
  (forall i, i < K -> mget X i k =
     fdiv (fsub (mget y i k) (kahan_result (bs_acc K Rm X i k))) (mget Rm i i)) ->
  (forall i, i < K -> mget X' i k' =
     fdiv (fsub (mget y' i k') (kahan_result (bs_acc K Rm X' i k'))) (mget Rm i i)) ->
  forall i, i < K -> mget X i k = mget X' i k'.
Proof.
  intros Hy HX HX'.
  assert (G : forall d i, K - i <= d -> i < K -> mget X i k = mget X' i k').
  { induction d as [|d IH]; intros i Hd Hi; [lia|].
    rewrite HX, HX', Hy by exact Hi.
    f_equal. f_equal. f_equal. apply bs_acc_ext.
    intros j Hj HjK. apply IH; lia. }
  intros i Hi. apply (G (K - i)); [lia | exact Hi].
Qed.

End BackSubFacts.

(** ** [solve] in terms of the factors *)

Section SolveFacts.
Context {F : Type} {SF : Scalar F}.

Lemma backward_eq (self : QR F) q r b :
  self_Q self = Some q -> self_R self = Some r -> self_b self = Some b ->
  snd (_backward self) = match backward_value (deref (heap self) q) (deref (heap self) r) b with
                         | Ok _ => Ok tt
                         | Raise e => Raise e
                         end /\
  (forall x, backward_value (deref (heap self) q) (deref (heap self) r) b = Ok x ->
             self_x (fst (_backward self)) = Some x).
Proof.
  intros Hq Hr Hb. unfold _backward, backward_value. rewrite Hq, Hr, Hb.
  destruct (np_dot _ b) as [y0|e]; simpl; split; try reflexivity; try discriminate.
  intros x Hx. now inversion Hx.
Qed.

Lemma backward_raise (self : QR F) q r b e :
  self_Q self = Some q -> self_R self = Some r -> self_b self = Some b ->
  np_dot (transpose (deref (heap self) q)) b = Raise e ->
  _backward self = (self, Raise e).
Proof.
  intros Hq Hr Hb Hd. unfold _backward. now rewrite Hq, Hr, Hb, Hd.
Qed.

(** The attributes [solve] finds after its call of [householder]. *)
Lemma householder_attrs (self : QR F) b :
  exists q r,
    self_Q (fst (householder (set_b self (Some b)))) = Some q /\
    self_R (fst (householder (set_b self (Some b)))) = Some r /\
    self_b (fst (householder (set_b self (Some b)))) = Some b /\
    deref (heap (fst (householder (set_b self (Some b))))) q =
      fst (householder_values self) /\
    deref (heap (fst (householder (set_b self (Some b))))) r =
      snd (householder_values self).
Proof.
  unfold householder_values. rewrite !householder_eq.
  destruct self as [h bk rd a q0 r0 b0 y x].
  cbn [set_b fst snd heap backup reduce self_A self_Q self_R self_b self_y self_x values].
  eexists; eexists. repeat split; reflexivity.
Qed.

(** [solve] returns what back substitution computes from the factors
    that [householder] has just left in the engine. *)
Lemma solve_eq (self : QR F) b :
  snd (solve self b) =
  backward_value (fst (householder_values self)) (snd (householder_values self)) b.
Proof.
  unfold solve.
  destruct (householder_attrs self b) as (q & r & Hq & Hr & Hb & Hqv & Hrv).
  set (self1 := fst (householder (set_b self (Some b)))) in *.
  rewrite <- Hqv, <- Hrv.
  destruct (backward_eq self1 Hq Hr Hb) as [H1 H2].
  destruct (_backward self1) as [s2 out]. cbn [fst snd] in H1, H2.
  destruct (backward_value _ _ b) as [x|e]; subst out.
  - now rewrite (H2 x eq_refl).
  - reflexivity.
Qed.

Lemma hh_R_nrows (A0 : matrix F) : nrows (hh_R A0) = nrows A0.
Proof. unfold hh_R. rewrite eliminate_upto_all. apply eliminate_upto_nrows. Qed.

Lemma hh_R_ncols (A0 : matrix F) : ncols (hh_R A0) = ncols A0.
Proof. unfold hh_R. rewrite eliminate_upto_all. apply eliminate_upto_ncols. Qed.

Lemma hh_Q_nrows (A0 : matrix F) : nrows (hh_Q A0) = nrows A0.
Proof. unfold hh_Q. now rewrite build_Q_nrows. Qed.

Lemma hh_Q_ncols (A0 : matrix F) : ncols (hh_Q A0) = nrows A0.
Proof. unfold hh_Q. now rewrite build_Q_ncols. Qed.

(** The shapes of the pair [householder] returns. *)
Lemma householder_values_shape (self : QR F) :
  let A0 := cell (heap self) (backup self) in
  let Qv := fst (householder_values self) in
  let Rv := snd (householder_values self) in
  nrows Qv = nrows A0 /\
  ncols Qv = (if reduce self then hh_K A0 else nrows A0) /\
  nrows Rv = (if reduce self then hh_K A0 else nrows A0) /\
  ncols Rv = ncols A0.
Proof.
  intros A0 Qv Rv. unfold Qv, Rv. rewrite householder_values_eq. fold A0.
  destruct (reduce self); simpl;
    rewrite ?hh_Q_nrows, ?hh_Q_ncols, ?hh_R_nrows, ?hh_R_ncols; unfold hh_K;
    repeat split; lia.
Qed.

(** [np.dot(Q.T, b)] raises exactly when [b] is not aligned with [A]. *)
Lemma np_dot_aligned (Qv : matrix F) b :
  (exists y0, np_dot (transpose Qv) b = Ok y0) <-> aligned (nrows Qv) b = true.
Proof.
  destruct b as [s|v|m]; simpl.
  - split; eauto.
  - rewrite Nat.eqb_sym. destruct (length v =? nrows Qv); split; intros H;
      try discriminate; try (destruct H; discriminate); eauto.
  - rewrite Nat.eqb_sym. destruct (nrows m =? nrows Qv); split; intros H;
      try discriminate; try (destruct H; discriminate); eauto.
Qed.

Lemma np_dot_not_aligned (Qv : matrix F) b :
  aligned (nrows Qv) b = false -> np_dot (transpose Qv) b = Raise ValueError.
Proof.
  destruct b as [s|v|m]; simpl; [discriminate| |];
    rewrite Nat.eqb_sym; intros ->; reflexivity.
Qed.

Lemma nth_col_from (A : matrix F) j r :
  r < nrows A -> nth r (col_from A 0 j) fzero = mget A r j.
Proof.
  intros H. unfold col_from. rewrite Nat.sub_0_r.
  rewrite (nth_indep _ fzero (mget A 0 j)) by (now rewrite length_map, length_seq).
  rewrite (map_nth (fun r0 => mget A r0 j) (seq 0 (nrows A)) 0 r).
  now rewrite seq_nth.
Qed.

(** Reading a squeezed column. *)
Lemma nd_get_squeeze (x : matrix F) r :
  ncols x = 1 -> r < nrows x -> nd_get (squeeze x) r 0 = mget x r 0.
Proof.
  intros Hc Hr. unfold squeeze. rewrite Hc. simpl.
  destruct (nrows x =? 1) eqn:E; simpl.
  - apply Nat.eqb_eq in E. now replace r with 0 by lia.
  - now apply nth_col_from.
Qed.

(** The entries of a rectangular array, and of a squeezed column. *)
Lemma nd_entry_Arr2 (m : matrix F) r k :
  wf m -> r < nrows m -> k < ncols m -> nd_entry (Arr2 m) r k = Some (mget m r k).
Proof.
  intros [W1 W2] Hr Hk. cbn [nd_entry].
  destruct (Nat.ltb_spec r (nrows m)); [|lia].
  destruct (Nat.ltb_spec k (ncols m)); [|lia]. cbn [andb].
  rewrite (nth_error_nth' (rows m) []) by lia.
  unfold mget. apply nth_error_nth'. rewrite W2; lia.
Qed.

Lemma nd_entry_squeeze (x : matrix F) r :
  ncols x = 1 -> r < nrows x -> nd_entry (squeeze x) r 0 = Some (mget x r 0).
Proof.
  intros Hc Hr. unfold squeeze. rewrite Hc. cbn [Nat.eqb]. rewrite Bool.andb_true_r.
  destruct (nrows x =? 1) eqn:E.
  - apply Nat.eqb_eq in E. now replace r with 0 by lia.
  - cbn [nd_entry Nat.eqb].
    rewrite (nth_error_nth' (col_from x 0 0) fzero)
      by (unfold col_from; rewrite length_map, length_seq; lia).
    now rewrite nth_col_from.
Qed.

End SolveFacts.

(** ** Right-hand sides, column by column *)

Section ColumnFacts.
Context {F : Type} {SF : Scalar F}.

Lemma mget_reshape_col (v : vec F) i :
  i < length v -> mget (reshape_col v) i 0 = nth i v fzero.
Proof. intros H. unfold reshape_col. now rewrite mget_tabulate by lia. Qed.

Lemma nth_map_seq (g : nat -> F) m i :
  i < m -> nth i (map g (seq 0 m)) fzero = g i.
Proof.
  intros H. rewrite (nth_indep _ fzero (g 0)) by (now rewrite length_map, length_seq).
  rewrite (map_nth g (seq 0 m) 0 i). now rewrite seq_nth.
Qed.

Lemma col_from_length (A : matrix F) i j : length (col_from A i j) = nrows A - i.
Proof. unfold col_from. now rewrite length_map, length_seq. Qed.

Lemma col_from_ext (A B : matrix F) j j' :
  nrows A = nrows B ->
  (forall r, r < nrows A -> mget A r j = mget B r j') ->
  col_from A 0 j = col_from B 0 j'.
Proof.
  intros Hn H. unfold col_from. rewrite <- Hn. apply map_ext_in.
  intros r Hr. apply in_seq in Hr. apply H. lia.
Qed.

(** The entries of a squeezed column are those of the column. *)
Lemma ravel_squeeze (x : matrix F) :
  ncols x = 1 -> ravel (squeeze x) = col_from x 0 0.
Proof.
  intros Hc. unfold squeeze. rewrite Hc. simpl.
  destruct (nrows x =? 1) eqn:E; simpl; [|reflexivity].
  apply Nat.eqb_eq in E. unfold col_from. now rewrite E.
Qed.

(** Back substitution reads [R] in its leading [K] by [K] block and [y]
    in its first [K] rows. *)
Lemma back_sub_ext K (Rm Rm' y y' : matrix F) n x :
  (forall i j, i < K -> j < K -> mget Rm i j = mget Rm' i j) ->
  (forall i k, i < K -> k < n -> mget y i k = mget y' i k) ->
  back_sub K Rm y n x = back_sub K Rm' y' n x.
Proof.
  intros HR Hy. unfold back_sub. apply fold_left_ext_in. intros x0 k Hk.
  apply in_seq in Hk.
  unfold bs_col. apply fold_left_ext_in. intros x1 i Hi.
  apply in_rev, in_seq in Hi. unfold bs_row.
  rewrite Hy, HR by lia. f_equal. f_equal. f_equal. f_equal.
  unfold bs_acc. apply fold_left_ext_in. intros a0 j Hj.
  apply in_rev, in_seq in Hj. rewrite HR by lia. reflexivity.
Qed.

Lemma mget_transpose (A : matrix F) i j :
  i < ncols A -> j < nrows A -> mget (transpose A) i j = mget A j i.
Proof. intros Hi Hj. unfold transpose. now rewrite mget_tabulate. Qed.

Lemma mget_transpose_slice_cols K (Qm : matrix F) i r :
  i < K -> K <= ncols Qm -> r < nrows Qm ->
  mget (transpose (slice_cols K Qm)) i r = mget (transpose Qm) i r.
Proof.
  intros Hi HK Hr.
  rewrite !mget_transpose by (simpl; lia).
  now apply mget_slice_cols.
Qed.

(** Back substitution gives the same [x] from the reduced factors as
    from the full ones. *)
Lemma backward_value_reduce (Qm Rm : matrix F) (b : ndarray F) :
  ncols Qm = nrows Qm -> nrows Rm = nrows Qm ->
  backward_value (slice_cols (Nat.min (nrows Rm) (ncols Rm)) Qm)
                 (slice_rows (Nat.min (nrows Rm) (ncols Rm)) Rm) b =
  backward_value Qm Rm b.
Proof.
  intros HQ HR. set (K := Nat.min (nrows Rm) (ncols Rm)).
  assert (HK' : Nat.min (nrows (slice_rows K Rm)) (ncols (slice_rows K Rm)) = K)
    by (simpl; unfold K; lia).
  assert (HRm : forall i j, i < K -> j < K -> mget (slice_rows K Rm) i j = mget Rm i j)
    by (intros; now apply mget_slice_rows).
  assert (HT : forall i r, i < K -> r < nrows Qm ->
            mget (transpose (slice_cols K Qm)) i r = mget (transpose Qm) i r)
    by (intros; apply mget_transpose_slice_cols; unfold K in *; lia).
  unfold backward_value. rewrite HK'. fold K.
  destruct b as [s|v|m]; simpl.
  - f_equal. f_equal. apply back_sub_ext; [exact HRm|].
    intros i k Hi Hk. assert (E : k = 0) by lia. subst k.
    assert (0 < nrows Qm) by (unfold K in Hi; lia).
    rewrite !mget_tabulate by (simpl; unfold K in *; lia).
    now rewrite HT.
  - destruct (nrows Qm =? length v); [|reflexivity].
    simpl. f_equal. f_equal. apply back_sub_ext; [exact HRm|].
    intros i k Hi Hk. assert (E : k = 0) by lia. subst k.
    rewrite !mget_reshape_col
      by (rewrite length_map, length_seq; simpl; unfold K in *; lia).
    rewrite !nth_map_seq by (simpl; unfold K in *; lia).
    apply fold_left_ext_in. intros a0 r Hr. apply in_seq in Hr.
    now rewrite HT by lia.
  - destruct (nrows Qm =? nrows m); [|reflexivity].
    simpl. f_equal. f_equal. apply back_sub_ext; [exact HRm|].
    intros i k Hi Hk. unfold matmul.
    rewrite !mget_tabulate
      by (cbn [nrows ncols transpose tabulate slice_cols]; unfold K in *; lia).
    apply fold_left_ext_in. intros a0 r Hr. apply in_seq in Hr.
    cbn [nrows ncols transpose tabulate slice_cols] in Hr.
    now rewrite HT by lia.
Qed.

(** [backward_value] on an aligned 2-D and on an aligned 1-D right-hand
    side. *)
Lemma backward_value_Arr2 (Qv Rv bm : matrix F) :
  nrows bm = nrows Qv ->
  backward_value Qv Rv (Arr2 bm) =
  Ok (Arr2 (back_sub (Nat.min (nrows Rv) (ncols Rv)) Rv (matmul (transpose Qv) bm)
                     (ncols bm) (zeros (ncols Rv) (ncols bm)))).
Proof.
  intros H. unfold backward_value, np_dot.
  cbn [ncols nrows transpose tabulate]. rewrite H, Nat.eqb_refl. reflexivity.
Qed.

Lemma backward_value_Arr1 (Qv Rv : matrix F) (v : vec F) :
  length v = nrows Qv ->
  backward_value Qv Rv (Arr1 v) =
  Ok (squeeze
        (back_sub (Nat.min (nrows Rv) (ncols Rv)) Rv
           (reshape_col
              (map (fun i =>
                      fold_left (fun acc r =>
                                   fadd acc (fmul (mget (transpose Qv) i r) (nth r v fzero)))
                                (seq 0 (nrows Qv)) fzero)
                   (seq 0 (ncols Qv))))
           1 (zeros (ncols Rv) 1))).
Proof.
  intros H. unfold backward_value, np_dot.
  cbn [ncols nrows transpose tabulate]. rewrite H, Nat.eqb_refl. reflexivity.
Qed.

End ColumnFacts.

(** ** Division in the Householder loops *)

Section DivisionFacts.
Context {F : Type} {SF : Scalar F}.
Variable d : F -> F -> F.
Hypothesis d_agrees : forall x y, isclose0 y = false -> d x y = fdiv x y.

Lemma reflect_with_div v (M0 : matrix F) i j :
  isclose0 (vdot v v) = false ->
  @reflect F (with_div SF d) v M0 i j = reflect v M0 i j.
Proof.
  intros Hc. unfold reflect at 2.
  rewrite <- (d_agrees (vdot (vscale ftwo v) (col_from M0 i j)) (vdot v v) Hc).
  reflexivity.
Qed.

Lemma hh_step_with_div K (st : matrix F * list (vec F)) i :
  @hh_step F (with_div SF d) K st i = hh_step K st i.
Proof.
  unfold hh_step.
  change (@reflection_vector F (with_div SF d)) with (@reflection_vector F SF).
  change (@isclose0 F (with_div SF d)) with (@isclose0 F SF).
  change (@vdot F (with_div SF d)) with (@vdot F SF).
  destruct (isclose0 _) eqn:Hc; simpl; [reflexivity|].
  f_equal. apply fold_left_ext_in. intros a0 j _. now apply reflect_with_div.
Qed.

Lemma eliminate_with_div K (A0 : matrix F) :
  @eliminate F (with_div SF d) K A0 = eliminate K A0.
Proof.
  unfold eliminate. apply fold_left_ext_in. intros st i _. apply hh_step_with_div.
Qed.

Lemma q_step_with_div K i (Q0 : matrix F) jv :
  @q_step F (with_div SF d) K i Q0 jv = q_step K i Q0 jv.
Proof.
  unfold q_step.
  change (@isclose0 F (with_div SF d)) with (@isclose0 F SF).
  change (@vdot F (with_div SF d)) with (@vdot F SF).
  destruct (isclose0 _) eqn:Hc; simpl; [reflexivity|].
  now apply reflect_with_div.
Qed.

Lemma build_Q_with_div K vs M (Q0 : matrix F) :
  @build_Q F (with_div SF d) K vs M Q0 = build_Q K vs M Q0.
Proof.
  unfold build_Q. apply fold_left_ext_in. intros Qi i _.
  apply fold_left_ext_in. intros Qj jv _. apply q_step_with_div.
Qed.

Lemma householder_with_div (self : QR F) :
  @householder F (with_div SF d) self = householder self.
Proof.
  rewrite (@householder_eq F (with_div SF d) self), (@householder_eq F SF self).
  unfold hh_R, hh_Q, hh_vs. rewrite !eliminate_with_div, build_Q_with_div.
  reflexivity.
Qed.

End DivisionFacts.

(** ** The diagonal that the elimination leaves *)

Section DiagonalFacts.
Context {F : Type} {SF : Scalar F}.

Lemma col_from_cons (A : matrix F) i j :
  i < nrows A ->
  col_from A i j = mget A i j :: map (fun r => mget A r j) (seq (S i) (nrows A - S i)).
Proof.
  intros H. unfold col_from.
  replace (nrows A - i) with (S (nrows A - S i)) by lia. reflexivity.
Qed.

(** The first entry of an assigned column slice. *)
Lemma mget_col_assign_head (A : matrix F) i j w0 wt :
  wf A -> i < nrows A -> j < ncols A ->
  mget (col_assign A i j (w0 :: wt)) i j = w0.
Proof.
  intros Hwf Hi Hj. unfold col_assign.
  replace (nrows A - i) with (S (nrows A - S i)) by lia.
  cbn [seq combine fold_left fst snd].
  apply (fold_left_inv (fun B => mget B i j = w0)).
  - now apply mget_mset_same.
  - intros B [r x] Hin HB. cbn [fst snd].
    apply in_combine_l, in_seq in Hin.
    rewrite mget_mset_other by lia. exact HB.
Qed.

(** A reflection on [M0[i:, i]] leaves [a[0] - coef * v[0]] on the diagonal. *)
Lemma mget_reflect_diag (M0 : matrix F) i a0 t v0 vt :
  wf M0 -> i < nrows M0 -> i < ncols M0 ->
  col_from M0 i i = a0 :: t ->
  mget (reflect (v0 :: vt) M0 i i) i i =
  fsub a0 (fmul (fdiv (vdot (vscale ftwo (v0 :: vt)) (a0 :: t))
                      (vdot (v0 :: vt) (v0 :: vt))) v0).
Proof.
  intros Hwf Hi Hj Ha. unfold reflect, col_sub. rewrite Ha.
  cbn [vscale map vsub combine fst snd].
  now apply mget_col_assign_head.
Qed.

(** After a step that is not skipped, the diagonal entry of row [i] is
    the one the reflection of column [i] produced. *)
Lemma mget_hh_step_diag K (st : matrix F * list (vec F)) i :
  i < K ->
  isclose0 (vdot (reflection_vector (fst st) i) (reflection_vector (fst st) i)) = false ->
  mget (fst (hh_step K st i)) i i =
  mget (reflect (reflection_vector (fst st) i) (fst st) i i) i i.
Proof.
  intros Hi Hc. unfold hh_step. rewrite Hc. cbn [negb fst].
  replace (K - i) with (S (K - S i)) by lia. cbn [seq fold_left].
  apply (fold_left_inv
           (fun B => mget B i i =
                     mget (reflect (reflection_vector (fst st) i) (fst st) i i) i i));
    [reflexivity|].
  intros B j Hj HB. apply in_seq in Hj.
  rewrite mget_reflect_other by lia. exact HB.
Qed.

(** The diagonal entry [R[i,i]] is fixed by step [i]. *)
Lemma mget_hh_R_diag (A0 : matrix F) i :
  i < hh_K A0 ->
  mget (hh_R A0) i i = mget (fst (eliminate_upto (hh_K A0) (S i) A0)) i i.
Proof.
  intros Hi. unfold hh_R. rewrite eliminate_upto_all.
  apply mget_eliminate_upto_row; lia.
Qed.

End DiagonalFacts.

(** * Main theorems *)

Section Main.
Context {F : Type} {SF : Scalar F}.

(** C7: the buffer behind [self.backup] is the array given at
    construction after any sequence of calls of [gram_schmidt],
    [gram_schmidt_modified], [householder], [decompose] and [solve], and
    a second call of [householder] returns the same [Q] and [R] as the
    first, and leaves the arrays the first call returned as they were;
    they are the factors a fresh engine on the same array returns. *)
Theorem backup_never_modified (A0 : matrix F) (red : bool) (calls : list call) :
  cell (heap (fold_left run_call calls (QR_init A0 red)))
       (backup (fold_left run_call calls (QR_init A0 red))) = A0 /\
  householder_values (fst (householder (fold_left run_call calls (QR_init A0 red)))) =
  householder_values (fold_left run_call calls (QR_init A0 red)) /\
  values (fst (householder (fst (householder (fold_left run_call calls (QR_init A0 red))))))
         (snd (householder (fold_left run_call calls (QR_init A0 red)))) =
  householder_values (fold_left run_call calls (QR_init A0 red)) /\
  householder_values (fold_left run_call calls (QR_init A0 red)) =
  householder_values (QR_init A0 red).
Proof.
  set (self0 := QR_init A0 red).
  assert (Hv0 : backup self0 < length (heap self0)) by (simpl; lia).
  destruct (run_calls_backup calls self0 Hv0) as (Hv & Hb & Hr & Hc).
  set (self := fold_left run_call calls self0) in *.
  split; [exact Hc|].
  destruct (householder_extends self) as (He & Hb1 & Hr1).
  split; [|split].
  - rewrite !householder_values_eq. rewrite Hb1, Hr1.
    now rewrite (extends_cell He Hv).
  - apply householder_pair_kept.
  - rewrite !householder_values_eq. now rewrite Hc, Hr.
Qed.

(** The shape of what [solve] returns for an aligned right-hand side: a
    2-D [b] with [k] columns gives an N by [k] array; a 1-D [b] gives a 1-D
    array of length N, except for N = 1, where the squeeze leaves a 0-d
    array. *)
Lemma solve_result_shape (self : QR F) (b : ndarray F) :
  aligned (nrows (cell (heap self) (backup self))) b = true ->
  exists x, snd (solve self b) = Ok x /\
    shape x =
    match b with
    | Arr0 _ => [ncols (cell (heap self) (backup self)); 1]
    | Arr1 _ => if ncols (cell (heap self) (backup self)) =? 1 then []
                else [ncols (cell (heap self) (backup self))]
    | Arr2 m => [ncols (cell (heap self) (backup self)); ncols m]
    end.
Proof.
  set (A0 := cell (heap self) (backup self)). intros Hal.
  destruct (householder_values_shape self) as (S1 & S2 & S3 & S4).
  fold A0 in S1, S2, S3, S4.
  rewrite solve_eq.
  set (Qv := fst (householder_values self)) in *.
  set (Rv := snd (householder_values self)) in *.
  destruct b as [s|v|m]; cbn [aligned] in Hal; try apply Nat.eqb_eq in Hal.
  - unfold backward_value, np_dot. cbn [ndim shape length Nat.eqb].
    eexists; split; [reflexivity|]. cbn [shape].
    destruct (back_sub_shape (Nat.min (nrows Rv) (ncols Rv)) Rv
                (nd_matrix (Arr2 (tabulate (nrows (transpose Qv)) (ncols (transpose Qv))
                                    (fun i r => fmul (mget (transpose Qv) i r) s))))
                1 (zeros (ncols Rv) 1)) as (X1 & X2 & _).
    rewrite X1, X2. cbn [zeros tabulate nrows ncols]. now rewrite S4.
  - rewrite backward_value_Arr1 by congruence.
    eexists; split; [reflexivity|].
    match goal with |- shape (squeeze ?X0) = _ => set (X := X0) end.
    destruct (back_sub_shape (Nat.min (nrows Rv) (ncols Rv)) Rv
                (reshape_col
                   (map (fun i =>
                           fold_left (fun acc r =>
                                        fadd acc (fmul (mget (transpose Qv) i r) (nth r v fzero)))
                                     (seq 0 (nrows Qv)) fzero)
                        (seq 0 (ncols Qv))))
                1 (zeros (ncols Rv) 1)) as (X1 & X2 & _).
    fold X in X1, X2. cbn [zeros tabulate nrows ncols] in X1, X2.
    unfold squeeze. rewrite X1, X2, S4. cbn [Nat.eqb]. rewrite Bool.andb_true_r.
    destruct (ncols A0 =? 1); cbn [shape]; [reflexivity|].
    now rewrite col_from_length, X1, S4, Nat.sub_0_r.
  - rewrite backward_value_Arr2 by congruence.
    eexists; split; [reflexivity|]. cbn [shape].
    destruct (back_sub_shape (Nat.min (nrows Rv) (ncols Rv)) Rv (matmul (transpose Qv) m)
                (ncols m) (zeros (ncols Rv) (ncols m))) as (X1 & X2 & _).
    rewrite X1, X2. cbn [zeros tabulate nrows ncols]. now rewrite S4.
Qed.

(** C10: for an underdetermined [A] (M < N) and a right-hand side [b]
    with M rows, [solve] returns an array [x] with N rows: of shape
    [(N, k)] for a 2-D [b] with [k] columns, of shape [(N,)] for a 1-D
    [b] (for N = 1 the squeeze leaves a 0-d array), of shape [(N, 1)] for
    a 0-d [b]; and every entry of [x] in the rows [K .. N-1] (K = M) is
    there and is exactly zero. *)
Theorem solve_underdetermined_zero_rows (self : QR F) (b : ndarray F) :
  nrows (cell (heap self) (backup self)) < ncols (cell (heap self) (backup self)) ->
  aligned (nrows (cell (heap self) (backup self))) b = true ->
  exists x, snd (solve self b) = Ok x /\
    shape x =
    match b with
    | Arr0 _ => [ncols (cell (heap self) (backup self)); 1]
    | Arr1 _ => if ncols (cell (heap self) (backup self)) =? 1 then []
                else [ncols (cell (heap self) (backup self))]
    | Arr2 m => [ncols (cell (heap self) (backup self)); ncols m]
    end /\
    forall r k, nrows (cell (heap self) (backup self)) <= r ->
                r < ncols (cell (heap self) (backup self)) ->
                k < match b with Arr2 m => ncols m | _ => 1 end ->
                nd_entry x r k = Some fzero.
Proof.
  set (A0 := cell (heap self) (backup self)). intros HMN Hal.
  destruct (solve_result_shape self b Hal) as (x & Hx & Hs). fold A0 in Hs.
  exists x. split; [exact Hx|]. split; [exact Hs|].
  destruct (householder_values_shape self) as (S1 & S2 & S3 & S4).
  fold A0 in S1, S2, S3, S4.
  rewrite solve_eq in Hx. unfold backward_value in Hx.
  set (Qv := fst (householder_values self)) in *.
  set (Rv := snd (householder_values self)) in *.
  destruct (proj2 (np_dot_aligned Qv b)) as [y0 Hy0]; [now rewrite S1|].
  rewrite Hy0 in Hx. injection Hx as Hx. subst x.
  intros r k Hr1 Hr2 Hk.
  set (n := if ndim b =? 2 then nth 1 (shape b) 0 else 1).
  set (y := nd_matrix _).
  set (X := back_sub _ Rv y n _).
  assert (HX : forall c, mget X r c = fzero).
  { intros c. unfold X. rewrite mget_back_sub_other; [apply mget_zeros|].
    left. rewrite S3. unfold hh_K. destruct (reduce self); lia. }
  destruct (back_sub_shape (Nat.min (nrows Rv) (ncols Rv)) Rv y n (zeros (ncols Rv) n))
    as (X1 & X2 & X3). fold X in X1, X2, X3.
  cbn [zeros tabulate nrows ncols] in X1, X2.
  assert (HwX : wf X) by (apply X3; unfold zeros; apply wf_tabulate).
  destruct (ndim b =? 1) eqn:E.
  - assert (Hn : n = 1) by (unfold n; destruct b; simpl in E; try discriminate; reflexivity).
    assert (k = 0) by (destruct b; simpl in E; try discriminate; lia). subst k.
    rewrite nd_entry_squeeze by lia. now rewrite HX.
  - assert (Hn : k < n) by (unfold n; destruct b; simpl in E; try discriminate; exact Hk).
    rewrite nd_entry_Arr2 by (try exact HwX; lia). now rewrite HX.
Qed.

(** C6 as the code has it: a right-hand side whose number of rows differs
    from that of [A] makes [solve] raise, in [np.dot(self.Q.T, self.b)],
    after [householder] has run; the engine is left as [householder]
    leaves it, with [b], [A], [Q] and [R] rebound. *)
Theorem solve_misaligned_fails_after_factorization (self : QR F) (b : ndarray F) :
  aligned (nrows (cell (heap self) (backup self))) b = false ->
  snd (solve self b) = Raise ValueError /\
  fst (solve self b) = fst (householder (set_b self (Some b))).
Proof.
  intros Hal.
  destruct (householder_values_shape self) as (S1 & _).
  assert (Hdot : np_dot (transpose (fst (householder_values self))) b = Raise ValueError)
    by (apply np_dot_not_aligned; now rewrite S1).
  split.
  - rewrite solve_eq. unfold backward_value. now rewrite Hdot.
  - rewrite solve_state.
    destruct (householder_attrs self b) as (q & r & Hq & Hr & Hb & Hqv & _).
    rewrite <- Hqv in Hdot.
    now rewrite (backward_raise _ Hq Hr Hb Hdot).
Qed.

(** C3: for a 2-D right-hand side [bm] with as many rows as [A], [solve]
    returns a 2-D array [X] in which, for every column [k] and every row
    [i < K], [X[i,k] = (y[i,k] - acc) / R[i,i]], where [y = Q.T @ bm] and
    [acc] is the result of the Kahan accumulator fed with
    [R[i,j] * X[j,k]] for [j = K-1, ..., i+1]; and column [k] of [X] is
    what [solve] returns for the 1-D right-hand side [bm[:, k]]. *)
Theorem solve_back_substitution (self : QR F) (bm : matrix F) :
  nrows bm = nrows (cell (heap self) (backup self)) ->
  exists X,
    snd (solve self (Arr2 bm)) = Ok (Arr2 X) /\
    (forall i k, i < hh_K (cell (heap self) (backup self)) -> k < ncols bm ->
       mget X i k =
       fdiv (fsub (mget (matmul (transpose (fst (householder_values self))) bm) i k)
                  (kahan_result
                     (fold_left
                        (fun acc j =>
                           kahan_add acc (fmul (mget (snd (householder_values self)) i j)
                                               (mget X j k)))
                        (rev (seq (S i) (hh_K (cell (heap self) (backup self)) - S i)))
                        KahanSum_init)))
            (mget (snd (householder_values self)) i i)) /\
    (forall k, k < ncols bm ->
       exists xk, snd (solve self (Arr1 (col_from bm 0 k))) = Ok xk /\
                  ravel xk = col_from X 0 k).
Proof.
  set (A0 := cell (heap self) (backup self)). intros Hb.
  destruct (householder_values_shape self) as (S1 & S2 & S3 & S4).
  fold A0 in S1, S2, S3, S4.
  set (Qv := fst (householder_values self)) in *.
  set (Rv := snd (householder_values self)) in *.
  assert (HK : Nat.min (nrows Rv) (ncols Rv) = hh_K A0)
    by (rewrite S3, S4; unfold hh_K; destruct (reduce self); lia).
  assert (HKN : hh_K A0 <= ncols A0) by (unfold hh_K; lia).
  assert (HKQ : hh_K A0 <= ncols Qv)
    by (rewrite S2; unfold hh_K; destruct (reduce self); lia).
  rewrite !solve_eq. fold Qv. fold Rv.
  rewrite backward_value_Arr2 by congruence. rewrite HK, S4.
  set (y := matmul (transpose Qv) bm).
  set (X := back_sub (hh_K A0) Rv y (ncols bm) (zeros (ncols A0) (ncols bm))).
  destruct (back_sub_shape (hh_K A0) Rv y (ncols bm) (zeros (ncols A0) (ncols bm)))
    as (X1 & X2 & _). fold X in X1, X2. cbn [zeros tabulate nrows ncols] in X1, X2.
  assert (HX : forall i k, i < hh_K A0 -> k < ncols bm ->
            mget X i k =
            fdiv (fsub (mget y i k) (kahan_result (bs_acc (hh_K A0) Rv X i k)))
                 (mget Rv i i)).
  { intros i k Hi Hk. apply mget_back_sub;
      cbn [zeros tabulate nrows ncols]; try lia. apply wf_tabulate. }
  exists X. split; [reflexivity|]. split; [exact HX|].
  intros k Hk.
  rewrite solve_eq. fold Qv. fold Rv.
  rewrite backward_value_Arr1 by (rewrite col_from_length; lia).
  rewrite HK, S4.
  set (v1 := map _ (seq 0 (ncols Qv))).
  set (X' := back_sub (hh_K A0) Rv (reshape_col v1) 1 (zeros (ncols A0) 1)).
  destruct (back_sub_shape (hh_K A0) Rv (reshape_col v1) 1 (zeros (ncols A0) 1))
    as (X1' & X2' & _). fold X' in X1', X2'. cbn [zeros tabulate nrows ncols] in X1', X2'.
  eexists; split; [reflexivity|].
  rewrite ravel_squeeze by exact X2'.
  apply col_from_ext; [congruence|].
  intros r Hr.
  destruct (Nat.lt_ge_cases r (hh_K A0)) as [Hlt|Hge].
  - apply back_sub_unique
      with (K := hh_K A0) (Rm := Rv) (y := reshape_col v1) (y' := y); [| | |exact Hlt].
    + intros i Hi.
      assert (Hlen : length v1 = ncols Qv) by (unfold v1; now rewrite length_map, length_seq).
      rewrite mget_reshape_col by lia.
      unfold v1. rewrite nth_map_seq by lia.
      unfold y, matmul.
      rewrite mget_tabulate by (cbn [nrows ncols transpose tabulate]; lia).
      cbn [nrows ncols transpose tabulate].
      apply fold_left_ext_in. intros a0 r0 Hr0. apply in_seq in Hr0.
      rewrite nth_col_from by lia. reflexivity.
    + intros i Hi. apply mget_back_sub;
        cbn [zeros tabulate nrows ncols]; try lia. apply wf_tabulate.
    + intros i Hi. now apply HX.
  - unfold X', X. rewrite !mget_back_sub_other by lia.
    now rewrite !mget_zeros.
Qed.

(** C4 as the code has it: [solve] calls [householder] on the engine as
    it was constructed, so the factors it leaves in [self.Q] and [self.R]
    are those [householder] returns for the engine's own [reduce] flag,
    M by K and K by N when the flag is set; the array [solve] returns is
    the same for both values of the flag. *)
Theorem solve_follows_reduce_flag (A0 : matrix F) (red : bool) (b : ndarray F) :
  option_map (deref (heap (fst (solve (QR_init A0 red) b))))
             (self_Q (fst (solve (QR_init A0 red) b))) =
    Some (fst (householder_values (QR_init A0 red))) /\
  option_map (deref (heap (fst (solve (QR_init A0 red) b))))
             (self_R (fst (solve (QR_init A0 red) b))) =
    Some (snd (householder_values (QR_init A0 red))) /\
  shape (Arr2 (fst (householder_values (QR_init A0 red)))) =
    [nrows A0; if red then Nat.min (nrows A0) (ncols A0) else nrows A0] /\
  shape (Arr2 (snd (householder_values (QR_init A0 red)))) =
    [if red then Nat.min (nrows A0) (ncols A0) else nrows A0; ncols A0] /\
  snd (solve (QR_init A0 true) b) = snd (solve (QR_init A0 false) b).
Proof.
  destruct (householder_values_shape (QR_init A0 red)) as (S1 & S2 & S3 & S4).
  change (cell (heap (QR_init A0 red)) (backup (QR_init A0 red))) with A0 in *.
  change (reduce (QR_init A0 red)) with red in *.
  destruct (householder_attrs (QR_init A0 red) b) as (q & r & Hq & Hr & _ & Hqv & Hrv).
  destruct (backward_frame (fst (householder (set_b (QR_init A0 red) (Some b)))))
    as (Hh & _ & _ & _ & Hq' & Hr' & _).
  split; [|split; [|split; [|split]]].
  - rewrite solve_state, Hh, Hq', Hq. cbn [option_map]. now rewrite Hqv.
  - rewrite solve_state, Hh, Hr', Hr. cbn [option_map]. now rewrite Hrv.
  - cbn [shape]. now rewrite S1, S2.
  - cbn [shape]. now rewrite S3, S4.
  - rewrite !solve_eq, !householder_values_eq.
    change (cell (heap (QR_init A0 true)) (backup (QR_init A0 true))) with A0.
    change (cell (heap (QR_init A0 false)) (backup (QR_init A0 false))) with A0.
    cbn [QR_init reduce fst snd].
    replace (hh_K A0) with (Nat.min (nrows (hh_R A0)) (ncols (hh_R A0)))
      by (now rewrite hh_R_nrows, hh_R_ncols).
    apply backward_value_reduce.
    + now rewrite hh_Q_ncols, hh_Q_nrows.
    + now rewrite hh_R_nrows, hh_Q_nrows.
Qed.

(** C8: a step of the elimination whose reflection vector [v] has
    [np.isclose(v.T @ v, 0)] leaves the working array as it is and only
    records [v]; the same [v] leaves [Q] as it is when [Q] is built; and
    [householder] never divides by such a value: its outcome is the same
    under every division that agrees with [/] on the divisors that are
    not close to zero. *)
Theorem degenerate_reflection_is_skipped
    (K i : nat) (st : matrix F * list (vec F)) (Q0 : matrix F) (jv : nat * vec F)
    (d : F -> F -> F) (self : QR F) :
  (isclose0 (vdot (reflection_vector (fst st) i) (reflection_vector (fst st) i)) = true ->
   hh_step K st i = (fst st, snd st ++ [reflection_vector (fst st) i])) /\
  (isclose0 (vdot (snd jv) (snd jv)) = true -> q_step K i Q0 jv = Q0) /\
  ((forall x y, isclose0 y = false -> d x y = fdiv x y) ->
   @householder F (with_div SF d) self = householder self).
Proof.
  repeat split.
  - intros H. unfold hh_step. now rewrite H.
  - intros H. unfold q_step. now rewrite H.
  - intros H. now apply householder_with_div.
Qed.

End Main.

(** * Runs on binary64 *)

Module Runs.
Import Floats Float64.
Local Open Scope float_scope.

(** C1 at [A = [[3, 4]]] (M = 1 < N = 2, K = 1): the reflection of step 0
    is applied to column 0 only.  [R] is [[-3, 4]] where the update of
    column 1 would give [[-3, -4]], and with [Q = [[-1]]] the product
    [Q @ R] is [[3, -4]], not [A]. *)
Lemma householder_wide_misses_columns :
  rows (fst (householder_values wide_engine)) = [[-1]] /\
  rows (snd (householder_values wide_engine)) = [[-3; 4]] /\
  rows (reflect (reflection_vector wide_A 0)
                (snd (householder_values wide_engine)) 0 1) = [[-3; -4]] /\
  rows (matmul (fst (householder_values wide_engine))
               (snd (householder_values wide_engine))) = [[3; -4]].
Proof. vm_compute. repeat split. Qed.


(** C4 fails: with [reduce] set and a 2 by 1 array, [solve] leaves a 2 by 1
    [Q] and a 1 by 1 [R] in the engine, not the 2 by 2 and 2 by 1 factors
    of the full factorization. *)
Lemma solve_with_reduce_keeps_reduced_factors :
  option_map (fun q => shape (Arr2 (deref (heap (fst (solve tall_reduced_engine (Arr1 [1; 2])))) q)))
             (self_Q (fst (solve tall_reduced_engine (Arr1 [1; 2])))) = Some [2; 1]%nat /\
  option_map (fun r => shape (Arr2 (deref (heap (fst (solve tall_reduced_engine (Arr1 [1; 2])))) r)))
             (self_R (fst (solve tall_reduced_engine (Arr1 [1; 2])))) = Some [1; 1]%nat.
Proof. vm_compute. repeat split. Qed.


(** C6 fails: on [A = [[2]]] and a right-hand side of length 2, [solve]
    raises only after the factorization; the failed call has rebound [b]
    and [A] and has added the buffers of [R = [[-2]]] and [Q = [[-1]]]. *)
Lemma solve_misaligned_has_factorized :
  snd (solve scalar_engine (Arr1 [4; 5])) = Raise ValueError /\
  self_A scalar_engine = None /\
  self_A (fst (solve scalar_engine (Arr1 [4; 5]))) = Some 1%nat /\
  self_b (fst (solve scalar_engine (Arr1 [4; 5]))) = Some (Arr1 [4; 5]) /\
  map (@rows float) (heap scalar_engine) = [[[2]]] /\
  map (@rows float) (heap (fst (solve scalar_engine (Arr1 [4; 5])))) =
    [[[2]]; [[-2]]; [[-1]]].
Proof. vm_compute. repeat split. Qed.

(** C9 at [A = [[2]]], [b = [4]]: [x.squeeze()] removes both axes of the
    1 by 1 array, so [solve] returns the 0-d array [2], of shape [()], and
    not the 1-element vector of shape [(1,)]. *)
Lemma solve_scalar_returns_0d :
  snd (solve scalar_engine (Arr1 [4])) = Ok (Arr0 2) /\
  shape (@Arr0 float 2) = [] /\
  shape (Arr1 [2]) = [1%nat].
Proof. vm_compute. repeat split. Qed.

(** Instances of the main theorems. *)

Lemma solve_underdetermined_zero_rows_witness :
  nrows (cell (heap wide_engine) (backup wide_engine))
    < ncols (cell (heap wide_engine) (backup wide_engine)) /\
  aligned (nrows (cell (heap wide_engine) (backup wide_engine))) (Arr1 [5]) = true /\
  exists x, snd (solve wide_engine (Arr1 [5])) = Ok x /\
    shape x = [2%nat] /\
    forall r k, nrows (cell (heap wide_engine) (backup wide_engine)) <= r ->
                r < ncols (cell (heap wide_engine) (backup wide_engine)) ->
                k < 1 ->
                nd_entry x r k = Some fzero.
Proof.
  split; [vm_compute; lia|]. split; [reflexivity|].
  apply (solve_underdetermined_zero_rows wide_engine (Arr1 [5]));
    [vm_compute; lia | reflexivity].
Defined.

Lemma solve_misaligned_fails_after_factorization_witness :
  aligned (nrows (cell (heap scalar_engine) (backup scalar_engine))) (Arr1 [4; 5]) = false /\
  snd (solve scalar_engine (Arr1 [4; 5])) = Raise ValueError /\
  fst (solve scalar_engine (Arr1 [4; 5])) =
  fst (householder (set_b scalar_engine (Some (Arr1 [4; 5])))).
Proof.
  split; [reflexivity|].
  apply solve_misaligned_fails_after_factorization. reflexivity.
Defined.

Lemma solve_back_substitution_witness :
  nrows (of_rows [[2; 4]; [4; 8]]) = nrows (cell (heap diagonal_engine) (backup diagonal_engine)) /\
  exists xk, snd (solve diagonal_engine (Arr1 (col_from (of_rows [[2; 4]; [4; 8]]) 0 1))) = Ok xk /\
             ravel xk = [2; 2].
Proof.
  split; [reflexivity|].
  destruct (@solve_back_substitution _ _ diagonal_engine (of_rows [[2; 4]; [4; 8]]) eq_refl)
    as (X & HX & _ & Hcol).
  destruct (Hcol 1%nat ltac:(vm_compute; lia)) as (xk & Hxk & Hr).
  exists xk. split; [exact Hxk|].
  rewrite Hr. vm_compute in HX. inversion HX. reflexivity.
Defined.

Lemma degenerate_reflection_is_skipped_witness :
  hh_step 1 (of_rows [[0]], []) 0 = (of_rows [[0]], [[0]]) /\
  @householder float (with_div float64 (fun x y => if isclose0 y then 0 else x / y)) zero_engine
  = householder zero_engine.
Proof.
  destruct (@degenerate_reflection_is_skipped _ _ 1%nat 0%nat (of_rows [[0]], []) (of_rows [[0]])
              (0%nat, [0]) (fun x y => if isclose0 y then 0 else x / y) zero_engine)
    as (H1 & _ & H3).
  split.
  - apply H1. reflexivity.
  - apply H3. intros x y Hy. rewrite Hy. reflexivity.
Defined.

End Runs.

(** * Division by a zero pivot on binary64 *)

Module ZeroPivot.
Import Floats Float64.




End ZeroPivot.

(** * Exact arithmetic: the diagonal of [R] *)

Module ExactFacts.
Import Reals Lra Exact.
Local Open Scope R_scope.

Lemma fold_left_Rplus (l : list R) (a : R) :
  fold_left Rplus l a = a + fold_left Rplus l 0.
Proof.
  revert a. induction l as [|x t IH]; intros a; cbn [fold_left]; [lra|].
  rewrite (IH (a + x)), (IH (0 + x)). lra.
Qed.

Lemma sumsq_cons x t : sumsq (x :: t) = x * x + sumsq t.
Proof. unfold sumsq. cbn [map fold_left]. rewrite fold_left_Rplus. lra. Qed.

Lemma sumsq_nonneg l : 0 <= sumsq l.
Proof.
  induction l as [|x t IH]; [unfold sumsq; cbn; lra|].
  rewrite sumsq_cons. nra.
Qed.

Lemma l2_norm_sumsq (l : vec R) : l2_norm l = sqrt (sumsq l).
Proof. reflexivity. Qed.

Lemma fold_left_dot (l : list (R * R)) (a : R) :
  fold_left (fun acc p => acc + fst p * snd p) l a =
  a + fold_left (fun acc p => acc + fst p * snd p) l 0.
Proof.
  revert a. induction l as [|x t IH]; intros a; cbn [fold_left]; [lra|].
  rewrite (IH (a + _)), (IH (0 + _)). lra.
Qed.

Lemma vdot_cons x y (u w : vec R) : vdot (x :: u) (y :: w) = x * y + vdot u w.
Proof.
  unfold vdot. cbn [combine fold_left fst snd fadd fmul fzero real_scalar].
  rewrite fold_left_dot. lra.
Qed.

Lemma vdot_self (t : vec R) : vdot t t = sumsq t.
Proof.
  induction t as [|x t IH]; [reflexivity|].
  now rewrite vdot_cons, sumsq_cons, IH.
Qed.

Lemma vdot_scale_two (u w : vec R) : vdot (vscale ftwo u) w = 2 * vdot u w.
Proof.
  revert w. induction u as [|x u IH]; intros [|y w];
    try (unfold vdot; cbn; lra).
  cbn [vscale map]. rewrite !vdot_cons. fold (vscale ftwo u). rewrite IH.
  cbn [fmul ftwo real_scalar]. lra.
Qed.

(** Below its first entry, [a + s*c*e] is [a]. *)
Lemma vadd_basis_tail (t : vec R) (m : R) (n : nat) :
  (0 < n)%nat ->
  vadd t (vscale m (map (fun k => if (k =? 0)%nat then fone else fzero)
                        (seq n (length t)))) = t.
Proof.
  revert n. induction t as [|x t IH]; intros n Hn; [reflexivity|].
  destruct n as [|n]; [lia|].
  cbn [length seq map vscale vadd combine fst snd Nat.eqb].
  f_equal; [cbn [fadd fmul fzero real_scalar]; lra|].
  apply (IH (S (S n))). lia.
Qed.

Lemma reflection_vector_cons (Ai : matrix R) i a0 t :
  col_from Ai i i = a0 :: t ->
  reflection_vector Ai i = (a0 + sign a0 * l2_norm (a0 :: t) * 1) :: t.
Proof.
  intros Ha. unfold reflection_vector. rewrite Ha.
  cbn [nth length basis_vec seq map vscale vadd combine fst snd Nat.eqb].
  f_equal. apply (@vadd_basis_tail t _ 1%nat). lia.
Qed.

Lemma sign_square (x : R) : sign x * sign x = 1.
Proof.
  unfold sign. cbn [fle fzero fone fopp real_scalar].
  destruct (Rle_dec 0 x); lra.
Qed.

Lemma isclose0_zero : isclose0 0 = true.
Proof.
  cbn [isclose0 real_scalar]. unfold isclose0_R.
  destruct (Rle_dec (Rabs 0) (/ 100000000)) as [_|H]; [reflexivity|].
  exfalso. apply H. rewrite Rabs_R0. lra.
Qed.

(** The reflection of the subcolumn [a0 :: t] onto the first axis: with
    [c = ||a||] and [s = sign a0], a vector [v = a + s*c*e] that is not
    close to zero gives the coefficient 1, and the entry [-s*c]. *)
Lemma reflection_head (a0 : R) (t : vec R) :
  let c := l2_norm (a0 :: t) in
  let s := sign a0 in
  let v := (a0 + s * c * 1) :: t in
  isclose0 (vdot v v) = false ->
  a0 - vdot (vscale ftwo v) (a0 :: t) / vdot v v * (a0 + s * c * 1) = - (s * c) /\
  0 < c.
Proof.
  intros c s v Hc.
  assert (Hcc : c * c = a0 * a0 + sumsq t).
  { unfold c. rewrite l2_norm_sumsq, sqrt_sqrt by apply sumsq_nonneg.
    apply sumsq_cons. }
  assert (Hss : s * s = 1) by apply sign_square.
  assert (Hvv : vdot v v = 2 * (c * c) + 2 * (s * c * a0)).
  { unfold v. rewrite vdot_cons, vdot_self.
    replace (sumsq t) with (c * c - a0 * a0) by lra.
    assert (E : (s * c) * (s * c) = c * c) by (replace (s * c * (s * c)) with ((s * s) * (c * c)) by ring; rewrite Hss; ring).
    nra. }
  assert (Hva : vdot (vscale ftwo v) (a0 :: t) = vdot v v).
  { rewrite vdot_scale_two. unfold v at 1. rewrite vdot_cons, vdot_self, Hvv.
    replace (sumsq t) with (c * c - a0 * a0) by lra. ring. }
  assert (Hne : vdot v v <> 0).
  { intros E. rewrite E, isclose0_zero in Hc. discriminate. }
  split.
  - rewrite Hva. unfold Rdiv. rewrite Rinv_r by exact Hne. ring.
  - assert (H0 : 0 <= c) by (unfold c; rewrite l2_norm_sumsq; apply sqrt_pos).
    destruct (Req_dec c 0) as [E|E]; [|lra].
    exfalso. apply Hne. rewrite Hvv, E. ring.
Qed.




Lemma two_engine_subcolumn :
  subcolumn (cell (heap two_engine) (backup two_engine)) 0 = [2].
Proof. reflexivity. Qed.

End ExactFacts.

(** * Further properties *)

(** ** The Gram-Schmidt methods in closed form *)

Section GramSchmidtFacts.
Context {F : Type} {SF : Scalar F}.

Lemma cell_app_new3 (h : list (matrix F)) m1 m2 m3 h' :
  cell (h ++ m1 :: m2 :: m3 :: h') (S (S (length h))) = m3.
Proof.
  unfold cell. rewrite app_nth2 by lia.
  now replace (S (S (length h)) - length h) with 2 by lia.
Qed.

Lemma upd_app_head (h t : list (matrix F)) (m v : matrix F) :
  upd (length h) v (h ++ m :: t) = h ++ v :: t.
Proof. rewrite <- (Nat.add_0_r (length h)). exact (upd_app_r h (m :: t) 0 v). Qed.

Lemma length_app_one (h : list (matrix F)) (m : matrix F) :
  length (h ++ [m]) = S (length h).
Proof. rewrite length_app. cbn [length]. lia. Qed.

(** [gram_schmidt] appends the working copy, the copy kept for [R], and,
    unless the array has no column, the product [Q.T @ R]. *)
Lemma gram_schmidt_eq (self : QR F) :
  gram_schmidt self =
  if ncols (cell (heap self) (backup self)) =? 0
  then (mk_QR (heap self ++ [cell (heap self) (backup self); cell (heap self) (backup self)])
              (backup self) (reduce self)
              (Some (length (heap self))) (self_Q self)
              (Some (Whole (S (length (heap self)))))
              (self_b self) (self_y self) (self_x self),
        Raise IndexError)
  else (mk_QR (heap self ++ [gs_Q (cell (heap self) (backup self));
                             cell (heap self) (backup self);
                             gs_R (gs_Q (cell (heap self) (backup self)))
                                  (cell (heap self) (backup self))])
              (backup self) (reduce self)
              (Some (length (heap self))) (Some (Whole (length (heap self))))
              (Some (Whole (S (S (length (heap self))))))
              (self_b self) (self_y self) (self_x self),
        Ok (Whole (length (heap self)), Whole (S (S (length (heap self)))))).
Proof.
  destruct self as [h bk rd a q r b y x]. engine_cbv.
  rewrite <- !app_assoc. cbn [app].
  rewrite !cell_app_new, !length_app_one.
  destruct (ncols (cell h bk) =? 0); [reflexivity|].
  repeat first [ rewrite upd_app_head | rewrite cell_app_new | rewrite cell_app_new2 ].
  rewrite !length_app. cbn [length].
  rewrite <- !app_assoc. cbn [app].
  replace (length h + 2) with (S (S (length h))) by lia.
  reflexivity.
Qed.

(** [gram_schmidt_modified] appends the same three buffers and never
    raises. *)
Lemma gram_schmidt_modified_eq (self : QR F) :
  gram_schmidt_modified self =
  (mk_QR (heap self ++ [gsm_Q (cell (heap self) (backup self));
                        cell (heap self) (backup self);
                        gs_R (gsm_Q (cell (heap self) (backup self)))
                             (cell (heap self) (backup self))])
         (backup self) (reduce self)
         (Some (length (heap self))) (Some (Whole (length (heap self))))
         (Some (Whole (S (S (length (heap self))))))
         (self_b self) (self_y self) (self_x self),
   (Whole (length (heap self)), Whole (S (S (length (heap self)))))).
Proof.
  destruct self as [h bk rd a q r b y x]. engine_cbv.
  rewrite <- !app_assoc. cbn [app].
  rewrite !cell_app_new, !length_app_one.
  repeat first [ rewrite upd_app_head | rewrite cell_app_new | rewrite cell_app_new2 ].
  rewrite !length_app. cbn [length].
  rewrite <- !app_assoc. cbn [app].
  replace (length h + 2) with (S (S (length h))) by lia.
  reflexivity.
Qed.

Lemma gram_schmidt_values_eq (self : QR F) :
  gram_schmidt_values self =
  if ncols (cell (heap self) (backup self)) =? 0 then Raise IndexError
  else Ok (gs_Q (cell (heap self) (backup self)),
           gs_R (gs_Q (cell (heap self) (backup self))) (cell (heap self) (backup self))).
Proof.
  unfold gram_schmidt_values. rewrite gram_schmidt_eq.
  destruct (ncols (cell (heap self) (backup self)) =? 0); [reflexivity|].
  unfold values. cbn [fst snd heap deref]. now rewrite cell_app_new, cell_app_new3.
Qed.

Lemma gram_schmidt_modified_values_eq (self : QR F) :
  gram_schmidt_modified_values self =
  (gsm_Q (cell (heap self) (backup self)),
   gs_R (gsm_Q (cell (heap self) (backup self))) (cell (heap self) (backup self))).
Proof.
  unfold gram_schmidt_modified_values. rewrite gram_schmidt_modified_eq.
  unfold values. cbn [fst snd heap deref]. now rewrite cell_app_new, cell_app_new3.
Qed.

End GramSchmidtFacts.

(** ** Whole columns: reading after writing *)

Section ColumnTheory.
Context {F : Type} {SF : Scalar F}.

Lemma colv_length (A : matrix F) c : length (colv A c) = nrows A.
Proof. unfold colv. rewrite col_from_length. lia. Qed.

Lemma nth_colv (A : matrix F) c r :
  r < nrows A -> nth r (colv A c) fzero = mget A r c.
Proof. apply nth_col_from. Qed.

(** The entries of an assigned slice [A[i:, j] = w]. *)
Lemma mget_fold_mset (j : nat) (w : vec F) :
  forall (A : matrix F) i r,
    wf A -> j < ncols A -> i <= r -> r < i + length w -> i + length w <= nrows A ->
    mget (fold_left (fun A' p => mset A' (fst p) j (snd p))
                    (combine (seq i (length w)) w) A) r j = nth (r - i) w fzero.
Proof.
  induction w as [|x w IH]; intros A i r Hwf Hj Hir Hr Hn; cbn [length] in *; [lia|].
  cbn [seq combine fold_left fst snd].
  destruct (Nat.eq_dec r i) as [->|Hne].
  - rewrite Nat.sub_diag. cbn [nth].
    apply (fold_left_inv (fun B => mget B i j = x)).
    + apply mget_mset_same; [exact Hwf | lia | exact Hj].
    + intros B [r0 x0] Hin HB. cbn [fst snd].
      apply in_combine_l, in_seq in Hin.
      rewrite mget_mset_other by lia. exact HB.
  - rewrite (IH (mset A i j x) (S i) r); [| now apply wf_mset | exact Hj | lia | lia
                                          | rewrite mset_nrows; lia].
    replace (r - i) with (S (r - S i)) by lia. reflexivity.
Qed.

Lemma mget_col_assign_in (A : matrix F) i j w r :
  wf A -> j < ncols A -> i <= r -> r < nrows A -> length w = nrows A - i ->
  mget (col_assign A i j w) r j = nth (r - i) w fzero.
Proof.
  intros Hwf Hj Hir Hr Hw. unfold col_assign. rewrite <- Hw.
  apply mget_fold_mset; auto; lia.
Qed.

Lemma colv_col_assign_same (A : matrix F) c w :
  wf A -> c < ncols A -> length w = nrows A -> colv (col_assign A 0 c w) c = w.
Proof.
  intros Hwf Hc Hw.
  apply (nth_ext _ _ fzero fzero).
  - now rewrite colv_length, col_assign_nrows.
  - intros r Hr. rewrite colv_length, col_assign_nrows in Hr.
    rewrite nth_colv by (rewrite col_assign_nrows; exact Hr).
    rewrite mget_col_assign_in by (auto; lia).
    now rewrite Nat.sub_0_r.
Qed.

Lemma colv_col_assign_other (A : matrix F) c w c' :
  c' <> c -> colv (col_assign A 0 c w) c' = colv A c'.
Proof.
  intros Hne. unfold colv. apply col_from_ext.
  - apply col_assign_nrows.
  - intros r _. apply mget_col_assign_other. now left.
Qed.

(** Two well-formed arrays of one shape with the same columns are equal. *)
Lemma matrix_ext (A B : matrix F) :
  wf A -> wf B -> nrows A = nrows B -> ncols A = ncols B ->
  (forall c, c < ncols A -> colv A c = colv B c) -> A = B.
Proof.
  intros [HA1 HA2] [HB1 HB2] Hn Hm Hc.
  destruct A as [na ma ra], B as [nb mb rb]. cbn [nrows ncols rows] in *.
  assert (E : ra = rb).
  { apply (nth_ext _ _ [] []); [congruence|].
    intros r Hr. rewrite HA1 in Hr.
    apply (nth_ext _ _ fzero fzero);
      [rewrite HA2, HB2 by lia; exact Hm|].
    intros c Hcl. rewrite HA2 in Hcl by exact Hr.
    specialize (Hc c Hcl).
    assert (E : nth r (colv (mk_matrix na ma ra) c) fzero =
                nth r (colv (mk_matrix nb mb rb) c) fzero) by now rewrite Hc.
    rewrite !nth_colv in E by (cbn [nrows]; lia). exact E. }
  now rewrite <- Hn, <- Hm, <- E.
Qed.

Lemma vsub_length (u w : vec F) : length (vsub u w) = Nat.min (length u) (length w).
Proof. unfold vsub. now rewrite length_map, length_combine. Qed.

Lemma projection_length (u v : vec F) : length (projection u v) = length v.
Proof. unfold projection, vscale. now rewrite length_map. Qed.

Lemma normalize_length (v : vec F) : length (normalize v) = length v.
Proof. unfold normalize. now rewrite length_map. Qed.

(** The three in-place statements on whole columns. *)
Lemma col_sub_shape (A : matrix F) c w :
  nrows (col_sub A 0 c w) = nrows A /\ ncols (col_sub A 0 c w) = ncols A /\
  (wf A -> wf (col_sub A 0 c w)).
Proof.
  unfold col_sub. split; [apply col_assign_nrows|].
  split; [apply col_assign_ncols | apply wf_col_assign].
Qed.

Lemma colv_col_sub_same (A : matrix F) c w :
  wf A -> c < ncols A -> length w = nrows A ->
  colv (col_sub A 0 c w) c = vsub (colv A c) w.
Proof.
  intros Hwf Hc Hw. unfold col_sub. fold (colv A c).
  apply colv_col_assign_same; auto.
  rewrite vsub_length, colv_length, Hw. lia.
Qed.

Lemma colv_col_sub_other (A : matrix F) c w c' :
  c' <> c -> colv (col_sub A 0 c w) c' = colv A c'.
Proof. apply colv_col_assign_other. Qed.

Lemma colv_col_div_same (A : matrix F) c :
  wf A -> c < ncols A ->
  colv (col_div A c (l2_norm (colv A c))) c = normalize (colv A c).
Proof.
  intros Hwf Hc. unfold col_div, normalize. fold (colv A c).
  apply colv_col_assign_same; auto.
  now rewrite length_map, colv_length.
Qed.

Lemma colv_col_div_other (A : matrix F) c d c' :
  c' <> c -> colv (col_div A c d) c' = colv A c'.
Proof. apply colv_col_assign_other. Qed.

End ColumnTheory.

(** ** The two Gram-Schmidt loops arrive at the same columns *)

Section GramSchmidtAgree.
Context {F : Type} {SF : Scalar F}.

(** A loop over [range(start, start + len)] with an invariant that
    follows its index. *)
Lemma fold_left_seq_ind {A : Type} (P : nat -> A -> Prop) (f : A -> nat -> A) :
  forall len start a,
    P start a ->
    (forall k x, start <= k -> k < start + len -> P k x -> P (S k) (f x k)) ->
    P (start + len) (fold_left f (seq start len) a).
Proof.
  induction len as [|len IH]; intros start a Ha Hstep; cbn [seq fold_left].
  - now rewrite Nat.add_0_r.
  - replace (start + S len) with (S start + len) by lia.
    apply IH.
    + apply Hstep; [lia | lia | exact Ha].
    + intros k x Hk1 Hk2. apply Hstep; lia.
Qed.

Lemma residual_S (qs : list (vec F)) m a :
  residual qs (S m) a =
  vsub (residual qs m a) (projection (residual qs m a) (nth m qs [])).
Proof. unfold residual. now rewrite seq_S, fold_left_app. Qed.

Lemma residual_ext (qs qs' : list (vec F)) m a :
  (forall j, j < m -> nth j qs [] = nth j qs' []) ->
  residual qs m a = residual qs' m a.
Proof.
  intros H. unfold residual. apply fold_left_ext_in.
  intros u j Hj. apply in_seq in Hj. now rewrite H by lia.
Qed.

Lemma gs_columns_length (A0 : matrix F) n : length (gs_columns A0 n) = n.
Proof.
  induction n as [|n IH]; [reflexivity|].
  cbn [gs_columns]. rewrite length_app, IH. cbn [length]. lia.
Qed.

(** Column [c] of the list is the normalized residual of [A0[:, c]]
    against the columns before it. *)
Lemma nth_gs_columns (A0 : matrix F) n c :
  c < n ->
  nth c (gs_columns A0 n) [] =
  normalize (residual (gs_columns A0 n) c (colv A0 c)).
Proof.
  induction n as [|n IH]; intros Hc; [lia|].
  cbn [gs_columns].
  assert (Hpre : forall j, j < n ->
            nth j (gs_columns A0 n ++
                   [normalize (residual (gs_columns A0 n) n (colv A0 n))]) [] =
            nth j (gs_columns A0 n) []).
  { intros j Hj. apply app_nth1. now rewrite gs_columns_length. }
  destruct (Nat.eq_dec c n) as [->|Hne].
  - rewrite app_nth2 by (rewrite gs_columns_length; lia).
    rewrite gs_columns_length, Nat.sub_diag. cbn [nth].
    f_equal. apply residual_ext. intros j Hj. symmetry. now apply Hpre.
  - rewrite Hpre by lia. rewrite IH by lia.
    f_equal. apply residual_ext. intros j Hj. symmetry. apply Hpre. lia.
Qed.

Variable A0 : matrix F.
Hypothesis A0_wf : wf A0.

(** Lines 62-63: the projections onto the columns before [n]. *)
Lemma gs_inner_loop (A : matrix F) n :
  wf A -> n < ncols A ->
  (forall j, j < n -> colv A j = nth j (gs_columns A0 (ncols A0)) []) ->
  wf (fold_left (fun Aj j =>
                   col_sub Aj 0 n (projection (col_from Aj 0 n) (col_from Aj 0 j)))
                (seq 0 n) A) /\
  nrows (fold_left (fun Aj j =>
                      col_sub Aj 0 n (projection (col_from Aj 0 n) (col_from Aj 0 j)))
                   (seq 0 n) A) = nrows A /\
  ncols (fold_left (fun Aj j =>
                      col_sub Aj 0 n (projection (col_from Aj 0 n) (col_from Aj 0 j)))
                   (seq 0 n) A) = ncols A /\
  colv (fold_left (fun Aj j =>
                     col_sub Aj 0 n (projection (col_from Aj 0 n) (col_from Aj 0 j)))
                  (seq 0 n) A) n = residual (gs_columns A0 (ncols A0)) n (colv A n) /\
  forall c, c <> n ->
    colv (fold_left (fun Aj j =>
                       col_sub Aj 0 n (projection (col_from Aj 0 n) (col_from Aj 0 j)))
                    (seq 0 n) A) c = colv A c.
Proof.
  intros Hwf Hn Hq.
  apply (@fold_left_seq_ind _
           (fun m B => wf B /\ nrows B = nrows A /\ ncols B = ncols A /\
                       colv B n = residual (gs_columns A0 (ncols A0)) m (colv A n) /\
                       forall c, c <> n -> colv B c = colv A c)
           (fun Aj j => col_sub Aj 0 n (projection (col_from Aj 0 n) (col_from Aj 0 j)))
           n 0 A).
  - split; [exact Hwf|]. split; [reflexivity|]. split; [reflexivity|].
    split; [reflexivity | reflexivity].
  - intros k B _ Hk (HwfB & HnB & HmB & Hcol & Hoth).
    destruct (col_sub_shape B n (projection (col_from B 0 n) (col_from B 0 k)))
      as (S1 & S2 & S3).
    split; [auto|]. split; [congruence|]. split; [congruence|]. split.
    + rewrite colv_col_sub_same;
        [| exact HwfB | lia | rewrite projection_length; apply (colv_length B k)].
      fold (colv B n) (colv B k). rewrite Hcol, (Hoth k) by lia.
      rewrite (Hq k) by lia. symmetry. apply residual_S.
    + intros c Hc. rewrite colv_col_sub_other by exact Hc. now apply Hoth.
Qed.

Lemma gs_body_done (A : matrix F) n :
  n < ncols A0 -> gs_done A0 n A ->
  gs_done A0 (S n)
    (col_assign
       (fold_left (fun Aj j =>
                     col_sub Aj 0 n (projection (col_from Aj 0 n) (col_from Aj 0 j)))
                  (seq 0 n) A)
       0 n
       (normalize
          (col_from
             (fold_left (fun Aj j =>
                           col_sub Aj 0 n (projection (col_from Aj 0 n) (col_from Aj 0 j)))
                        (seq 0 n) A)
             0 n))).
Proof.
  intros Hn (Hwf & HnA & HmA & Hlo & Hhi).
  destruct (@gs_inner_loop A n Hwf ltac:(lia) Hlo) as (I1 & I2 & I3 & I4 & I5).
  set (B := fold_left _ (seq 0 n) A) in *.
  fold (colv B n).
  split; [now apply wf_col_assign|].
  split; [rewrite col_assign_nrows; congruence|].
  split; [rewrite col_assign_ncols; congruence|].
  split.
  - intros c Hc. destruct (Nat.eq_dec c n) as [->|Hne].
    + rewrite colv_col_assign_same;
        [| exact I1 | lia | rewrite normalize_length; apply colv_length].
      rewrite I4, (Hhi n) by lia. symmetry. now apply nth_gs_columns.
    + rewrite colv_col_assign_other by exact Hne. rewrite I5 by exact Hne.
      apply Hlo. lia.
  - intros c Hc1 Hc2. rewrite colv_col_assign_other by lia.
    rewrite I5 by lia. apply Hhi; lia.
Qed.

Lemma gs_Q_done : ncols A0 <> 0 -> gs_done A0 (ncols A0) (gs_Q A0).
Proof.
  intros HN. unfold gs_Q, gs_loop.
  replace (gs_done A0 (ncols A0)) with (gs_done A0 (1 + (ncols A0 - 1)))
    by (f_equal; lia).
  refine (@fold_left_seq_ind _ (gs_done A0) _ (ncols A0 - 1) 1 _ _ _).
  - fold (colv A0 0).
    split; [now apply wf_col_assign|].
    split; [apply col_assign_nrows|]. split; [apply col_assign_ncols|].
    split.
    + intros c Hc. assert (c = 0) by lia. subst c.
      rewrite colv_col_div_same by (auto; lia).
      symmetry. rewrite nth_gs_columns by lia. reflexivity.
    + intros c Hc1 Hc2. apply colv_col_div_other. lia.
  - intros k B Hk1 Hk2 HB. apply gs_body_done; [lia | exact HB].
Qed.

(** Lines 81-82: the projection onto column [n] leaves every later
    column. *)
Lemma gsm_inner_loop (A : matrix F) n :
  wf A -> n < ncols A ->
  wf (fold_left (fun Aj j =>
                   col_sub Aj 0 j (projection (col_from Aj 0 j) (col_from Aj 0 n)))
                (seq (n + 1) (ncols A - (n + 1))) A) /\
  nrows (fold_left (fun Aj j =>
                      col_sub Aj 0 j (projection (col_from Aj 0 j) (col_from Aj 0 n)))
                   (seq (n + 1) (ncols A - (n + 1))) A) = nrows A /\
  ncols (fold_left (fun Aj j =>
                      col_sub Aj 0 j (projection (col_from Aj 0 j) (col_from Aj 0 n)))
                   (seq (n + 1) (ncols A - (n + 1))) A) = ncols A /\
  (forall c, n < c -> c < ncols A ->
     colv (fold_left (fun Aj j =>
                        col_sub Aj 0 j (projection (col_from Aj 0 j) (col_from Aj 0 n)))
                     (seq (n + 1) (ncols A - (n + 1))) A) c =
     vsub (colv A c) (projection (colv A c) (colv A n))) /\
  (forall c, c <= n ->
     colv (fold_left (fun Aj j =>
                        col_sub Aj 0 j (projection (col_from Aj 0 j) (col_from Aj 0 n)))
                     (seq (n + 1) (ncols A - (n + 1))) A) c = colv A c).
Proof.
  intros Hwf Hn.
  assert (G : (fun m B =>
                 wf B /\ nrows B = nrows A /\ ncols B = ncols A /\
                 (forall c, n < c -> c < m ->
                    colv B c = vsub (colv A c) (projection (colv A c) (colv A n))) /\
                 (forall c, c <= n \/ m <= c -> colv B c = colv A c))
              ((n + 1) + (ncols A - (n + 1)))
              (fold_left (fun Aj j =>
                            col_sub Aj 0 j (projection (col_from Aj 0 j) (col_from Aj 0 n)))
                         (seq (n + 1) (ncols A - (n + 1))) A)).
  { apply (@fold_left_seq_ind _
             (fun m B =>
                wf B /\ nrows B = nrows A /\ ncols B = ncols A /\
                (forall c, n < c -> c < m ->
                   colv B c = vsub (colv A c) (projection (colv A c) (colv A n))) /\
                (forall c, c <= n \/ m <= c -> colv B c = colv A c))).
    - split; [exact Hwf|]. split; [reflexivity|]. split; [reflexivity|].
      split; [intros c Hc1 Hc2; lia | reflexivity].
    - intros k B Hk1 Hk2 (HwfB & HnB & HmB & Hmid & Hoth).
      destruct (col_sub_shape B k (projection (col_from B 0 k) (col_from B 0 n)))
        as (S1 & S2 & S3).
      split; [auto|]. split; [congruence|]. split; [congruence|]. split.
      + intros c Hc1 Hc2. destruct (Nat.eq_dec c k) as [->|Hne].
        * rewrite colv_col_sub_same;
            [| exact HwfB | lia | rewrite projection_length; apply (colv_length B n)].
          fold (colv B k) (colv B n).
          now rewrite (Hoth k), (Hoth n) by lia.
        * rewrite colv_col_sub_other by exact Hne. apply Hmid; lia.
      + intros c Hc. rewrite colv_col_sub_other by lia. apply Hoth. lia. }
  cbv beta in G. destruct G as (G1 & G2 & G3 & G4 & G5).
  split; [exact G1|]. split; [exact G2|]. split; [exact G3|]. split.
  - intros c Hc1 Hc2. apply G4; lia.
  - intros c Hc. apply G5. now left.
Qed.

Lemma gsm_body_done (A : matrix F) n :
  n < ncols A0 -> gsm_done A0 n A ->
  gsm_done A0 (S n)
    (fold_left (fun Aj j =>
                  col_sub Aj 0 j (projection (col_from Aj 0 j) (col_from Aj 0 n)))
               (seq (n + 1) (ncols A0 - (n + 1)))
               (col_div A n (l2_norm (col_from A 0 n)))).
Proof.
  intros Hn (Hwf & HnA & HmA & Hlo & Hhi).
  set (A1 := col_div A n (l2_norm (col_from A 0 n))).
  assert (HwfA1 : wf A1) by now apply wf_col_assign.
  assert (HnA1 : nrows A1 = nrows A) by apply col_assign_nrows.
  assert (HmA1 : ncols A1 = ncols A) by apply col_assign_ncols.
  assert (Hq : colv A1 n = nth n (gs_columns A0 (ncols A0)) []).
  { unfold A1. fold (colv A n). rewrite colv_col_div_same by (auto; lia).
    rewrite (Hhi n) by lia. symmetry. now apply nth_gs_columns. }
  assert (Hrest : forall c, c <> n -> colv A1 c = colv A c)
    by (intros c Hc; now apply colv_col_div_other).
  replace (ncols A0) with (ncols A1) at 1 by congruence.
  destruct (@gsm_inner_loop A1 n HwfA1 ltac:(lia)) as (I1 & I2 & I3 & I4 & I5).
  split; [exact I1|]. split; [congruence|]. split; [congruence|]. split.
  - intros c Hc. rewrite I5 by lia.
    destruct (Nat.eq_dec c n) as [->|Hne]; [exact Hq|].
    rewrite Hrest by exact Hne. apply Hlo. lia.
  - intros c Hc1 Hc2. rewrite I4 by lia.
    rewrite Hq, Hrest, (Hhi c) by lia. symmetry. apply residual_S.
Qed.

Lemma gsm_Q_done : gsm_done A0 (ncols A0) (gsm_Q A0).
Proof.
  unfold gsm_Q, gsm_loop.
  refine (@fold_left_seq_ind _ (gsm_done A0) _ (ncols A0) 0 _ _ _).
  - split; [exact A0_wf|]. split; [reflexivity|]. split; [reflexivity|].
    split; [intros c Hc; lia | reflexivity].
  - intros k B Hk1 Hk2 HB. apply gsm_body_done; [lia | exact HB].
Qed.

(** Both loops leave the same array. *)
Lemma gs_Q_gsm_Q : ncols A0 <> 0 -> gs_Q A0 = gsm_Q A0.
Proof.
  intros HN.
  destruct (gs_Q_done HN) as (W1 & N1 & M1 & L1 & _).
  destruct gsm_Q_done as (W2 & N2 & M2 & L2 & _).
  apply matrix_ext; [exact W1 | exact W2 | congruence | congruence |].
  intros c Hc. rewrite L1, L2 by lia. reflexivity.
Qed.

End GramSchmidtAgree.

(** ** Shapes of the Gram-Schmidt factors *)

Section GramSchmidtShapes.
Context {F : Type} {SF : Scalar F}.

Lemma col_div_shape (A : matrix F) c d :
  nrows (col_div A c d) = nrows A /\ ncols (col_div A c d) = ncols A.
Proof. unfold col_div. split; [apply col_assign_nrows | apply col_assign_ncols]. Qed.

Lemma gs_loop_shape N (A : matrix F) :
  nrows (gs_loop N A) = nrows A /\ ncols (gs_loop N A) = ncols A.
Proof.
  unfold gs_loop.
  apply (fold_left_inv (fun B => nrows B = nrows A /\ ncols B = ncols A));
    [now split|].
  intros B i _ [H1 H2].
  rewrite col_assign_nrows, col_assign_ncols.
  apply (fold_left_inv (fun C => nrows C = nrows A /\ ncols C = ncols A));
    [now split|].
  intros C j _ [H3 H4].
  destruct (col_sub_shape C i (projection (col_from C 0 i) (col_from C 0 j)))
    as (S1 & S2 & _).
  split; congruence.
Qed.

Lemma gsm_loop_shape N (A : matrix F) :
  nrows (gsm_loop N A) = nrows A /\ ncols (gsm_loop N A) = ncols A.
Proof.
  unfold gsm_loop.
  apply (fold_left_inv (fun B => nrows B = nrows A /\ ncols B = ncols A));
    [now split|].
  intros B i _ [H1 H2].
  apply (fold_left_inv (fun C => nrows C = nrows A /\ ncols C = ncols A)).
  - destruct (col_div_shape B i (l2_norm (col_from B 0 i))) as [S1 S2].
    split; congruence.
  - intros C j _ [H3 H4].
    destruct (col_sub_shape C j (projection (col_from C 0 j) (col_from C 0 i)))
      as (S1 & S2 & _).
    split; congruence.
Qed.

Lemma gs_Q_shape (A0 : matrix F) :
  nrows (gs_Q A0) = nrows A0 /\ ncols (gs_Q A0) = ncols A0.
Proof.
  unfold gs_Q.
  destruct (gs_loop_shape (ncols A0) (col_div A0 0 (l2_norm (col_from A0 0 0))))
    as [H1 H2].
  destruct (col_div_shape A0 0 (l2_norm (col_from A0 0 0))) as [H3 H4].
  split; congruence.
Qed.

Lemma gsm_Q_shape (A0 : matrix F) :
  nrows (gsm_Q A0) = nrows A0 /\ ncols (gsm_Q A0) = ncols A0.
Proof. apply gsm_loop_shape. Qed.

End GramSchmidtShapes.

(** * Further theorems *)

Section Further.
Context {F : Type} {SF : Scalar F}.

(** The two Gram-Schmidt methods are one computation: on every
    rectangular array with at least one column, [gram_schmidt] returns the
    very pair [gram_schmidt_modified] returns.  Column [c] receives the
    same projections in the same order in both loops, and is normalized
    after the last of them. *)
Theorem gram_schmidt_variants_agree (self : QR F) :
  wf (cell (heap self) (backup self)) ->
  ncols (cell (heap self) (backup self)) <> 0 ->
  gram_schmidt_values self = Ok (gram_schmidt_modified_values self).
Proof.
  intros Hwf HN.
  rewrite gram_schmidt_values_eq, gram_schmidt_modified_values_eq.
  destruct (ncols (cell (heap self) (backup self)) =? 0) eqn:E;
    [apply Nat.eqb_eq in E; contradiction|].
  now rewrite (gs_Q_gsm_Q Hwf HN).
Qed.

(** The shapes the Gram-Schmidt methods return: [Q] is M by N and [R] is
    N by N, for [gram_schmidt] on an array with at least one column and
    for [gram_schmidt_modified] on every array. *)
Theorem gram_schmidt_shapes (self : QR F) :
  (ncols (cell (heap self) (backup self)) <> 0 ->
   exists Qm Rm,
     gram_schmidt_values self = Ok (Qm, Rm) /\
     shape (Arr2 Qm) = [nrows (cell (heap self) (backup self));
                        ncols (cell (heap self) (backup self))] /\
     shape (Arr2 Rm) = [ncols (cell (heap self) (backup self));
                        ncols (cell (heap self) (backup self))]) /\
  shape (Arr2 (fst (gram_schmidt_modified_values self))) =
    [nrows (cell (heap self) (backup self)); ncols (cell (heap self) (backup self))] /\
  shape (Arr2 (snd (gram_schmidt_modified_values self))) =
    [ncols (cell (heap self) (backup self)); ncols (cell (heap self) (backup self))].
Proof.
  set (A0 := cell (heap self) (backup self)) in *.
  rewrite gram_schmidt_values_eq, gram_schmidt_modified_values_eq. fold A0.
  destruct (gs_Q_shape A0) as [G1 G2]. destruct (gsm_Q_shape A0) as [H1 H2].
  split; [|split].
  - intros HN.
    destruct (ncols A0 =? 0) eqn:E; [apply Nat.eqb_eq in E; contradiction|].
    exists (gs_Q A0), (gs_R (gs_Q A0) A0). split; [reflexivity|].
    unfold gs_R, matmul. cbn [shape nrows ncols transpose tabulate].
    now rewrite G1, G2.
  - cbn [fst shape]. now rewrite H1, H2.
  - unfold gs_R, matmul. cbn [snd shape nrows ncols transpose tabulate].
    now rewrite H2.
Qed.

(** An array without columns: [gram_schmidt] raises [IndexError] at
    [self.A[:, 0]], after it has rebound [self.A] and [self.R] to two new
    copies of the backup; [gram_schmidt_modified] does not fail on it and
    returns the array itself as [Q] and an empty 0 by 0 [R]. *)
Theorem gram_schmidt_no_columns (self : QR F) :
  ncols (cell (heap self) (backup self)) = 0 ->
  snd (gram_schmidt self) = Raise IndexError /\
  heap (fst (gram_schmidt self)) =
    heap self ++ [cell (heap self) (backup self); cell (heap self) (backup self)] /\
  self_A (fst (gram_schmidt self)) = Some (length (heap self)) /\
  self_R (fst (gram_schmidt self)) = Some (Whole (S (length (heap self)))) /\
  self_Q (fst (gram_schmidt self)) = self_Q self /\
  gram_schmidt_modified_values self =
    (cell (heap self) (backup self), mk_matrix 0 0 []).
Proof.
  intros HN. rewrite gram_schmidt_eq, gram_schmidt_modified_values_eq, HN.
  cbn [Nat.eqb fst snd heap self_A self_R self_Q].
  repeat split.
  unfold gsm_Q, gsm_loop, gs_R, matmul, tabulate. rewrite HN.
  cbn [seq fold_left nrows ncols transpose tabulate map]. rewrite HN. reflexivity.
Qed.

(** The shapes [householder] returns: [Q] is M by M and [R] is M by N, or
    M by K and K by N (K = min(M, N)) when [reduce] is set. *)
Theorem householder_shapes (self : QR F) :
  shape (Arr2 (fst (householder_values self))) =
    [nrows (cell (heap self) (backup self));
     if reduce self
     then Nat.min (nrows (cell (heap self) (backup self)))
                  (ncols (cell (heap self) (backup self)))
     else nrows (cell (heap self) (backup self))] /\
  shape (Arr2 (snd (householder_values self))) =
    [if reduce self
     then Nat.min (nrows (cell (heap self) (backup self)))
                  (ncols (cell (heap self) (backup self)))
     else nrows (cell (heap self) (backup self));
     ncols (cell (heap self) (backup self))].
Proof.
  destruct (householder_values_shape self) as (S1 & S2 & S3 & S4).
  cbn [shape]. rewrite S1, S2, S3, S4. split; reflexivity.
Qed.

(** No call writes to a buffer that existed before it: an array the
    engine has handed out (a returned [Q] or [R], the backup) reads the
    same after any sequence of later calls. *)
Theorem returned_arrays_are_kept (self : QR F) (calls : list call) (r : aref) :
  aref_loc r < length (heap self) ->
  deref (heap (fold_left run_call calls self)) r = deref (heap self) r.
Proof.
  revert self. induction calls as [|c t IH]; intros self Hr; [reflexivity|].
  cbn [fold_left].
  destruct (run_call_extends self c) as (He & _ & _).
  rewrite IH by (apply extends_length in He; lia).
  now apply deref_extends.
Qed.

(** Every method starts from the backup: after any sequence of calls,
    [solve], [gram_schmidt] and [gram_schmidt_modified] return what they
    return on a fresh engine. *)
Theorem calls_start_from_backup
    (A0 : matrix F) (red : bool) (calls : list call) (b : ndarray F) :
  snd (solve (fold_left run_call calls (QR_init A0 red)) b) =
    snd (solve (QR_init A0 red) b) /\
  gram_schmidt_values (fold_left run_call calls (QR_init A0 red)) =
    gram_schmidt_values (QR_init A0 red) /\
  gram_schmidt_modified_values (fold_left run_call calls (QR_init A0 red)) =
    gram_schmidt_modified_values (QR_init A0 red).
Proof.
  assert (Hv0 : backup (QR_init A0 red) < length (heap (QR_init A0 red)))
    by (cbn; lia).
  destruct (run_calls_backup calls (QR_init A0 red) Hv0) as (_ & _ & Hr & Hc).
  split; [|split].
  - rewrite !solve_eq, !householder_values_eq. now rewrite Hc, Hr.
  - rewrite !gram_schmidt_values_eq. now rewrite Hc.
  - rewrite !gram_schmidt_modified_values_eq. now rewrite Hc.
Qed.

(** Back substitution reads [R] on and above the diagonal of its leading
    K by K block only: what lies below the diagonal, or to the right of
    column K-1, has no effect on [x]. *)
Theorem back_sub_reads_upper_triangle
    (K : nat) (Rm Rm' y : matrix F) (n : nat) (x : matrix F) :
  (forall i j, i <= j -> j < K -> mget Rm i j = mget Rm' i j) ->
  back_sub K Rm y n x = back_sub K Rm' y n x.
Proof.
  intros HR. unfold back_sub. apply fold_left_ext_in. intros x0 k _.
  unfold bs_col. apply fold_left_ext_in. intros x1 i Hi.
  apply in_rev, in_seq in Hi. unfold bs_row.
  rewrite (HR i i) by lia. f_equal. f_equal. f_equal. f_equal.
  unfold bs_acc. apply fold_left_ext_in. intros a0 j Hj.
  apply in_rev, in_seq in Hj. rewrite (HR i j) by lia. reflexivity.
Qed.

(** When every step of the elimination is skipped (each reflection vector
    of the backup has [np.isclose(v.T @ v, 0)]), [householder] returns the
    identity as [Q] and the backup itself as [R]. *)
Theorem householder_all_steps_skipped (self : QR F) :
  (forall i, i < hh_K (cell (heap self) (backup self)) ->
     isclose0 (vdot (reflection_vector (cell (heap self) (backup self)) i)
                    (reflection_vector (cell (heap self) (backup self)) i)) = true) ->
  householder_values self =
  (if reduce self
   then slice_cols (hh_K (cell (heap self) (backup self)))
                   (eye (nrows (cell (heap self) (backup self))))
   else eye (nrows (cell (heap self) (backup self))),
   if reduce self
   then slice_rows (hh_K (cell (heap self) (backup self))) (cell (heap self) (backup self))
   else cell (heap self) (backup self)).
Proof.
  set (A0 := cell (heap self) (backup self)). intros Hskip.
  assert (He : forall n, n <= hh_K A0 ->
            eliminate_upto (hh_K A0) n A0 = (A0, map (reflection_vector A0) (seq 0 n))).
  { induction n as [|n IH]; intros Hn; [reflexivity|].
    rewrite eliminate_upto_S, IH by lia.
    unfold hh_step. cbn [fst snd]. rewrite Hskip by lia. cbn [negb].
    now rewrite seq_S, map_app. }
  assert (HR : hh_R A0 = A0)
    by (unfold hh_R; rewrite eliminate_upto_all, He by lia; reflexivity).
  assert (Hvs : hh_vs A0 = map (reflection_vector A0) (seq 0 (hh_K A0)))
    by (unfold hh_vs; rewrite eliminate_upto_all, He by lia; reflexivity).
  assert (HQ : hh_Q A0 = eye (nrows A0)).
  { unfold hh_Q, build_Q. rewrite Hvs.
    apply (fold_left_inv (fun B => B = eye (nrows A0))); [reflexivity|].
    intros B i _ ->.
    apply (fold_left_inv (fun B => B = eye (nrows A0))); [reflexivity|].
    intros B [j v] Hin ->. unfold q_step. cbn [fst snd].
    apply in_combine_r in Hin. apply in_rev in Hin.
    apply in_map_iff in Hin. destruct Hin as (k & <- & Hk). apply in_seq in Hk.
    now rewrite Hskip by lia. }
  rewrite householder_values_eq. fold A0. now rewrite HR, HQ.
Qed.

End Further.

(** ** Column [c] of [Q] is a function of the columns [0 .. c] of [A] *)

Section GramSchmidtPrefix.
Context {F : Type} {SF : Scalar F}.

Lemma gs_columns_ext (A A' : matrix F) n :
  (forall j, j < n -> colv A j = colv A' j) ->
  gs_columns A n = gs_columns A' n.
Proof.
  induction n as [|n IH]; intros H; [reflexivity|].
  cbn [gs_columns]. rewrite IH by (intros j Hj; apply H; lia).
  now rewrite (H n) by lia.
Qed.

Lemma nth_gs_columns_prefix (A : matrix F) n c :
  c < n -> nth c (gs_columns A n) [] = nth c (gs_columns A (S c)) [].
Proof.
  induction n as [|n IH]; intros Hc; [lia|].
  destruct (Nat.eq_dec c n) as [->|Hne]; [reflexivity|].
  rewrite <- IH by lia. cbn [gs_columns].
  apply app_nth1. rewrite gs_columns_length. lia.
Qed.

Lemma gsm_Q_column_prefix (A A' : matrix F) c :
  wf A -> wf A' -> c < ncols A -> c < ncols A' ->
  (forall j, j <= c -> colv A j = colv A' j) ->
  colv (gsm_Q A) c = colv (gsm_Q A') c.
Proof.
  intros W W' Hc Hc' Hcols.
  destruct (gsm_Q_done W) as (_ & _ & _ & L & _).
  destruct (gsm_Q_done W') as (_ & _ & _ & L' & _).
  rewrite L, L' by assumption.
  rewrite (@nth_gs_columns_prefix A (ncols A) c), (@nth_gs_columns_prefix A' (ncols A') c)
    by assumption.
  f_equal. apply gs_columns_ext. intros j Hj. apply Hcols. lia.
Qed.

(** The self.b attribute is assigned by [solve] only. *)
Lemma run_call_keeps_b (self : QR F) (c : call) :
  is_solve c = false -> self_b (run_call self c) = self_b self.
Proof.
  destruct c; cbn [is_solve run_call]; intros H; try discriminate.
  - rewrite gram_schmidt_eq. now destruct (ncols _ =? 0).
  - now rewrite gram_schmidt_modified_eq.
  - now rewrite householder_eq.
  - unfold decompose. now rewrite householder_eq.
Qed.

(** Column [c] of the [Q] of the Gram-Schmidt methods is a function of
    the columns [0 .. c] of the array: two arrays with as many rows that
    agree on these columns get the same column [c], whatever follows it
    and however many columns there are. *)
Theorem gram_schmidt_column_prefix (self self' : QR F) (c : nat) :
  wf (cell (heap self) (backup self)) ->
  wf (cell (heap self') (backup self')) ->
  c < ncols (cell (heap self) (backup self)) ->
  c < ncols (cell (heap self') (backup self')) ->
  (forall j, j <= c ->
     colv (cell (heap self) (backup self)) j = colv (cell (heap self') (backup self')) j) ->
  colv (fst (gram_schmidt_modified_values self)) c =
    colv (fst (gram_schmidt_modified_values self')) c /\
  exists Qm Rm Qm' Rm',
    gram_schmidt_values self = Ok (Qm, Rm) /\
    gram_schmidt_values self' = Ok (Qm', Rm') /\
    colv Qm c = colv Qm' c.
Proof.
  intros W W' Hc Hc' Hcols.
  assert (HN : ncols (cell (heap self) (backup self)) <> 0) by lia.
  assert (HN' : ncols (cell (heap self') (backup self')) <> 0) by lia.
  pose proof (gsm_Q_column_prefix W W' Hc Hc' Hcols) as E.
  rewrite !gram_schmidt_modified_values_eq, !gram_schmidt_values_eq.
  cbn [fst]. split; [exact E|].
  destruct (ncols (cell (heap self) (backup self)) =? 0) eqn:E0;
    [apply Nat.eqb_eq in E0; contradiction|].
  destruct (ncols (cell (heap self') (backup self')) =? 0) eqn:E0';
    [apply Nat.eqb_eq in E0'; contradiction|].
  do 4 eexists. split; [reflexivity|]. split; [reflexivity|].
  now rewrite (gs_Q_gsm_Q W HN), (gs_Q_gsm_Q W' HN').
Qed.

(** [_backward] needs the state [solve] prepares: after any sequence of
    calls without a [solve], [self.b] has never been assigned, and
    [_backward] raises [AttributeError] and leaves the engine as it is. *)
Theorem backward_needs_solve (A0 : matrix F) (red : bool) (calls : list call) :
  forallb (fun c => negb (is_solve c)) calls = true ->
  _backward (fold_left run_call calls (QR_init A0 red)) =
  (fold_left run_call calls (QR_init A0 red), Raise AttributeError).
Proof.
  intros Hc.
  assert (Hb : self_b (fold_left run_call calls (QR_init A0 red)) = None).
  { assert (G : forall self, self_b self = None ->
                  self_b (fold_left run_call calls self) = None).
    { induction calls as [|c t IH]; intros self Hs; [exact Hs|].
      cbn [forallb] in Hc. apply andb_prop in Hc. destruct Hc as [H1 H2].
      cbn [fold_left]. apply IH; [exact H2|].
      rewrite run_call_keeps_b; [exact Hs|].
      now destruct (is_solve c). }
    apply G. reflexivity. }
  unfold _backward. rewrite Hb.
  destruct (self_R _) as [r|]; [|reflexivity].
  destruct (self_Q _) as [q|]; reflexivity.
Qed.

End GramSchmidtPrefix.

(** * Further runs on binary64 *)

Module FurtherRuns.
Import Floats Float64 Samples.
Local Open Scope float_scope.

(** The line-fit array, its first column and the array without columns
    are rectangular. *)
Lemma line_fit_wf : wf (cell (heap line_fit_engine) (backup line_fit_engine)).
Proof.
  split; [reflexivity|]. intros r Hr. vm_compute in Hr.
  do 3 (destruct r as [|r]; [reflexivity|]). lia.
Qed.

Lemma ones_column_wf : wf (cell (heap ones_column_engine) (backup ones_column_engine)).
Proof.
  split; [reflexivity|]. intros r Hr. vm_compute in Hr.
  do 3 (destruct r as [|r]; [reflexivity|]). lia.
Qed.

Lemma gram_schmidt_variants_agree_witness :
  gram_schmidt_values line_fit_engine = Ok (gram_schmidt_modified_values line_fit_engine).
Proof.
  apply gram_schmidt_variants_agree; [exact line_fit_wf | vm_compute; lia].
Defined.

Lemma gram_schmidt_shapes_witness :
  (exists Qm Rm,
     gram_schmidt_values line_fit_engine = Ok (Qm, Rm) /\
     shape (Arr2 Qm) = [3; 2]%nat /\ shape (Arr2 Rm) = [2; 2]%nat) /\
  shape (Arr2 (fst (gram_schmidt_modified_values no_columns_engine))) = [2; 0]%nat /\
  shape (Arr2 (snd (gram_schmidt_modified_values no_columns_engine))) = [0; 0]%nat.
Proof.
  destruct (@gram_schmidt_shapes _ _ line_fit_engine) as (H & _).
  destruct (H ltac:(vm_compute; lia)) as (Qm & Rm & H1 & H2 & H3).
  destruct (@gram_schmidt_shapes _ _ no_columns_engine) as (_ & G1 & G2).
  split; [|split; [exact G1 | exact G2]].
  exists Qm, Rm. split; [exact H1|]. split; [exact H2 | exact H3].
Defined.

Lemma gram_schmidt_no_columns_witness :
  snd (gram_schmidt no_columns_engine) = Raise IndexError /\
  gram_schmidt_modified_values no_columns_engine =
    (of_rows [[]; []], mk_matrix 0 0 []).
Proof.
  destruct (@gram_schmidt_no_columns _ _ no_columns_engine eq_refl)
    as (H1 & _ & _ & _ & _ & H2).
  split; [exact H1 | exact H2].
Defined.

Lemma returned_arrays_are_kept_witness :
  deref (heap (fold_left run_call [Call_solve (Arr1 [4]); Call_gram_schmidt]
                 (fst (householder scalar_engine)))) (Whole 1%nat) =
  deref (heap (fst (householder scalar_engine))) (Whole 1%nat).
Proof.
  apply returned_arrays_are_kept. vm_compute. lia.
Defined.

Lemma back_sub_reads_upper_triangle_witness :
  back_sub 2 upper_R rhs_y 1 (zeros 2 1) = back_sub 2 filled_R rhs_y 1 (zeros 2 1).
Proof.
  apply back_sub_reads_upper_triangle.
  intros i j Hij Hj.
  destruct i as [|[|i]]; destruct j as [|[|j]]; try lia; reflexivity.
Defined.

Lemma householder_all_steps_skipped_witness :
  householder_values zero_engine = (eye 1, of_rows [[0]]).
Proof.
  apply (@householder_all_steps_skipped _ _ zero_engine).
  intros i Hi. vm_compute in Hi.
  destruct i as [|i]; [reflexivity | lia].
Defined.

Lemma gram_schmidt_column_prefix_witness :
  colv (fst (gram_schmidt_modified_values line_fit_engine)) 0 =
  colv (fst (gram_schmidt_modified_values ones_column_engine)) 0.
Proof.
  apply (@gram_schmidt_column_prefix _ _ line_fit_engine ones_column_engine 0%nat).
  - exact line_fit_wf.
  - exact ones_column_wf.
  - vm_compute; lia.
  - vm_compute; lia.
  - intros j Hj. destruct j as [|j]; [reflexivity | lia].
Defined.

Lemma backward_needs_solve_witness :
  _backward (fold_left run_call [Call_householder; Call_gram_schmidt] scalar_engine) =
  (fold_left run_call [Call_householder; Call_gram_schmidt] scalar_engine,
   Raise AttributeError).
Proof.
  apply (@backward_needs_solve _ _ (of_rows [[2]]) false
           [Call_householder; Call_gram_schmidt]).
  reflexivity.
Defined.

End FurtherRuns.

(** * Further properties of the Householder loops *)

Section HouseholderColumns.
Context {F : Type} {SF : Scalar F}.

Lemma nth_col_from_at (A : matrix F) i j k :
  k < nrows A - i -> nth k (col_from A i j) fzero = mget A (i + k) j.
Proof.
  intros H. unfold col_from.
  rewrite (nth_indep _ fzero (mget A 0 j)) by (now rewrite length_map, length_seq).
  rewrite (map_nth (fun r0 => mget A r0 j) (seq i (nrows A - i)) 0 k).
  now rewrite seq_nth.
Qed.

(** A column is its rows above [i] followed by the slice [A[i:, j]]. *)
Lemma col_from_split (A : matrix F) i j :
  i <= nrows A ->
  col_from A 0 j = map (fun r => mget A r j) (seq 0 i) ++ col_from A i j.
Proof.
  intros H. unfold col_from. rewrite <- map_app, <- seq_app.
  do 2 f_equal. lia.
Qed.

Lemma list_ext_nth {A : Type} (d : A) (l l' : list A) :
  length l = length l' ->
  (forall k, k < length l -> nth k l d = nth k l' d) -> l = l'.
Proof.
  revert l'. induction l as [|x t IH]; intros [|y t'] Hl H;
    try discriminate; [reflexivity|].
  f_equal.
  - apply (H 0). cbn. lia.
  - apply IH; [now inversion Hl|].
    intros k Hk. apply (H (S k)). cbn. lia.
Qed.

Lemma vscale_length (c : F) (v : vec F) : length (vscale c v) = length v.
Proof. unfold vscale. now rewrite length_map. Qed.

Lemma vadd_length (u w : vec F) : length (vadd u w) = Nat.min (length u) (length w).
Proof. unfold vadd. now rewrite length_map, length_combine. Qed.

Lemma basis_vec_length i n : length (basis_vec i n : vec F) = n.
Proof. unfold basis_vec. now rewrite length_map, length_seq. Qed.

(** The reflection vector of step [i] is as long as the slice [A[i:, i]]. *)
Lemma reflection_vector_length (Ai : matrix F) i :
  length (reflection_vector Ai i) = nrows Ai - i.
Proof.
  unfold reflection_vector.
  rewrite vadd_length, vscale_length, basis_vec_length, col_from_length. lia.
Qed.

(** The slice a reflection has rewritten. *)
Lemma col_from_reflect_same (v : vec F) (M0 : matrix F) i j :
  wf M0 -> j < ncols M0 -> i <= nrows M0 -> length v = nrows M0 - i ->
  col_from (reflect v M0 i j) i j =
  vsub (col_from M0 i j)
       (vscale (fdiv (vdot (vscale ftwo v) (col_from M0 i j)) (vdot v v)) v).
Proof.
  intros Hwf Hj Hi Hv.
  assert (Hl : length (vsub (col_from M0 i j)
                 (vscale (fdiv (vdot (vscale ftwo v) (col_from M0 i j)) (vdot v v)) v))
               = nrows M0 - i).
  { rewrite vsub_length, vscale_length, col_from_length. lia. }
  apply (list_ext_nth fzero).
  - rewrite col_from_length, reflect_nrows. now rewrite Hl.
  - intros k Hk. rewrite col_from_length, reflect_nrows in Hk.
    rewrite nth_col_from_at by (rewrite reflect_nrows; exact Hk).
    unfold reflect, col_sub.
    rewrite mget_col_assign_in by (auto; lia).
    f_equal. lia.
Qed.

(** The rows above [i], and the other columns, are as they were. *)
Lemma col_from_reflect_other (v : vec F) (M0 : matrix F) i j c :
  c <> j -> col_from (reflect v M0 i j) 0 c = col_from M0 0 c.
Proof.
  intros Hc. apply col_from_ext; [apply reflect_nrows|].
  intros r _. apply mget_reflect_other. now left.
Qed.

Lemma col_head_reflect (v : vec F) (M0 : matrix F) i j :
  map (fun r => mget (reflect v M0 i j) r j) (seq 0 i) =
  map (fun r => mget M0 r j) (seq 0 i).
Proof.
  apply map_ext_in. intros r Hr. apply in_seq in Hr.
  apply mget_reflect_other. right. lia.
Qed.

(** After a step that is not skipped, column [i] is the one the
    reflection of column [i] produced. *)
Lemma mget_hh_step_col K (st : matrix F * list (vec F)) i r :
  i < K ->
  isclose0 (vdot (reflection_vector (fst st) i) (reflection_vector (fst st) i)) = false ->
  mget (fst (hh_step K st i)) r i =
  mget (reflect (reflection_vector (fst st) i) (fst st) i i) r i.
Proof.
  intros Hi Hc. unfold hh_step. rewrite Hc. cbn [negb fst].
  replace (K - i) with (S (K - S i)) by lia. cbn [seq fold_left].
  apply (fold_left_inv
           (fun B => mget B r i =
                     mget (reflect (reflection_vector (fst st) i) (fst st) i i) r i));
    [reflexivity|].
  intros B j Hj HB. apply in_seq in Hj.
  rewrite mget_reflect_other by lia. exact HB.
Qed.

(** The steps after [c] leave column [c] as step [c] left it. *)
Lemma mget_eliminate_upto_col K n m (A0 : matrix F) r c :
  c < n -> n <= m ->
  mget (fst (eliminate_upto K m A0)) r c = mget (fst (eliminate_upto K n A0)) r c.
Proof.
  intros Hc Hnm. induction m as [|m IH]; [lia|].
  destruct (Nat.eq_dec n (S m)) as [->|Hne]; [reflexivity|].
  rewrite eliminate_upto_S, mget_hh_step_other; [apply IH; lia | lia].
Qed.

(** The list [vs] holds the reflection vector of every step, in order. *)
Lemma nth_eliminate_upto_vs K n m (A0 : matrix F) :
  m < n ->
  nth m (snd (eliminate_upto K n A0)) [] =
  reflection_vector (fst (eliminate_upto K m A0)) m.
Proof.
  induction n as [|n IH]; intros Hm; [lia|].
  rewrite eliminate_upto_S, hh_step_vs.
  destruct (Nat.eq_dec m n) as [->|Hne].
  - rewrite app_nth2 by (rewrite eliminate_upto_length; lia).
    now rewrite eliminate_upto_length, Nat.sub_diag.
  - rewrite app_nth1 by (rewrite eliminate_upto_length; lia).
    apply IH. lia.
Qed.

Lemma in_enumerate {A : Type} (d : A) (l : list A) j x :
  In (j, x) (enumerate l) -> j < length l /\ nth j l d = x.
Proof.
  unfold enumerate. intros H.
  assert (G : forall s, In (j, x) (combine (seq s (length l)) l) ->
                s <= j /\ j < s + length l /\ nth (j - s) l d = x).
  { clear H. induction l as [|y t IH]; intros s H; [destruct H|].
    cbn [length seq combine] in H. destruct H as [H|H].
    - inversion H; subst. rewrite Nat.sub_diag. cbn. repeat split; lia.
    - destruct (IH (S s) H) as (H1 & H2 & H3).
      split; [lia|]. split; [cbn; lia|].
      replace (j - s) with (S (j - S s)) by lia. exact H3. }
  destruct (G 0 H) as (_ & H2 & H3). rewrite Nat.sub_0_r in H3. split; [lia | exact H3].
Qed.

End HouseholderColumns.

(** * Further properties in exact arithmetic *)

Module FurtherExact.
Import Reals Lra Exact ExactFacts Samples.
Local Open Scope R_scope.

Lemma not_close (x : R) : / 100000000 < x -> isclose0 x = false.
Proof.
  intros H. cbn [isclose0 real_scalar]. unfold isclose0_R.
  destruct (Rle_dec (Rabs x) (/ 100000000)) as [H0|H0]; [|reflexivity].
  exfalso. rewrite Rabs_pos_eq in H0 by lra. lra.
Qed.

Lemma not_close_nonzero (x : R) : isclose0 x = false -> x <> 0.
Proof. intros H E. rewrite E, isclose0_zero in H. discriminate. Qed.

(** A subcolumn that starts with an entry above [1e-4] gives a reflection
    vector that is not close to zero. *)
Lemma step_not_skipped (a0 : R) (t : vec R) :
  / 10000 < a0 ->
  isclose0 (vdot ((a0 + sign a0 * l2_norm (a0 :: t) * 1) :: t)
                 ((a0 + sign a0 * l2_norm (a0 :: t) * 1) :: t)) = false.
Proof.
  intros Ha. apply not_close.
  assert (Hs : sign a0 = 1).
  { unfold sign. cbn [fle fzero fone fopp real_scalar].
    destruct (Rle_dec 0 a0); [reflexivity | lra]. }
  assert (Hc : 0 <= l2_norm (a0 :: t)) by (rewrite l2_norm_sumsq; apply sqrt_pos).
  rewrite Hs, vdot_cons, vdot_self.
  pose proof (sumsq_nonneg t) as Ht.
  set (u := a0 + 1 * l2_norm (a0 :: t) * 1).
  assert (Hu : / 10000 < u) by (unfold u; lra).
  assert (H1 : / 10000 * / 10000 < u * u) by nra.
  lra.
Qed.

(** ** The Kahan accumulator over the reals *)

(** In exact arithmetic the correction term stays zero and the total is
    the plain sum. *)
Lemma kahan_fold_exact (f : nat -> R) (l : list nat) (acc : KahanSum R) :
  correction acc = 0 ->
  total (fold_left (fun a j => kahan_add a (f j)) l acc) =
    total acc + fold_left Rplus (map f l) 0 /\
  correction (fold_left (fun a j => kahan_add a (f j)) l acc) = 0.
Proof.
  revert acc. induction l as [|x t IH]; intros acc Hc; cbn [fold_left map].
  - split; [lra | exact Hc].
  - destruct (IH (kahan_add acc (f x))) as [H1 H2].
    + unfold kahan_add. cbn [correction total fadd fsub real_scalar]. rewrite Hc. lra.
    + split; [|exact H2]. rewrite H1. unfold kahan_add.
      cbn [total correction fadd fsub real_scalar].
      rewrite Hc, (fold_left_Rplus (map f t) (0 + f x)). lra.
Qed.

Lemma fold_left_Rplus_rev (l : list R) : fold_left Rplus (rev l) 0 = fold_left Rplus l 0.
Proof.
  induction l as [|x t IH]; [reflexivity|].
  cbn [rev fold_left]. rewrite fold_left_app. cbn [fold_left].
  rewrite IH, (fold_left_Rplus t (0 + x)). lra.
Qed.

Lemma bs_acc_exact K (Rm X : matrix R) i k :
  kahan_result (bs_acc K Rm X i k) =
  fold_left Rplus (map (fun j => mget Rm i j * mget X j k) (seq (S i) (K - S i))) 0.
Proof.
  unfold kahan_result, bs_acc.
  assert (H0 : correction (@KahanSum_init R real_scalar) = 0) by reflexivity.
  destruct (kahan_fold_exact (fun j => mget Rm i j * mget X j k)
              (rev (seq (S i) (K - S i))) KahanSum_init H0) as [H _].
  transitivity (total KahanSum_init +
                fold_left Rplus
                  (map (fun j => mget Rm i j * mget X j k) (rev (seq (S i) (K - S i)))) 0);
    [exact H|].
  rewrite map_rev, fold_left_Rplus_rev.
  cbn [total KahanSum_init fzero real_scalar]. lra.
Qed.

Lemma upper_row_dot_cons (Rm X : matrix R) K i k :
  (i < K)%nat ->
  upper_row_dot Rm X K i k =
  mget Rm i i * mget X i k +
  fold_left Rplus (map (fun j => mget Rm i j * mget X j k) (seq (S i) (K - S i))) 0.
Proof.
  intros H. unfold upper_row_dot.
  replace (K - i)%nat with (S (K - S i)) by lia.
  cbn [seq map fold_left fadd fmul fzero real_scalar].
  rewrite (fold_left_Rplus _ (0 + _)). lra.
Qed.

(** ** The reflection of column [i] *)

(** The coefficient [(2 * v.T @ a) / (v.T @ v)] of the reflection of the
    subcolumn [a] itself is 1. *)
Lemma reflection_coef (a0 : R) (t : vec R) :
  let v := (a0 + sign a0 * l2_norm (a0 :: t) * 1) :: t in
  isclose0 (vdot v v) = false ->
  vdot (vscale ftwo v) (a0 :: t) / vdot v v = 1.
Proof.
  intros v Hc.
  set (c := l2_norm (a0 :: t)) in *. set (s := sign a0) in *.
  assert (Hcc : c * c = a0 * a0 + sumsq t).
  { unfold c. rewrite l2_norm_sumsq, sqrt_sqrt by apply sumsq_nonneg.
    apply sumsq_cons. }
  assert (Hss : s * s = 1) by apply sign_square.
  assert (Hvv : vdot v v = 2 * (c * c) + 2 * (s * c * a0)).
  { unfold v. rewrite vdot_cons, vdot_self.
    replace (sumsq t) with (c * c - a0 * a0) by lra.
    assert (E : (s * c) * (s * c) = c * c)
      by (replace (s * c * (s * c)) with ((s * s) * (c * c)) by ring; rewrite Hss; ring).
    nra. }
  assert (Hva : vdot (vscale ftwo v) (a0 :: t) = vdot v v).
  { rewrite vdot_scale_two. unfold v at 1. rewrite vdot_cons, vdot_self, Hvv.
    replace (sumsq t) with (c * c - a0 * a0) by lra. ring. }
  rewrite Hva. apply not_close_nonzero in Hc. now field.
Qed.

Lemma nth_vsub_scale (u w : vec R) (m : R) k :
  (k < length u)%nat -> (k < length w)%nat ->
  nth k (vsub u (vscale m w)) 0 = nth k u 0 - m * nth k w 0.
Proof.
  revert w k. induction u as [|x u IH]; intros [|y w] [|k] Hu Hw;
    cbn [length] in Hu, Hw; try lia;
    cbn [vsub vscale map combine nth fst snd fsub fmul real_scalar]; [reflexivity|].
  apply (IH w k); lia.
Qed.

(** ** Reflections keep the Euclidean norm *)

Lemma vdot_comm (u w : vec R) : vdot u w = vdot w u.
Proof.
  revert w. induction u as [|x u IH]; intros [|y w]; try reflexivity.
  rewrite !vdot_cons, IH. lra.
Qed.

Lemma sumsq_app (l1 l2 : list R) : sumsq (l1 ++ l2) = sumsq l1 + sumsq l2.
Proof.
  induction l1 as [|x t IH]; cbn [app].
  - unfold sumsq at 2. cbn [map fold_left]. lra.
  - rewrite !sumsq_cons, IH. lra.
Qed.

Lemma sumsq_vsub_scale (c v : vec R) (k : R) :
  length c = length v ->
  sumsq (vsub c (vscale k v)) = sumsq c - 2 * k * vdot c v + k * k * sumsq v.
Proof.
  revert v. induction c as [|x c IH]; intros [|y v] H; try discriminate.
  - unfold sumsq, vdot. cbn. lra.
  - pose proof (IH v ltac:(now inversion H)) as E. unfold vsub, vscale in E.
    cbn [vsub vscale map combine fst snd].
    rewrite !sumsq_cons, vdot_cons, E. cbn [fsub fmul real_scalar]. ring.
Qed.

(** [c - (2 * v.T @ c) / (v.T @ v) * v] has the norm of [c]. *)
Lemma reflect_sumsq (v c : vec R) :
  length c = length v -> vdot v v <> 0 ->
  sumsq (vsub c (vscale (vdot (vscale ftwo v) c / vdot v v) v)) = sumsq c.
Proof.
  intros Hl Hne. rewrite sumsq_vsub_scale by exact Hl.
  rewrite vdot_scale_two, (vdot_comm c v). rewrite vdot_self in *.
  field. exact Hne.
Qed.

(** Line 109 on the array: the column it rewrites keeps its norm, and so
    does every other column. *)
Lemma reflect_col_sumsq (v : vec R) (M0 : matrix R) i j c :
  wf M0 -> (j < ncols M0)%nat -> (i <= nrows M0)%nat ->
  length v = (nrows M0 - i)%nat -> vdot v v <> 0 ->
  sumsq (col_from (reflect v M0 i j) 0 c) = sumsq (col_from M0 0 c).
Proof.
  intros Hwf Hj Hi Hv Hne.
  destruct (Nat.eq_dec c j) as [->|Hcj]; [|now rewrite col_from_reflect_other].
  rewrite (@col_from_split _ _ (reflect v M0 i j) i j) by (rewrite reflect_nrows; lia).
  rewrite (@col_from_split _ _ M0 i j) by lia.
  rewrite !sumsq_app, col_head_reflect, col_from_reflect_same by assumption.
  f_equal. apply reflect_sumsq; [rewrite col_from_length; lia | assumption].
Qed.

Lemma hh_step_col_sumsq K (st : matrix R * list (vec R)) i c :
  wf (fst st) -> (i < K)%nat -> (K <= nrows (fst st))%nat -> (K <= ncols (fst st))%nat ->
  sumsq (col_from (fst (hh_step K st i)) 0 c) = sumsq (col_from (fst st) 0 c).
Proof.
  intros Hwf Hi HKn HKm. unfold hh_step. cbv zeta.
  destruct (isclose0 (vdot (reflection_vector (fst st) i) (reflection_vector (fst st) i)))
    eqn:Hc; cbn [negb fst]; [reflexivity|].
  apply not_close_nonzero in Hc.
  pose proof (reflection_vector_length (fst st) i) as Hv.
  set (v := reflection_vector (fst st) i) in *.
  apply (fold_left_inv
           (fun B => wf B /\ nrows B = nrows (fst st) /\ ncols B = ncols (fst st) /\
                     sumsq (col_from B 0 c) = sumsq (col_from (fst st) 0 c))).
  - repeat split; try reflexivity; apply Hwf.
  - intros B j Hj (W & N1 & N2 & E). apply in_seq in Hj.
    split; [now apply wf_reflect|].
    split; [now rewrite reflect_nrows|].
    split; [now rewrite reflect_ncols|].
    rewrite reflect_col_sumsq; [exact E | exact W | lia | lia | congruence | exact Hc].
Qed.

Lemma eliminate_upto_col_sumsq (A0 : matrix R) n c :
  wf A0 -> (n <= hh_K A0)%nat ->
  sumsq (col_from (fst (eliminate_upto (hh_K A0) n A0)) 0 c) = sumsq (col_from A0 0 c).
Proof.
  intros Hwf. induction n as [|n IH]; intros Hn; [reflexivity|].
  rewrite eliminate_upto_S, hh_step_col_sumsq.
  - apply IH. lia.
  - now apply wf_eliminate_upto.
  - lia.
  - rewrite eliminate_upto_nrows. unfold hh_K. lia.
  - rewrite eliminate_upto_ncols. unfold hh_K. lia.
Qed.

Lemma sumsq_zeros (f : nat -> R) (l : list nat) :
  (forall x, In x l -> f x = 0) -> sumsq (map f l) = 0.
Proof.
  induction l as [|x t IH]; intros H; [unfold sumsq; reflexivity|].
  cbn [map]. rewrite sumsq_cons, IH by (intros y Hy; apply H; now right).
  rewrite (H x) by now left. lra.
Qed.

Lemma sumsq_indicator (M c : nat) :
  (c < M)%nat ->
  sumsq (map (fun r => if (r =? c)%nat then 1 else 0) (seq 0 M)) = 1.
Proof.
  intros H. replace M with (c + S (M - S c))%nat by lia.
  rewrite seq_app, map_app, sumsq_app. cbn [seq map Nat.add].
  rewrite sumsq_cons, Nat.eqb_refl, !sumsq_zeros; [lra | |].
  - intros x Hx. apply in_seq in Hx.
    destruct (Nat.eqb_spec x c); [lia | reflexivity].
  - intros x Hx. apply in_seq in Hx.
    destruct (Nat.eqb_spec x c); [lia | reflexivity].
Qed.

Lemma eye_col_sumsq (M c : nat) :
  (c < M)%nat -> sumsq (col_from (eye M) 0 c) = 1.
Proof.
  intros H. unfold col_from. cbn [nrows eye tabulate]. rewrite Nat.sub_0_r.
  rewrite (map_ext_in _ (fun r => if (r =? c)%nat then 1 else 0));
    [now apply sumsq_indicator|].
  intros r Hr. apply in_seq in Hr. unfold eye. rewrite mget_tabulate by lia.
  reflexivity.
Qed.

(** Lines 112-116: every pass rewrites a column of [Q] by a reflection,
    or leaves it. *)
Lemma hh_Q_col_sumsq (A0 : matrix R) c :
  wf A0 ->
  sumsq (col_from (hh_Q A0) 0 c) = sumsq (col_from (eye (nrows A0)) 0 c).
Proof.
  intros Hwf. unfold hh_Q, build_Q.
  assert (Hlen : length (hh_vs A0) = hh_K A0)
    by (unfold hh_vs; rewrite eliminate_upto_all; apply eliminate_upto_length).
  assert (HKM : (hh_K A0 <= nrows A0)%nat) by (unfold hh_K; lia).
  apply (fold_left_inv
           (fun B => wf B /\ nrows B = nrows A0 /\ ncols B = nrows A0 /\
                     sumsq (col_from B 0 c) = sumsq (col_from (eye (nrows A0)) 0 c))).
  - split; [apply wf_tabulate|]. repeat split; reflexivity.
  - intros B i Hi HB. apply in_seq in Hi.
    apply (fold_left_inv
             (fun B => wf B /\ nrows B = nrows A0 /\ ncols B = nrows A0 /\
                       sumsq (col_from B 0 c) = sumsq (col_from (eye (nrows A0)) 0 c)));
      [exact HB|].
    intros B' [j v] Hin (W & N1 & N2 & E).
    apply (in_enumerate []) in Hin. destruct Hin as [Hj Hv].
    rewrite length_rev, Hlen in Hj.
    rewrite rev_nth in Hv by (rewrite Hlen; exact Hj). rewrite Hlen in Hv.
    unfold hh_vs in Hv. rewrite eliminate_upto_all in Hv.
    rewrite nth_eliminate_upto_vs in Hv by lia.
    unfold q_step. cbn [fst snd].
    destruct (isclose0 (vdot v v)) eqn:Hc; cbn [negb];
      [split; [exact W | split; [exact N1 | split; [exact N2 | exact E]]]|].
    apply not_close_nonzero in Hc.
    split; [now apply wf_reflect|].
    split; [now rewrite reflect_nrows|].
    split; [now rewrite reflect_ncols|].
    rewrite reflect_col_sumsq; [exact E | exact W | lia | lia | | exact Hc].
    rewrite <- Hv, reflection_vector_length, eliminate_upto_nrows, N1.
    f_equal. lia.
Qed.

(** Column [i] of the working array after the elimination, below the
    diagonal, when step [i] is not skipped. *)
Lemma hh_R_below_zero (A0 : matrix R) (i r : nat) :
  wf A0 ->
  (i < hh_K A0)%nat ->
  isclose0 (vdot (reflection_vector (step_input A0 i) i)
                 (reflection_vector (step_input A0 i) i)) = false ->
  (i < r)%nat -> (r < nrows A0)%nat ->
  mget (hh_R A0) r i = 0.
Proof.
  intros Hwf Hi Hc Hir HrM.
  set (Ai := step_input A0 i) in *.
  assert (HwfA : wf Ai) by (apply wf_eliminate_upto; exact Hwf).
  assert (Hn : nrows Ai = nrows A0) by apply eliminate_upto_nrows.
  assert (Hm : ncols Ai = ncols A0) by apply eliminate_upto_ncols.
  assert (E : mget (hh_R A0) r i = mget (reflect (reflection_vector Ai i) Ai i i) r i).
  { unfold hh_R. rewrite eliminate_upto_all.
    rewrite (@mget_eliminate_upto_col _ _ (hh_K A0) (S i) (hh_K A0) A0 r i) by lia.
    rewrite eliminate_upto_S. now apply mget_hh_step_col. }
  rewrite E.
  destruct (col_from Ai i i) as [|a0 t] eqn:Ha.
  { rewrite col_from_cons in Ha by (unfold hh_K in Hi; lia). discriminate. }
  assert (Hlen : S (length t) = (nrows Ai - i)%nat).
  { rewrite <- (col_from_length Ai i i), Ha. reflexivity. }
  rewrite (reflection_vector_cons Ai i Ha) in Hc |- *.
  unfold reflect, col_sub. rewrite Ha.
  rewrite mget_col_assign_in;
    [ | exact HwfA | unfold hh_K in Hi; lia | lia | lia
      | rewrite vsub_length, vscale_length; cbn [length]; lia ].
  cbn [fzero fdiv real_scalar].
  rewrite nth_vsub_scale by (cbn [length]; lia).
  replace (r - i)%nat with (S (r - S i)) by lia. cbn [nth].
  rewrite (reflection_coef a0 t Hc). ring.
Qed.

(** ** Theorems *)

(** In exact arithmetic [solve] solves the triangular system it is
    documented to solve: for a 2-D right-hand side [b] with as many rows
    as [A], every row [i < K] of the returned [x] such that no pivot
    [R[j,j]] with [i <= j < K] is zero (the divisors of the rows that
    back substitution has filled when it leaves row [i]) satisfies
    [R[i, i:K] @ x[i:K, k] = (Q.T @ b)[i, k]], [Q] and [R] being the
    factors [householder] returns.  The Kahan accumulator is a plain sum
    over the reals. *)
Theorem solve_solves_triangular_system (self : QR R) (B : matrix R) (i k : nat) :
  nrows B = nrows (cell (heap self) (backup self)) ->
  (i < hh_K (cell (heap self) (backup self)))%nat ->
  (k < ncols B)%nat ->
  (forall j, (i <= j)%nat -> (j < hh_K (cell (heap self) (backup self)))%nat ->
             mget (snd (householder_values self)) j j <> 0) ->
  exists X,
    snd (solve self (Arr2 B)) = Ok (Arr2 X) /\
    upper_row_dot (snd (householder_values self)) X
                  (hh_K (cell (heap self) (backup self))) i k =
    mget (matmul (transpose (fst (householder_values self))) B) i k.
Proof.
  intros HB Hi Hk Hd.
  destruct (householder_values_shape self) as (S1 & S2 & S3 & S4). cbv zeta in *.
  set (A0 := cell (heap self) (backup self)) in *.
  set (Qv := fst (householder_values self)) in *.
  set (Rv := snd (householder_values self)) in *.
  assert (HK : Nat.min (nrows Rv) (ncols Rv) = hh_K A0).
  { rewrite S3, S4. unfold hh_K. destruct (reduce self); lia. }
  rewrite solve_eq. fold Qv Rv. rewrite backward_value_Arr2 by congruence.
  rewrite HK. eexists. split; [reflexivity|].
  assert (Hwf : wf (zeros (ncols Rv) (ncols B) : matrix R))
    by (unfold zeros; apply wf_tabulate).
  assert (HKN : (hh_K A0 <= nrows (zeros (ncols Rv) (ncols B) : matrix R))%nat).
  { cbn [nrows zeros tabulate]. rewrite S4. unfold hh_K. lia. }
  assert (Hn : (ncols B <= ncols (zeros (ncols Rv) (ncols B) : matrix R))%nat)
    by (cbn [ncols zeros tabulate]; lia).
  pose proof (@mget_back_sub R real_scalar (hh_K A0) Rv (matmul (transpose Qv) B)
                (ncols B) (zeros (ncols Rv) (ncols B)) i k Hwf HKN Hn Hi Hk) as HX.
  cbv zeta in HX.
  rewrite upper_row_dot_cons by exact Hi.
  rewrite HX, bs_acc_exact. cbn [fdiv fsub real_scalar]. field.
  apply Hd; [lia | exact Hi].
Qed.

(** In exact arithmetic a step [i] of [householder] that is not skipped
    leaves zeros below the diagonal in column [i] of the returned [R]. *)
Theorem householder_below_diagonal_zero (self : QR R) (i r : nat) :
  wf (cell (heap self) (backup self)) ->
  (i < hh_K (cell (heap self) (backup self)))%nat ->
  isclose0 (vdot (reflection_vector (step_input (cell (heap self) (backup self)) i) i)
                 (reflection_vector (step_input (cell (heap self) (backup self)) i) i))
    = false ->
  (i < r)%nat ->
  (r < nrows (snd (householder_values self)))%nat ->
  mget (snd (householder_values self)) r i = 0.
Proof.
  set (A0 := cell (heap self) (backup self)). intros Hwf Hi Hc Hir Hr.
  destruct (householder_values_shape self) as (_ & _ & S3 & _). cbv zeta in S3.
  fold A0 in S3. rewrite S3 in Hr.
  assert (HrM : (r < nrows A0)%nat)
    by (destruct (reduce self); unfold hh_K in *; lia).
  rewrite householder_values_eq. fold A0. cbn [snd].
  destruct (reduce self); [rewrite mget_slice_rows by exact Hr|];
    now apply hh_R_below_zero.
Qed.

(** In exact arithmetic the elimination keeps the Euclidean norm of
    every column: each column of the returned [R] has the norm of that
    column of [A] (when [reduce] cuts no row off, that is without
    [reduce] or for M <= N), whether steps are skipped or not. *)
Theorem householder_R_column_norms (self : QR R) (c : nat) :
  wf (cell (heap self) (backup self)) ->
  reduce self = false \/
  (nrows (cell (heap self) (backup self)) <= ncols (cell (heap self) (backup self)))%nat ->
  l2_norm (colv (snd (householder_values self)) c) =
  l2_norm (colv (cell (heap self) (backup self)) c).
Proof.
  set (A0 := cell (heap self) (backup self)). intros Hwf Hred.
  rewrite householder_values_eq. fold A0. cbn [snd]. unfold colv.
  assert (E : col_from (if reduce self then slice_rows (hh_K A0) (hh_R A0) else hh_R A0) 0 c
              = col_from (hh_R A0) 0 c).
  { destruct (reduce self); [|reflexivity].
    destruct Hred as [Hred|Hred]; [discriminate|].
    assert (HK : hh_K A0 = nrows A0) by (unfold hh_K; lia).
    apply col_from_ext.
    - cbn [nrows slice_rows]. rewrite hh_R_nrows, HK. lia.
    - intros r Hr. cbn [nrows slice_rows] in Hr. rewrite hh_R_nrows in Hr.
      apply mget_slice_rows. lia. }
  rewrite E, !l2_norm_sumsq. f_equal.
  unfold hh_R. rewrite eliminate_upto_all.
  apply eliminate_upto_col_sumsq; [exact Hwf | lia].
Qed.

(** In exact arithmetic every column of the [Q] that [householder]
    returns has Euclidean norm 1, for every rectangular [A], with or
    without [reduce], whether steps are skipped or not. *)
Theorem householder_Q_unit_columns (self : QR R) (c : nat) :
  wf (cell (heap self) (backup self)) ->
  (c < ncols (fst (householder_values self)))%nat ->
  l2_norm (colv (fst (householder_values self)) c) = 1.
Proof.
  set (A0 := cell (heap self) (backup self)). intros Hwf Hc.
  destruct (householder_values_shape self) as (_ & S2 & _ & _). cbv zeta in S2.
  fold A0 in S2. rewrite S2 in Hc.
  assert (HcM : (c < nrows A0)%nat)
    by (destruct (reduce self); unfold hh_K in *; lia).
  rewrite householder_values_eq. fold A0. cbn [fst]. unfold colv.
  assert (E : col_from (if reduce self then slice_cols (hh_K A0) (hh_Q A0) else hh_Q A0) 0 c
              = col_from (hh_Q A0) 0 c).
  { destruct (reduce self); [|reflexivity].
    apply col_from_ext; [reflexivity|].
    intros r _. now apply mget_slice_cols. }
  rewrite E, l2_norm_sumsq, hh_Q_col_sumsq, eye_col_sumsq by assumption.
  apply sqrt_1.
Qed.

(** ** Instances *)

Lemma two_engine_wf : wf (cell (heap two_engine) (backup two_engine)).
Proof. split; [reflexivity|]. intros [|r] Hr; [reflexivity|]. cbn in Hr. lia. Qed.

Lemma three_four_wf : wf (cell (heap three_four_engine) (backup three_four_engine)).
Proof.
  split; [reflexivity|]. intros r Hr. cbn in Hr.
  do 2 (destruct r as [|r]; [reflexivity|]). lia.
Qed.

Lemma three_four_subcolumn :
  col_from (step_input (cell (heap three_four_engine) (backup three_four_engine)) 0) 0 0
  = [3; 4].
Proof. reflexivity. Qed.

Lemma householder_below_diagonal_zero_witness :
  mget (snd (householder_values three_four_engine)) 1 0 = 0.
Proof.
  apply (@householder_below_diagonal_zero three_four_engine 0%nat 1%nat).
  - exact three_four_wf.
  - cbv; lia.
  - rewrite (@reflection_vector_cons _ 0%nat 3 [4] three_four_subcolumn).
    apply step_not_skipped. lra.
  - lia.
  - destruct (householder_values_shape three_four_engine) as (_ & _ & S3 & _).
    cbv zeta in S3. rewrite S3. cbv. lia.
Defined.

Lemma householder_R_column_norms_witness :
  l2_norm (colv (snd (householder_values three_four_engine)) 0) =
  l2_norm (colv (cell (heap three_four_engine) (backup three_four_engine)) 0).
Proof.
  apply (@householder_R_column_norms three_four_engine 0%nat).
  - exact three_four_wf.
  - left. reflexivity.
Defined.

Lemma householder_Q_unit_columns_witness :
  l2_norm (colv (fst (householder_values three_four_engine)) 1) = 1.
Proof.
  apply (@householder_Q_unit_columns three_four_engine 1%nat).
  - exact three_four_wf.
  - destruct (householder_values_shape three_four_engine) as (_ & S2 & _ & _).
    cbv zeta in S2. rewrite S2. cbv. lia.
Defined.

End FurtherExact.

(** * Gram-Schmidt in exact arithmetic *)

(** ** The columns and the entries of [R], for every scalar type *)

Section GramSchmidtColumns.
Context {F : Type} {SF : Scalar F}.

Lemma residual_length (qs : list (vec F)) m (a : vec F) :
  (forall j, j < m -> length (nth j qs []) = length a) ->
  length (residual qs m a) = length a.
Proof.
  induction m as [|m IH]; intros H; [reflexivity|].
  rewrite residual_S, vsub_length, projection_length, IH by (intros j Hj; apply H; lia).
  rewrite H by lia. lia.
Qed.

Lemma gs_columns_nth_length (A0 : matrix F) n c :
  c < n -> length (nth c (gs_columns A0 n) []) = nrows A0.
Proof.
  revert c. induction n as [|n IH]; intros c Hc; [lia|]. cbn [gs_columns].
  destruct (Nat.eq_dec c n) as [->|Hne].
  - rewrite app_nth2 by (rewrite gs_columns_length; lia).
    rewrite gs_columns_length, Nat.sub_diag. cbn [nth].
    rewrite normalize_length, residual_length; [apply colv_length|].
    intros j Hj. rewrite colv_length. now apply IH.
  - rewrite app_nth1 by (rewrite gs_columns_length; lia).
    apply IH. lia.
Qed.

Lemma fold_left_combine_map {A : Type} (f g : A -> F) (l : list A) (a : F) :
  fold_left (fun acc p => fadd acc (fmul (fst p) (snd p))) (combine (map f l) (map g l)) a =
  fold_left (fun acc r => fadd acc (fmul (f r) (g r))) l a.
Proof.
  revert a. induction l as [|x t IH]; intros a; [reflexivity|].
  cbn [map combine fold_left fst snd]. apply IH.
Qed.

(** The entry [(i, k)] of [Q.T @ A] is the product of column [i] of [Q]
    and column [k] of [A]. *)
Lemma mget_matmul_transpose (Qm A : matrix F) i k :
  nrows Qm = nrows A -> i < ncols Qm -> k < ncols A ->
  mget (matmul (transpose Qm) A) i k = vdot (colv Qm i) (colv A k).
Proof.
  intros Hn Hi Hk. unfold matmul.
  rewrite mget_tabulate by (cbn [nrows ncols transpose tabulate]; lia).
  cbn [ncols transpose tabulate].
  unfold vdot, colv, col_from. rewrite !Nat.sub_0_r, <- Hn.
  rewrite fold_left_combine_map. apply fold_left_ext_in.
  intros acc r Hr. apply in_seq in Hr.
  rewrite mget_transpose by lia. reflexivity.
Qed.

Lemma mget_matmul (A B : matrix F) r k :
  r < nrows A -> k < ncols B ->
  mget (matmul A B) r k =
  fold_left (fun acc i => fadd acc (fmul (mget A r i) (mget B i k))) (seq 0 (ncols A)) fzero.
Proof. intros Hr Hk. unfold matmul. now rewrite mget_tabulate. Qed.

(** Two rectangular arrays of the same shape with the same entries are
    equal. *)
Lemma matrix_ext_entries (A B : matrix F) :
  wf A -> wf B -> nrows A = nrows B -> ncols A = ncols B ->
  (forall r c, r < nrows A -> c < ncols A -> mget A r c = mget B r c) -> A = B.
Proof.
  intros WA WB Hn Hm H. apply matrix_ext; try assumption.
  intros c Hc. unfold colv. apply col_from_ext; [exact Hn|].
  intros r Hr. now apply H.
Qed.

End GramSchmidtColumns.

Section GramSchmidtPair.
Context {F : Type} {SF : Scalar F}.

(** The pair either method returns is built from the columns
    [gs_columns]. *)
Lemma gs_pair_cases (self : QR F) (Qm Rm : matrix F) :
  wf (cell (heap self) (backup self)) ->
  gram_schmidt_values self = Ok (Qm, Rm) \/ gram_schmidt_modified_values self = (Qm, Rm) ->
  Qm = gsm_Q (cell (heap self) (backup self)) /\
  Rm = gs_R (gsm_Q (cell (heap self) (backup self))) (cell (heap self) (backup self)).
Proof.
  intros Hwf [H|H].
  - rewrite gram_schmidt_values_eq in H.
    destruct (ncols (cell (heap self) (backup self)) =? 0) eqn:E; [discriminate|].
    apply Nat.eqb_neq in E. rewrite (gs_Q_gsm_Q Hwf E) in H.
    inversion H. now split.
  - rewrite gram_schmidt_modified_values_eq in H. inversion H. now split.
Qed.

End GramSchmidtPair.

(** ** Orthonormal columns, a triangular [R], and [Q @ R = A] *)

Module GramSchmidtExact.
Import Reals Lra Exact ExactFacts FurtherExact Samples.
Local Open Scope R_scope.

Lemma vdot_nil_r (u : vec R) : vdot u [] = 0.
Proof. destruct u; reflexivity. Qed.

Lemma vdot_vsub_l (u w q : vec R) :
  length u = length w -> vdot (vsub u w) q = vdot u q - vdot w q.
Proof.
  revert w q. induction u as [|x u IH]; intros [|y w] q H; try discriminate.
  - unfold vsub, vdot. cbn. lra.
  - destruct q as [|z q]; [rewrite !vdot_nil_r; lra|].
    cbn [vsub map combine fst snd]. rewrite !vdot_cons.
    pose proof (IH w q ltac:(now inversion H)) as E. unfold vsub in E. rewrite E.
    cbn [fsub real_scalar]. ring.
Qed.

Lemma vdot_vscale_l (k : R) (v q : vec R) : vdot (vscale k v) q = k * vdot v q.
Proof.
  revert q. induction v as [|x v IH]; intros [|z q];
    try (unfold vscale, vdot; cbn; lra).
  cbn [vscale map]. rewrite !vdot_cons.
  pose proof (IH q) as E. unfold vscale in E. rewrite E.
  cbn [fmul real_scalar]. ring.
Qed.

Lemma vdot_projection (u v q : vec R) :
  vdot (projection u v) q = vdot u v / vdot v v * vdot v q.
Proof. unfold projection. rewrite vdot_vscale_l. reflexivity. Qed.

Lemma vdot_map_div (d : R) (v q : vec R) :
  vdot (map (fun x => x / d) v) q = vdot v q / d.
Proof.
  revert q. induction v as [|x v IH]; intros [|z q];
    try (unfold vdot; cbn; unfold Rdiv; ring).
  cbn [map]. rewrite !vdot_cons, IH. unfold Rdiv. ring.
Qed.

Lemma vdot_normalize (v q : vec R) : vdot (normalize v) q = vdot v q / l2_norm v.
Proof. unfold normalize. apply (vdot_map_div (l2_norm v) v q). Qed.

Lemma l2_norm_square (v : vec R) : l2_norm v * l2_norm v = vdot v v.
Proof.
  rewrite l2_norm_sumsq, sqrt_sqrt by apply sumsq_nonneg.
  symmetry. apply vdot_self.
Qed.

Lemma l2_norm_nonneg (v : vec R) : 0 <= l2_norm v.
Proof. rewrite l2_norm_sumsq. apply sqrt_pos. Qed.

(** A normalized vector has norm 1, and its product with the vector it
    came from is the norm of that vector. *)
Lemma normalize_unit (v : vec R) :
  l2_norm v <> 0 -> vdot (normalize v) (normalize v) = 1.
Proof.
  intros H. rewrite vdot_normalize, (vdot_comm v (normalize v)), vdot_normalize.
  rewrite <- l2_norm_square. now field.
Qed.

Lemma vdot_self_normalize (v : vec R) :
  l2_norm v <> 0 -> vdot (normalize v) v = l2_norm v.
Proof. intros H. rewrite vdot_normalize, <- l2_norm_square. now field. Qed.

Lemma nth_normalize (v : vec R) r : nth r (normalize v) 0 = nth r v 0 / l2_norm v.
Proof.
  unfold normalize.
  replace 0 with ((fun x => x / l2_norm v) 0) at 1 by (unfold Rdiv; ring).
  apply (map_nth (fun x => x / l2_norm v)).
Qed.

(** ** Residuals against orthonormal columns *)

(** The residual against [qs[0..m-1]] is orthogonal to each of them. *)
Lemma residual_orth (qs : list (vec R)) (a : vec R) m :
  (forall j, (j < m)%nat -> length (nth j qs []) = length a) ->
  (forall j, (j < m)%nat -> vdot (nth j qs []) (nth j qs []) = 1) ->
  (forall i j, (j < i)%nat -> (i < m)%nat -> vdot (nth i qs []) (nth j qs []) = 0) ->
  forall j, (j < m)%nat -> vdot (residual qs m a) (nth j qs []) = 0.
Proof.
  induction m as [|m IH]; intros Hl Hu Ho j Hj; [lia|].
  rewrite residual_S.
  assert (Hlu : length (residual qs m a) = length a)
    by (apply residual_length; intros j0 Hj0; apply Hl; lia).
  rewrite vdot_vsub_l by (rewrite projection_length, Hlu, Hl by lia; reflexivity).
  rewrite vdot_projection, (Hu m) by lia.
  destruct (Nat.eq_dec j m) as [->|Hne].
  - rewrite (Hu m) by lia. field.
  - assert (E : vdot (residual qs m a) (nth j qs []) = 0).
    { apply IH; [intros j0 Hj0; apply Hl; lia | intros j0 Hj0; apply Hu; lia
                 | intros i0 j0 H1 H2; apply Ho; lia | lia]. }
    rewrite E, (Ho m j) by lia. field.
Qed.

(** The projections onto [qs[0..m-1]] do not change the product with a
    vector orthogonal to them. *)
Lemma residual_keeps_dot (qs : list (vec R)) (a q : vec R) m :
  (forall j, (j < m)%nat -> length (nth j qs []) = length a) ->
  (forall j, (j < m)%nat -> vdot (nth j qs []) q = 0) ->
  vdot (residual qs m a) q = vdot a q.
Proof.
  induction m as [|m IH]; intros Hl Ho; [reflexivity|].
  rewrite residual_S.
  assert (Hlu : length (residual qs m a) = length a)
    by (apply residual_length; intros j0 Hj0; apply Hl; lia).
  rewrite vdot_vsub_l by (rewrite projection_length, Hlu, Hl by lia; reflexivity).
  rewrite vdot_projection, (Ho m) by lia.
  rewrite IH by (intros j0 Hj0; first [apply Hl; lia | apply Ho; lia]).
  unfold Rdiv. ring.
Qed.

(** The entries of a residual: the projections that were subtracted. *)
Lemma residual_entry (qs : list (vec R)) (a : vec R) m r :
  (forall j, (j < m)%nat -> length (nth j qs []) = length a) ->
  (forall j, (j < m)%nat -> vdot (nth j qs []) (nth j qs []) = 1) ->
  (forall i j, (j < i)%nat -> (i < m)%nat -> vdot (nth i qs []) (nth j qs []) = 0) ->
  (r < length a)%nat ->
  nth r (residual qs m a) 0 =
  nth r a 0 -
  fold_left (fun acc j => acc + nth r (nth j qs []) 0 * vdot (nth j qs []) a) (seq 0 m) 0.
Proof.
  induction m as [|m IH]; intros Hl Hu Ho Hr; [cbn [seq fold_left]; unfold residual; cbn; lra|].
  rewrite residual_S.
  assert (Hlu : length (residual qs m a) = length a)
    by (apply residual_length; intros j0 Hj0; apply Hl; lia).
  unfold projection. cbn [fdiv real_scalar].
  rewrite nth_vsub_scale by (rewrite ?Hlu, ?Hl by lia; lia).
  rewrite IH by first [ exact Hr
                      | intros j0 Hj0; first [apply Hl; lia | apply Hu; lia]
                      | intros i0 j0 H1 H2; apply Ho; lia ].
  rewrite (Hu m) by lia.
  rewrite (@residual_keeps_dot qs a (nth m qs []) m)
    by (intros j0 Hj0; first [apply Hl; lia | rewrite vdot_comm; apply Ho; lia]).
  rewrite seq_S, fold_left_app. cbn [fold_left Nat.add].
  rewrite (vdot_comm a (nth m qs [])). field.
Qed.

Lemma fold_left_add_zero (f : nat -> R) (l : list nat) (a : R) :
  (forall i, In i l -> f i = 0) ->
  fold_left (fun acc i => acc + f i) l a = a.
Proof.
  revert a. induction l as [|x t IH]; intros a H; [reflexivity|].
  cbn [fold_left]. rewrite IH by (intros i Hi; apply H; now right).
  rewrite (H x) by now left. lra.
Qed.

(** ** The columns both loops arrive at *)

Lemma gs_columns_orthonormal (A0 : matrix R) :
  gs_regular A0 ->
  forall c, (c < ncols A0)%nat ->
    vdot (nth c (gs_columns A0 (ncols A0)) []) (nth c (gs_columns A0 (ncols A0)) []) = 1 /\
    forall j, (j < c)%nat ->
      vdot (nth c (gs_columns A0 (ncols A0)) []) (nth j (gs_columns A0 (ncols A0)) []) = 0.
Proof.
  intros Hreg.
  assert (G : forall n c, (c < n)%nat -> (c < ncols A0)%nat ->
            vdot (nth c (gs_columns A0 (ncols A0)) []) (nth c (gs_columns A0 (ncols A0)) []) = 1 /\
            forall j, (j < c)%nat ->
              vdot (nth c (gs_columns A0 (ncols A0)) [])
                   (nth j (gs_columns A0 (ncols A0)) []) = 0).
  { induction n as [|n IH]; intros c Hc HcN; [lia|].
    split.
    - rewrite (nth_gs_columns A0 HcN). apply normalize_unit. now apply Hreg.
    - intros j Hj. rewrite (nth_gs_columns A0 HcN) at 1.
      rewrite vdot_normalize, residual_orth; [unfold Rdiv; ring | | | | exact Hj].
      + intros j0 Hj0. rewrite colv_length. apply gs_columns_nth_length. lia.
      + intros j0 Hj0. apply IH; lia.
      + intros i0 j0 H1 H2. apply IH; lia. }
  intros c Hc. apply (G (S c)); lia.
Qed.

(** Any two different columns are orthogonal. *)
Lemma gs_columns_orth (A0 : matrix R) i j :
  gs_regular A0 -> (i < ncols A0)%nat -> (j < ncols A0)%nat -> i <> j ->
  vdot (nth i (gs_columns A0 (ncols A0)) []) (nth j (gs_columns A0 (ncols A0)) []) = 0.
Proof.
  intros Hreg Hi Hj Hne.
  destruct (Nat.lt_ge_cases j i) as [H|H].
  - now apply (gs_columns_orthonormal Hreg).
  - rewrite vdot_comm. apply (gs_columns_orthonormal Hreg); lia.
Qed.

(** The product of column [i] with the residual of column [k <= i] is
    its product with [A[:, k]]. *)
Lemma gs_dot_residual (A0 : matrix R) i k :
  gs_regular A0 -> (i < ncols A0)%nat -> (k <= i)%nat ->
  vdot (residual (gs_columns A0 (ncols A0)) k (colv A0 k))
       (nth i (gs_columns A0 (ncols A0)) []) =
  vdot (colv A0 k) (nth i (gs_columns A0 (ncols A0)) []).
Proof.
  intros Hreg Hi Hk. apply residual_keeps_dot.
  - intros j Hj. rewrite colv_length. apply gs_columns_nth_length. lia.
  - intros j Hj. apply gs_columns_orth; auto; lia.
Qed.

(** The entries of [R = Q.T @ A] below the diagonal, and on it. *)
Lemma gs_R_lower (A0 : matrix R) i k :
  gs_regular A0 -> (i < ncols A0)%nat -> (k < i)%nat ->
  vdot (nth i (gs_columns A0 (ncols A0)) []) (colv A0 k) = 0.
Proof.
  intros Hreg Hi Hk.
  rewrite vdot_comm, <- gs_dot_residual by (auto; lia).
  assert (E : vdot (nth k (gs_columns A0 (ncols A0)) [])
                   (nth i (gs_columns A0 (ncols A0)) []) = 0)
    by (apply gs_columns_orth; auto; lia).
  rewrite (@nth_gs_columns _ _ A0 (ncols A0) k) in E by lia.
  rewrite vdot_normalize in E.
  assert (Hd : l2_norm (residual (gs_columns A0 (ncols A0)) k (colv A0 k)) <> 0)
    by (apply Hreg; lia).
  apply (Rmult_eq_compat_r
           (l2_norm (residual (gs_columns A0 (ncols A0)) k (colv A0 k)))) in E.
  rewrite Rmult_0_l in E. rewrite <- E. now field.
Qed.

Lemma gs_R_diag (A0 : matrix R) i :
  gs_regular A0 -> (i < ncols A0)%nat ->
  vdot (nth i (gs_columns A0 (ncols A0)) []) (colv A0 i) =
  l2_norm (residual (gs_columns A0 (ncols A0)) i (colv A0 i)).
Proof.
  intros Hreg Hi.
  rewrite vdot_comm, <- gs_dot_residual by (auto; lia).
  rewrite (@nth_gs_columns _ _ A0 (ncols A0) i) by lia.
  rewrite vdot_comm. apply vdot_self_normalize. now apply Hreg.
Qed.

(** A column of [A] is the combination of the columns of [Q] with the
    entries of [R] as coefficients. *)
Lemma gs_column_expansion (A0 : matrix R) k r :
  gs_regular A0 -> (k < ncols A0)%nat -> (r < nrows A0)%nat ->
  fold_left (fun acc i =>
               acc + nth r (nth i (gs_columns A0 (ncols A0)) []) 0
                     * vdot (nth i (gs_columns A0 (ncols A0)) []) (colv A0 k))
            (seq 0 (ncols A0)) 0 =
  nth r (colv A0 k) 0.
Proof.
  intros Hreg Hk Hr.
  replace (ncols A0) with (S k + (ncols A0 - S k))%nat at 1 by lia.
  rewrite seq_app, fold_left_app.
  rewrite fold_left_add_zero.
  2:{ intros i Hi. apply in_seq in Hi.
      rewrite gs_R_lower by (auto; lia). ring. }
  rewrite seq_S, fold_left_app. cbn [fold_left Nat.add].
  assert (E : nth r (residual (gs_columns A0 (ncols A0)) k (colv A0 k)) 0 =
              nth r (colv A0 k) 0 -
              fold_left (fun acc j =>
                           acc + nth r (nth j (gs_columns A0 (ncols A0)) []) 0
                                 * vdot (nth j (gs_columns A0 (ncols A0)) []) (colv A0 k))
                        (seq 0 k) 0).
  { apply residual_entry.
    - intros j Hj. rewrite colv_length. apply gs_columns_nth_length. lia.
    - intros j Hj. apply (gs_columns_orthonormal Hreg). lia.
    - intros i j H1 H2. apply (gs_columns_orthonormal Hreg); lia.
    - rewrite colv_length. exact Hr. }
  assert (Hq : nth r (nth k (gs_columns A0 (ncols A0)) []) 0 =
               nth r (residual (gs_columns A0 (ncols A0)) k (colv A0 k)) 0 /
               l2_norm (residual (gs_columns A0 (ncols A0)) k (colv A0 k))).
  { rewrite (@nth_gs_columns _ _ A0 (ncols A0) k) at 1 by lia. apply nth_normalize. }
  assert (Hd : l2_norm (residual (gs_columns A0 (ncols A0)) k (colv A0 k)) <> 0)
    by (apply Hreg; lia).
  rewrite Hq, gs_R_diag, E by (auto; lia).
  field. exact Hd.
Qed.

(** ** Theorems *)

(** The pair built from the columns [gs_columns]: [Q @ R = A], and the
    diagonal of [R] is positive. *)
Lemma gsm_pair_reconstructs (A0 : matrix R) :
  wf A0 -> gs_regular A0 -> matmul (gsm_Q A0) (gs_R (gsm_Q A0) A0) = A0.
Proof.
  intros Hwf Hreg.
  destruct (gsm_Q_done Hwf) as (_ & NQ & MQ & L & _).
  apply matrix_ext_entries.
  - unfold matmul. apply wf_tabulate.
  - exact Hwf.
  - exact NQ.
  - reflexivity.
  - intros r c Hr Hc.
    change (nrows (matmul (gsm_Q A0) (gs_R (gsm_Q A0) A0))) with (nrows (gsm_Q A0)) in Hr.
    change (ncols (matmul (gsm_Q A0) (gs_R (gsm_Q A0) A0))) with (ncols A0) in Hc.
    rewrite mget_matmul by (try exact Hr; exact Hc). rewrite MQ.
    transitivity
      (fold_left (fun acc i =>
                    acc + nth r (nth i (gs_columns A0 (ncols A0)) []) 0
                          * vdot (nth i (gs_columns A0 (ncols A0)) []) (colv A0 c))
                 (seq 0 (ncols A0)) 0).
    + apply fold_left_ext_in. intros acc i Hi. apply in_seq in Hi.
      rewrite <- (nth_colv (gsm_Q A0) i Hr), L by lia.
      unfold gs_R. rewrite mget_matmul_transpose by (try exact NQ; lia).
      rewrite L by lia. reflexivity.
    + rewrite gs_column_expansion by (auto; lia).
      exact (@nth_colv R real_scalar A0 c r ltac:(lia)).
Qed.


(** In exact arithmetic the columns of the [Q] that [gram_schmidt] or
    [gram_schmidt_modified] returns are orthonormal, for every
    rectangular [A] on which no normalization divides by zero. *)
Theorem gram_schmidt_orthonormal (self : QR R) (Qm Rm : matrix R) (i j : nat) :
  wf (cell (heap self) (backup self)) ->
  gs_regular (cell (heap self) (backup self)) ->
  gram_schmidt_values self = Ok (Qm, Rm) \/ gram_schmidt_modified_values self = (Qm, Rm) ->
  (i < ncols (cell (heap self) (backup self)))%nat ->
  (j < ncols (cell (heap self) (backup self)))%nat ->
  vdot (colv Qm i) (colv Qm j) = if (i =? j)%nat then 1 else 0.
Proof.
  intros Hwf Hreg Hp Hi Hj.
  destruct (@gs_pair_cases _ _ self Qm Rm Hwf Hp) as [-> _].
  destruct (gsm_Q_done Hwf) as (_ & _ & _ & L & _).
  rewrite !L by assumption.
  destruct (Nat.eqb_spec i j) as [->|Hne].
  - now apply (gs_columns_orthonormal Hreg).
  - now apply gs_columns_orth.
Qed.

(** In exact arithmetic the [R] that [gram_schmidt] or
    [gram_schmidt_modified] returns is upper triangular with a positive
    diagonal, for every rectangular [A] on which no normalization divides
    by zero. *)
Theorem gram_schmidt_R_triangular (self : QR R) (Qm Rm : matrix R) (i : nat) :
  wf (cell (heap self) (backup self)) ->
  gs_regular (cell (heap self) (backup self)) ->
  gram_schmidt_values self = Ok (Qm, Rm) \/ gram_schmidt_modified_values self = (Qm, Rm) ->
  (i < ncols (cell (heap self) (backup self)))%nat ->
  0 < mget Rm i i /\ forall k, (k < i)%nat -> mget Rm i k = 0.
Proof.
  intros Hwf Hreg Hp Hi.
  destruct (@gs_pair_cases _ _ self Qm Rm Hwf Hp) as [-> ->].
  set (A0 := cell (heap self) (backup self)) in *.
  destruct (gsm_Q_done Hwf) as (_ & NQ & MQ & L & _).
  assert (HR : forall k, (k < ncols A0)%nat ->
            mget (gs_R (gsm_Q A0) A0) i k =
            vdot (nth i (gs_columns A0 (ncols A0)) []) (colv A0 k)).
  { intros k Hk. unfold gs_R.
    rewrite mget_matmul_transpose by (try exact NQ; lia).
    now rewrite L. }
  split.
  - rewrite HR, gs_R_diag by assumption.
    pose proof (l2_norm_nonneg (residual (gs_columns A0 (ncols A0)) i (colv A0 i))) as H0.
    pose proof (Hreg i Hi) as H1. cbn [fzero real_scalar] in H1. lra.
  - intros k Hk. rewrite HR by lia. now apply gs_R_lower.
Qed.

(** In exact arithmetic [gram_schmidt] and [gram_schmidt_modified]
    factorize: the returned pair satisfies [Q @ R = A], for every
    rectangular [A] on which no normalization divides by zero. *)
Theorem gram_schmidt_reconstructs (self : QR R) (Qm Rm : matrix R) :
  wf (cell (heap self) (backup self)) ->
  gs_regular (cell (heap self) (backup self)) ->
  gram_schmidt_values self = Ok (Qm, Rm) \/ gram_schmidt_modified_values self = (Qm, Rm) ->
  matmul Qm Rm = cell (heap self) (backup self).
Proof.
  intros Hwf Hreg Hp.
  destruct (@gs_pair_cases _ _ self Qm Rm Hwf Hp) as [-> ->].
  now apply gsm_pair_reconstructs.
Qed.

(** ** An instance: the 2 by 2 identity *)

Lemma sumsq_ge_entry (v : vec R) k : nth k v 0 * nth k v 0 <= sumsq v.
Proof.
  revert k. induction v as [|x v IH]; intros [|k]; cbn [nth];
    try (unfold sumsq; cbn; lra).
  - rewrite sumsq_cons. pose proof (sumsq_nonneg v). lra.
  - rewrite sumsq_cons. pose proof (IH k). nra.
Qed.

Lemma l2_norm_nonzero (v : vec R) k : nth k v 0 <> 0 -> l2_norm v <> 0.
Proof.
  intros H. rewrite l2_norm_sumsq.
  assert (H0 : 0 < sumsq v) by (pose proof (sumsq_ge_entry v k); nra).
  pose proof (sqrt_lt_R0 _ H0). lra.
Qed.

Lemma identity_two_wf : wf (cell (heap identity_two_engine) (backup identity_two_engine)).
Proof.
  split; [reflexivity|]. intros r Hr. cbn in Hr.
  do 2 (destruct r as [|r]; [reflexivity|]). lia.
Qed.

Lemma identity_two_regular :
  gs_regular (cell (heap identity_two_engine) (backup identity_two_engine)).
Proof.
  change (cell (heap identity_two_engine) (backup identity_two_engine)) with identity_two.
  intros c Hc. change (ncols identity_two) with 2%nat in *.
  destruct c as [|[|c]]; [| |lia].
  - apply (@l2_norm_nonzero _ 0%nat).
    change (nth 0 (residual (gs_columns identity_two 2) 0 (colv identity_two 0)) 0) with 1.
    lra.
  - apply (@l2_norm_nonzero _ 1%nat).
    rewrite residual_S.
    change (residual (gs_columns identity_two 2) 0 (colv identity_two 1)) with [0; 1].
    rewrite (@nth_gs_columns _ _ identity_two 2 0) by lia.
    change (residual (gs_columns identity_two 2) 0 (colv identity_two 0)) with [1; 0].
    unfold projection. cbn [fdiv real_scalar].
    rewrite nth_vsub_scale by (rewrite ?normalize_length; cbn [length]; lia).
    rewrite nth_normalize.
    cbn [nth]. unfold Rdiv. rewrite Rmult_0_l, Rmult_0_r. lra.
Qed.

Lemma gram_schmidt_orthonormal_witness :
  vdot (colv (fst (gram_schmidt_modified_values identity_two_engine)) 0)
       (colv (fst (gram_schmidt_modified_values identity_two_engine)) 1) = 0.
Proof.
  apply (@gram_schmidt_orthonormal identity_two_engine
           (fst (gram_schmidt_modified_values identity_two_engine))
           (snd (gram_schmidt_modified_values identity_two_engine)) 0%nat 1%nat).
  - exact identity_two_wf.
  - exact identity_two_regular.
  - right. apply surjective_pairing.
  - cbv; lia.
  - cbv; lia.
Defined.

Lemma gram_schmidt_R_triangular_witness :
  0 < mget (snd (gram_schmidt_modified_values identity_two_engine)) 1 1 /\
  forall k, (k < 1)%nat ->
    mget (snd (gram_schmidt_modified_values identity_two_engine)) 1 k = 0.
Proof.
  apply (@gram_schmidt_R_triangular identity_two_engine
           (fst (gram_schmidt_modified_values identity_two_engine))
           (snd (gram_schmidt_modified_values identity_two_engine)) 1%nat).
  - exact identity_two_wf.
  - exact identity_two_regular.
  - right. apply surjective_pairing.
  - cbv; lia.
Defined.

Lemma gram_schmidt_reconstructs_witness :
  matmul (fst (gram_schmidt_modified_values identity_two_engine))
         (snd (gram_schmidt_modified_values identity_two_engine)) = identity_two.
Proof.
  apply (@gram_schmidt_reconstructs identity_two_engine
           (fst (gram_schmidt_modified_values identity_two_engine))
           (snd (gram_schmidt_modified_values identity_two_engine))).
  - exact identity_two_wf.
  - exact identity_two_regular.
  - right. apply surjective_pairing.
Defined.

End GramSchmidtExact.

(** * Householder in exact arithmetic: [Q @ R] against [A] *)

(** ** The loops on whole columns, for every scalar type *)

Section HouseholderOnColumns.
Context {F : Type} {SF : Scalar F}.

Lemma firstn_app_exact {A : Type} (i : nat) (l1 l2 : list A) :
  length l1 = i -> firstn i (l1 ++ l2) = l1.
Proof.
  intros <-. induction l1 as [|x t IH]; [reflexivity|]. cbn. now rewrite IH.
Qed.

Lemma skipn_app_exact {A : Type} (i : nat) (l1 l2 : list A) :
  length l1 = i -> skipn i (l1 ++ l2) = l2.
Proof. intros <-. induction l1 as [|x t IH]; [reflexivity|]. exact IH. Qed.

(** Line 109 on the array is [reflect_vec] on the column it rewrites. *)
Lemma colv_reflect_same (v : vec F) (M0 : matrix F) i j :
  wf M0 -> j < ncols M0 -> i <= nrows M0 -> length v = nrows M0 - i ->
  colv (reflect v M0 i j) j = reflect_vec v i (colv M0 j).
Proof.
  intros Hwf Hj Hi Hv. unfold colv.
  rewrite (@col_from_split _ _ (reflect v M0 i j) i j) by (rewrite reflect_nrows; lia).
  rewrite col_head_reflect, col_from_reflect_same by assumption.
  unfold reflect_vec. rewrite (@col_from_split _ _ M0 i j) by lia.
  assert (Hl : length (map (fun r => mget M0 r j) (seq 0 i)) = i)
    by (now rewrite length_map, length_seq).
  rewrite firstn_app_exact, !skipn_app_exact by exact Hl. reflexivity.
Qed.

Lemma colv_reflect_other (v : vec F) (M0 : matrix F) i j c :
  c <> j -> colv (reflect v M0 i j) c = colv M0 c.
Proof. apply col_from_reflect_other. Qed.

(** Lines 108-109: a step that is not skipped reflects the columns
    [i .. K-1] and leaves the others. *)
Lemma hh_step_colv K (st : matrix F * list (vec F)) i k :
  wf (fst st) -> i < K -> K <= nrows (fst st) -> K <= ncols (fst st) ->
  isclose0 (vdot (reflection_vector (fst st) i) (reflection_vector (fst st) i)) = false ->
  colv (fst (hh_step K st i)) k =
  if (i <=? k) && (k <? K)
  then reflect_vec (reflection_vector (fst st) i) i (colv (fst st) k)
  else colv (fst st) k.
Proof.
  intros Hwf Hi HKn HKm Hc. unfold hh_step. cbv zeta. rewrite Hc. cbn [negb fst].
  pose proof (reflection_vector_length (fst st) i) as Hv.
  set (v := reflection_vector (fst st) i) in *.
  set (P := fun (n : nat) (B : matrix F) =>
              wf B /\ nrows B = nrows (fst st) /\ ncols B = ncols (fst st) /\
              forall c, colv B c =
                        if (i <=? c) && (c <? n)
                        then reflect_vec v i (colv (fst st) c)
                        else colv (fst st) c).
  assert (G : P (i + (K - i))
                (fold_left (fun Aj j => reflect v Aj i j) (seq i (K - i)) (fst st))).
  { apply (@fold_left_seq_ind _ P).
    - split; [exact Hwf|]. split; [reflexivity|]. split; [reflexivity|].
      intros c. destruct (i <=? c) eqn:E1; destruct (c <? i) eqn:E2; try reflexivity.
      apply Nat.leb_le in E1. apply Nat.ltb_lt in E2. lia.
    - intros j B Hj1 Hj2 (W & N1 & N2 & HB).
      split; [now apply wf_reflect|].
      split; [now rewrite reflect_nrows|].
      split; [now rewrite reflect_ncols|].
      intros c. destruct (Nat.eq_dec c j) as [->|Hne].
      + rewrite colv_reflect_same by (auto; lia).
        rewrite HB.
        replace (j <? j) with false by (symmetry; apply Nat.ltb_ge; lia).
        replace (i <=? j) with true by (symmetry; apply Nat.leb_le; lia).
        replace (j <? S j) with true by (symmetry; apply Nat.ltb_lt; lia).
        rewrite andb_false_r. reflexivity.
      + rewrite colv_reflect_other by exact Hne. rewrite HB.
        replace (c <? S j) with (c <? j); [reflexivity|].
        destruct (c <? j) eqn:E; symmetry.
        * apply Nat.ltb_lt in E. apply Nat.ltb_lt. lia.
        * apply Nat.ltb_ge in E. apply Nat.ltb_ge. lia. }
  destruct G as (_ & _ & _ & G).
  replace (i + (K - i)) with K in G by lia. apply G.
Qed.

(** [colv (eye M) c] is the basis vector [c]. *)
Lemma colv_eye M c : c < M -> colv (eye M) c = (basis_vec c M : vec F).
Proof.
  intros H. unfold colv, col_from, basis_vec.
  cbn [nrows eye tabulate]. rewrite Nat.sub_0_r.
  apply map_ext_in. intros r Hr. apply in_seq in Hr.
  unfold eye. now rewrite mget_tabulate by lia.
Qed.

Lemma hh_vs_length (A0 : matrix F) : length (hh_vs A0) = hh_K A0.
Proof. unfold hh_vs. rewrite eliminate_upto_all. apply eliminate_upto_length. Qed.

Lemma hh_vs_nth (A0 : matrix F) i :
  i < hh_K A0 ->
  nth i (hh_vs A0) [] = reflection_vector (fst (eliminate_upto (hh_K A0) i A0)) i.
Proof.
  intros H. unfold hh_vs. rewrite eliminate_upto_all. now apply nth_eliminate_upto_vs.
Qed.

Lemma hh_vs_nth_length (A0 : matrix F) i :
  i < hh_K A0 -> length (nth i (hh_vs A0) []) = nrows A0 - i.
Proof.
  intros H. rewrite hh_vs_nth by exact H.
  now rewrite reflection_vector_length, eliminate_upto_nrows.
Qed.

(** Column [k < K] after the steps [0 .. n-1], none of them skipped: the
    reflections of the steps [i <= k], in order. *)
Lemma eliminate_upto_colv (A0 : matrix F) n k :
  wf A0 -> hh_regular A0 -> n <= hh_K A0 -> k < hh_K A0 ->
  colv (fst (eliminate_upto (hh_K A0) n A0)) k =
  fold_left (fun x i => reflect_vec (nth i (hh_vs A0) []) i x)
            (seq 0 (Nat.min n (S k))) (colv A0 k).
Proof.
  intros Hwf Hreg Hn Hk. induction n as [|n IH]; [reflexivity|].
  assert (Hc : isclose0
                 (vdot (reflection_vector (fst (eliminate_upto (hh_K A0) n A0)) n)
                       (reflection_vector (fst (eliminate_upto (hh_K A0) n A0)) n)) = false).
  { rewrite <- hh_vs_nth by lia. apply Hreg. lia. }
  rewrite eliminate_upto_S, hh_step_colv;
    [ | now apply wf_eliminate_upto | lia
      | rewrite eliminate_upto_nrows; unfold hh_K; lia
      | rewrite eliminate_upto_ncols; unfold hh_K; lia
      | exact Hc ].
  replace (k <? hh_K A0) with true by (symmetry; apply Nat.ltb_lt; lia).
  rewrite andb_true_r, IH by lia.
  destruct (n <=? k) eqn:E.
  - apply Nat.leb_le in E.
    replace (Nat.min (S n) (S k)) with (S n) by lia.
    replace (Nat.min n (S k)) with n by lia.
    rewrite seq_S, fold_left_app. cbn [fold_left Nat.add].
    now rewrite hh_vs_nth by lia.
  - apply Nat.leb_gt in E. f_equal. f_equal. lia.
Qed.

Lemma hh_R_colv (A0 : matrix F) k :
  wf A0 -> hh_regular A0 -> k < hh_K A0 ->
  colv (hh_R A0) k =
  fold_left (fun x i => reflect_vec (nth i (hh_vs A0) []) i x) (seq 0 (S k)) (colv A0 k).
Proof.
  intros Hwf Hreg Hk. unfold hh_R. rewrite eliminate_upto_all.
  rewrite eliminate_upto_colv by (auto; lia).
  f_equal. f_equal. lia.
Qed.

(** Lines 114-116 for one column [i]: every pair of the list reflects
    column [i] and leaves the others. *)
Lemma q_fold_colv K i (l : list (nat * vec F)) :
  forall B : matrix F,
    wf B -> i < ncols B ->
    (forall jv, In jv l ->
       K - fst jv - 1 <= nrows B /\
       length (snd jv) = nrows B - (K - fst jv - 1) /\
       isclose0 (vdot (snd jv) (snd jv)) = false) ->
    wf (fold_left (q_step K i) l B) /\
    nrows (fold_left (q_step K i) l B) = nrows B /\
    ncols (fold_left (q_step K i) l B) = ncols B /\
    colv (fold_left (q_step K i) l B) i =
      fold_left (fun x jv => reflect_vec (snd jv) (K - fst jv - 1) x) l (colv B i) /\
    forall c, c <> i -> colv (fold_left (q_step K i) l B) c = colv B c.
Proof.
  induction l as [|[j v] l IH]; intros B W Hi Hl; cbn [fold_left].
  - split; [exact W|]. split; [reflexivity|]. split; [reflexivity|].
    split; [reflexivity|]. intros c _. reflexivity.
  - destruct (Hl (j, v) (or_introl eq_refl)) as (H1 & H2 & H3). cbn [fst snd] in H1, H2, H3.
    assert (E : q_step K i B (j, v) = reflect v B (K - j - 1) i)
      by (unfold q_step; cbn [fst snd]; now rewrite H3).
    rewrite E.
    destruct (IH (reflect v B (K - j - 1) i)) as (W' & N1 & N2 & C1 & C2).
    + now apply wf_reflect.
    + now rewrite reflect_ncols.
    + intros jv Hin. rewrite reflect_nrows. apply Hl. now right.
    + split; [exact W'|]. split; [now rewrite N1, reflect_nrows|].
      split; [now rewrite N2, reflect_ncols|]. split.
      * rewrite C1, colv_reflect_same by assumption. reflexivity.
      * intros c Hc. rewrite C2 by exact Hc. now apply colv_reflect_other.
Qed.

(** Lines 113-116: the columns of [Q] one after the other. *)
Lemma build_Q_colv K (vs : list (vec F)) M (Q0 : matrix F) c :
  wf Q0 -> nrows Q0 = M -> ncols Q0 = M ->
  (forall jv, In jv (enumerate (rev vs)) ->
     K - fst jv - 1 <= M /\
     length (snd jv) = M - (K - fst jv - 1) /\
     isclose0 (vdot (snd jv) (snd jv)) = false) ->
  c < M ->
  colv (build_Q K vs M Q0) c =
  fold_left (fun x jv => reflect_vec (snd jv) (K - fst jv - 1) x)
            (enumerate (rev vs)) (colv Q0 c).
Proof.
  intros W N1 N2 Hl Hc. unfold build_Q.
  set (T := fold_left (fun x jv => reflect_vec (snd jv) (K - fst jv - 1) x)
                      (enumerate (rev vs))).
  set (P := fun (n : nat) (B : matrix F) =>
              wf B /\ nrows B = M /\ ncols B = M /\
              forall c0, colv B c0 = if c0 <? n then T (colv Q0 c0) else colv Q0 c0).
  assert (G : P (0 + M)
                (fold_left (fun Qi i => fold_left (q_step K i) (enumerate (rev vs)) Qi)
                           (seq 0 M) Q0)).
  { apply (@fold_left_seq_ind _ P).
    - split; [exact W|]. split; [exact N1|]. split; [exact N2|]. reflexivity.
    - intros i B _ Hi (WB & NB1 & NB2 & HB).
      destruct (@q_fold_colv K i (enumerate (rev vs)) B WB ltac:(lia)) as (W' & M1 & M2 & C1 & C2).
      { intros jv Hin. rewrite NB1. now apply Hl. }
      split; [exact W'|]. split; [congruence|]. split; [congruence|].
      intros c0. destruct (Nat.eq_dec c0 i) as [->|Hne].
      + rewrite C1, HB.
        replace (i <? i) with false by (symmetry; apply Nat.ltb_ge; lia).
        replace (i <? S i) with true by (symmetry; apply Nat.ltb_lt; lia).
        reflexivity.
      + rewrite C2, HB by exact Hne.
        replace (c0 <? S i) with (c0 <? i); [reflexivity|].
        destruct (c0 <? i) eqn:E; symmetry.
        * apply Nat.ltb_lt in E. apply Nat.ltb_lt. lia.
        * apply Nat.ltb_ge in E. apply Nat.ltb_ge. lia. }
  destruct G as (_ & _ & _ & G). rewrite G.
  replace (c <? 0 + M) with true by (symmetry; apply Nat.ltb_lt; lia).
  reflexivity.
Qed.

(** [enumerate] with another first index. *)
Lemma fold_combine_shift {X : Type} (l : list (vec F)) :
  forall (h : nat -> vec F -> X -> X) s x0,
    fold_left (fun x jv => h (fst jv) (snd jv) x) (combine (seq s (length l)) l) x0 =
    fold_left (fun x jv => h (s + fst jv) (snd jv) x) (combine (seq 0 (length l)) l) x0.
Proof.
  induction l as [|a l IH]; intros h s x0; [reflexivity|].
  cbn [length seq combine fold_left fst snd]. rewrite Nat.add_0_r.
  rewrite (IH h (S s)).
  etransitivity; [|symmetry; exact (IH (fun j => h (s + j)) 1 (h s a x0))].
  apply fold_left_ext_in. intros x jv _. cbv beta. f_equal. lia.
Qed.

(** The loop over [enumerate(reversed(vs))] visits the steps [K-1],
    ..., [0]: the pair [(j, v)] is [(j, vs[K-1-j])]. *)
Lemma fold_enumerate_rev {X : Type} (g : nat -> vec F -> X -> X) (vs : list (vec F)) :
  forall x0,
    fold_left (fun x jv => g (length vs - fst jv - 1) (snd jv) x) (enumerate (rev vs)) x0 =
    fold_left (fun x m => g m (nth m vs []) x) (rev (seq 0 (length vs))) x0.
Proof.
  induction vs as [|v vs' IH] using rev_ind; intros x0; [reflexivity|].
  rewrite rev_app_distr, length_app. cbn [rev app length].
  replace (length vs' + 1) with (S (length vs')) by lia.
  rewrite rev_seq_S. unfold enumerate. cbn [length seq combine fold_left fst snd].
  rewrite length_rev.
  replace (S (length vs') - 0 - 1) with (length vs') by lia.
  rewrite app_nth2, Nat.sub_diag by lia. cbn [nth].
  rewrite <- (length_rev vs') at 1.
  rewrite (fold_combine_shift (rev vs')
             (fun j w y => g (S (length vs') - j - 1) w y) 1 (g (length vs') v x0)).
  rewrite length_rev.
  transitivity
    (fold_left (fun x jv => g (length vs' - fst jv - 1) (snd jv) x)
               (enumerate (rev vs')) (g (length vs') v x0)).
  - unfold enumerate. rewrite length_rev.
    apply fold_left_ext_in. intros x jv _. f_equal; lia.
  - rewrite IH. apply fold_left_ext_in. intros x m Hm.
    apply in_rev, in_seq in Hm. now rewrite app_nth1 by lia.
Qed.

(** Column [c] of the array [Q] that [householder] builds, no step being
    skipped: the reflections of the steps [K-1], ..., [0] applied to the
    basis vector [c]. *)
Lemma hh_Q_colv (A0 : matrix F) c :
  wf A0 -> hh_regular A0 -> c < nrows A0 ->
  colv (hh_Q A0) c =
  fold_left (fun x m => reflect_vec (nth m (hh_vs A0) []) m x)
            (rev (seq 0 (hh_K A0))) (basis_vec c (nrows A0)).
Proof.
  intros Hwf Hreg Hc. unfold hh_Q.
  assert (HKM : hh_K A0 <= nrows A0) by (unfold hh_K; lia).
  rewrite build_Q_colv; [ | unfold eye; apply wf_tabulate | reflexivity | reflexivity | | exact Hc].
  - rewrite colv_eye by exact Hc.
    rewrite <- (hh_vs_length A0).
    exact (fold_enumerate_rev (fun m w y => reflect_vec w m y) (hh_vs A0) _).
  - intros [j v] Hin. cbn [fst snd].
    apply (in_enumerate []) in Hin. destruct Hin as [Hj Hv].
    rewrite length_rev, hh_vs_length in Hj.
    rewrite rev_nth in Hv by (rewrite hh_vs_length; exact Hj).
    rewrite hh_vs_length in Hv.
    replace (hh_K A0 - j - 1) with (hh_K A0 - S j) by lia.
    split; [lia|]. rewrite <- Hv. split.
    + apply hh_vs_nth_length. lia.
    + apply Hreg. lia.
Qed.

End HouseholderOnColumns.

(** ** Reflections are symmetric involutions *)

Module HouseholderExact.
Import Reals Lra Exact ExactFacts FurtherExact GramSchmidtExact Samples.
Local Open Scope R_scope.

Lemma vdot_app (x1 y1 x2 y2 : vec R) :
  length x1 = length y1 -> vdot (x1 ++ x2) (y1 ++ y2) = vdot x1 y1 + vdot x2 y2.
Proof.
  revert y1. induction x1 as [|a x1 IH]; intros [|b y1] H; try discriminate.
  - cbn [app]. change (vdot (@nil R) []) with 0. lra.
  - cbn [app]. rewrite !vdot_cons, IH by (now inversion H). lra.
Qed.

Lemma reflect_vec_length (v x : vec R) i :
  (i <= length x)%nat -> length v = (length x - i)%nat ->
  length (reflect_vec v i x) = length x.
Proof.
  intros Hi Hv. unfold reflect_vec.
  rewrite length_app, length_firstn, vsub_length, vscale_length, length_skipn. lia.
Qed.

Lemma reflect_tail_sym (v x2 y2 : vec R) :
  length x2 = length v -> length y2 = length v ->
  vdot (vsub x2 (vscale (vdot (vscale ftwo v) x2 / vdot v v) v)) y2 =
  vdot x2 (vsub y2 (vscale (vdot (vscale ftwo v) y2 / vdot v v) v)).
Proof.
  intros Hx Hy.
  rewrite vdot_vsub_l by (rewrite vscale_length; exact Hx).
  rewrite (vdot_comm x2 (vsub _ _)), vdot_vsub_l by (rewrite vscale_length; exact Hy).
  rewrite !vdot_vscale_l, (vdot_comm y2 x2).
  cbn [ftwo real_scalar]. unfold Rdiv. ring.
Qed.

(** [<H x, y> = <x, H y>] *)
Lemma reflect_vec_sym (v x y : vec R) i :
  length x = length y -> (i <= length x)%nat -> length v = (length x - i)%nat ->
  vdot (reflect_vec v i x) y = vdot x (reflect_vec v i y).
Proof.
  intros Hxy Hi Hv. unfold reflect_vec.
  pose proof (firstn_skipn i x) as Ex. pose proof (firstn_skipn i y) as Ey.
  assert (L1 : length (firstn i x) = length (firstn i y))
    by (rewrite !length_firstn; lia).
  assert (L2 : length (skipn i x) = length v) by (rewrite length_skipn; lia).
  assert (L3 : length (skipn i y) = length v) by (rewrite length_skipn; lia).
  remember (firstn i x) as x1. remember (skipn i x) as x2.
  remember (firstn i y) as y1. remember (skipn i y) as y2.
  rewrite <- Ex, <- Ey.
  rewrite !vdot_app by assumption.
  now rewrite reflect_tail_sym.
Qed.

Lemma vsub_vscale_back (x2 v : vec R) (c : R) :
  length x2 = length v ->
  vsub (vsub x2 (vscale c v)) (vscale (- c) v) = x2.
Proof.
  revert v. induction x2 as [|a x2 IH]; intros [|b v] H; try discriminate;
    [reflexivity|].
  cbn [vscale vsub map combine fst snd].
  pose proof (IH v ltac:(now inversion H)) as E. unfold vsub, vscale in E.
  rewrite E. cbn [fsub fmul real_scalar]. f_equal. ring.
Qed.

(** [H (H x) = x] *)
Lemma reflect_vec_invol (v x : vec R) i :
  (i <= length x)%nat -> length v = (length x - i)%nat -> vdot v v <> 0 ->
  reflect_vec v i (reflect_vec v i x) = x.
Proof.
  intros Hi Hv Hne. unfold reflect_vec at 2.
  assert (L1 : length (firstn i x) = i) by (rewrite length_firstn; lia).
  assert (L2 : length (skipn i x) = length v) by (rewrite length_skipn; lia).
  pose proof (firstn_skipn i x) as Ex.
  remember (firstn i x) as x1. remember (skipn i x) as x2.
  unfold reflect_vec.
  rewrite firstn_app_exact, !skipn_app_exact by exact L1.
  set (c := vdot (vscale ftwo v) x2 / vdot v v).
  assert (Hc : vdot (vscale ftwo v) (vsub x2 (vscale c v)) / vdot v v = - c).
  { rewrite vdot_scale_two, (vdot_comm v (vsub _ _)).
    rewrite vdot_vsub_l by (rewrite vscale_length; exact L2).
    rewrite vdot_vscale_l, (vdot_comm x2 v).
    unfold c. rewrite vdot_scale_two. now field. }
  cbn [fdiv real_scalar]. fold c. rewrite Hc.
  rewrite vsub_vscale_back by exact L2. exact Ex.
Qed.

Lemma vdot_zero_r (w z : vec R) : (forall s, nth s z 0 = 0) -> vdot w z = 0.
Proof.
  revert z. induction w as [|a w IH]; intros [|b z] H; try reflexivity.
  rewrite vdot_cons, IH by (intros s; apply (H (S s))).
  rewrite (H 0%nat : b = 0). ring.
Qed.

Lemma vsub_vscale_zero (z v : vec R) :
  (length z <= length v)%nat -> vsub z (vscale 0 v) = z.
Proof.
  revert v. induction z as [|a z IH]; intros [|b v] H; cbn [length] in H; try lia;
    try reflexivity.
  cbn [vscale vsub map combine fst snd].
  pose proof (IH v ltac:(lia)) as E. unfold vsub, vscale in E. rewrite E.
  cbn [fsub fmul real_scalar]. f_equal. ring.
Qed.

(** A reflection of the rows from [i] on leaves a column that is zero
    there. *)
Lemma reflect_vec_zero_tail (v x : vec R) i :
  (forall s, nth s (skipn i x) 0 = 0) -> (length (skipn i x) <= length v)%nat ->
  reflect_vec v i x = x.
Proof.
  intros Hz Hl. unfold reflect_vec. rewrite vdot_zero_r by exact Hz.
  cbn [fdiv real_scalar]. replace (0 / vdot v v) with 0 by (unfold Rdiv; ring).
  rewrite vsub_vscale_zero by exact Hl. apply firstn_skipn.
Qed.

(** The product with a basis vector is an entry. *)
Lemma vdot_indicator (r : nat) (x : vec R) :
  forall s,
    vdot (map (fun k => if (k =? r)%nat then 1 else 0) (seq s (length x))) x =
    if ((s <=? r) && (r <? s + length x))%nat then nth (r - s) x 0 else 0.
Proof.
  induction x as [|a x IH]; intros s.
  - cbn [length seq map]. change (vdot (@nil R) []) with 0.
    destruct ((s <=? r) && (r <? s + 0))%nat; [|reflexivity].
    destruct (r - s)%nat; reflexivity.
  - cbn [length seq map]. rewrite vdot_cons, IH.
    destruct (Nat.eqb_spec s r) as [->|Hne].
    + replace (S r <=? r)%nat with false by (symmetry; apply Nat.leb_gt; lia).
      replace (r <=? r)%nat with true by (symmetry; apply Nat.leb_le; lia).
      replace (r <? r + S (length x))%nat with true by (symmetry; apply Nat.ltb_lt; lia).
      cbn [andb]. rewrite Nat.sub_diag. cbn [nth]. lra.
    + destruct (Nat.leb_spec (S s) r) as [H1|H1];
        destruct (Nat.ltb_spec r (S s + length x)) as [H2|H2];
        destruct (Nat.leb_spec s r) as [H3|H3];
        destruct (Nat.ltb_spec r (s + S (length x))) as [H4|H4];
        cbn [andb]; try lia; try lra.
      replace (r - s)%nat with (S (r - S s)) by lia. cbn [nth]. lra.
Qed.

Lemma vdot_basis (r M : nat) (x : vec R) :
  length x = M -> (r < M)%nat -> vdot (basis_vec r M) x = nth r x 0.
Proof.
  intros Hx Hr. unfold basis_vec. cbn [fone fzero real_scalar].
  rewrite <- Hx, vdot_indicator.
  replace (0 <=? r)%nat with true by (symmetry; apply Nat.leb_le; lia).
  replace (r <? 0 + length x)%nat with true by (symmetry; apply Nat.ltb_lt; lia).
  cbn [andb]. now rewrite Nat.sub_0_r.
Qed.

Lemma map_nth_seq (u : vec R) : map (fun i => nth i u 0) (seq 0 (length u)) = u.
Proof.
  apply (list_ext_nth 0).
  - now rewrite length_map, length_seq.
  - intros k Hk. rewrite length_map, length_seq in Hk.
    rewrite (nth_indep _ 0 (nth 0 u 0)) by (now rewrite length_map, length_seq).
    rewrite (map_nth (fun i => nth i u 0) (seq 0 (length u)) 0%nat k).
    now rewrite seq_nth.
Qed.

(** ** Compositions of reflections *)

Lemma fold_length (f : vec R -> nat -> vec R) (M : nat) (l : list nat) :
  (forall m x, In m l -> length x = M -> length (f x m) = M) ->
  forall x, length x = M -> length (fold_left f l x) = M.
Proof.
  induction l as [|m l IH]; intros Hlen x Hx; [exact Hx|].
  cbn [fold_left]. apply IH.
  - intros m0 x0 Hin. apply Hlen. now right.
  - apply Hlen; [now left | exact Hx].
Qed.

Lemma fold_adjoint (f : vec R -> nat -> vec R) (M : nat) (l : list nat) :
  (forall m x, In m l -> length x = M -> length (f x m) = M) ->
  (forall m x y, In m l -> length x = M -> length y = M ->
     vdot (f x m) y = vdot x (f y m)) ->
  forall x y, length x = M -> length y = M ->
    vdot (fold_left f (rev l) x) y = vdot x (fold_left f l y).
Proof.
  induction l as [|m l IH]; intros Hlen Hsym x y Hx Hy; [reflexivity|].
  assert (Hlen' : forall m0 x0, In m0 l -> length x0 = M -> length (f x0 m0) = M)
    by (intros m0 x0 Hin; apply Hlen; now right).
  cbn [rev fold_left]. rewrite fold_left_app. cbn [fold_left].
  rewrite Hsym; [ | now left | | exact Hy].
  - apply IH; [exact Hlen' | | exact Hx | ].
    + intros m0 x0 y0 Hin. apply Hsym. now right.
    + apply Hlen; [now left | exact Hy].
  - apply fold_length; [|exact Hx].
    intros m0 x0 Hin. apply Hlen'. now apply in_rev.
Qed.

Lemma fold_cancel (f : vec R -> nat -> vec R) (M : nat) (l : list nat) :
  (forall m x, In m l -> length x = M -> length (f x m) = M) ->
  (forall m x, In m l -> length x = M -> f (f x m) m = x) ->
  forall x, length x = M -> fold_left f (rev l) (fold_left f l x) = x.
Proof.
  induction l as [|m l IH]; intros Hlen Hinv x Hx; [reflexivity|].
  cbn [rev fold_left]. rewrite fold_left_app. cbn [fold_left].
  rewrite IH.
  - apply Hinv; [now left | exact Hx].
  - intros m0 x0 Hin. apply Hlen. now right.
  - intros m0 x0 Hin. apply Hinv. now right.
  - apply Hlen; [now left | exact Hx].
Qed.

Lemma fold_fixed (f : vec R -> nat -> vec R) (l : list nat) (x : vec R) :
  (forall m, In m l -> f x m = x) -> fold_left f l x = x.
Proof.
  induction l as [|m l IH]; intros H; [reflexivity|].
  cbn [fold_left]. rewrite (H m) by now left.
  apply IH. intros m0 Hin. apply H. now right.
Qed.

(** ** The reflections of the elimination *)

Lemma hh_reflect_length (A0 : matrix R) m (x : vec R) :
  (m < hh_K A0)%nat -> length x = nrows A0 ->
  length (reflect_vec (nth m (hh_vs A0) []) m x) = nrows A0.
Proof.
  intros Hm Hx. rewrite reflect_vec_length; [exact Hx | |].
  - rewrite Hx. unfold hh_K in Hm. lia.
  - rewrite Hx. now apply hh_vs_nth_length.
Qed.

Lemma hh_reflect_sym (A0 : matrix R) m (x y : vec R) :
  (m < hh_K A0)%nat -> length x = nrows A0 -> length y = nrows A0 ->
  vdot (reflect_vec (nth m (hh_vs A0) []) m x) y =
  vdot x (reflect_vec (nth m (hh_vs A0) []) m y).
Proof.
  intros Hm Hx Hy. apply reflect_vec_sym.
  - congruence.
  - rewrite Hx. unfold hh_K in Hm. lia.
  - rewrite Hx. now apply hh_vs_nth_length.
Qed.

Lemma hh_reflect_invol (A0 : matrix R) m (x : vec R) :
  hh_regular A0 -> (m < hh_K A0)%nat -> length x = nrows A0 ->
  reflect_vec (nth m (hh_vs A0) []) m (reflect_vec (nth m (hh_vs A0) []) m x) = x.
Proof.
  intros Hreg Hm Hx. apply reflect_vec_invol.
  - rewrite Hx. unfold hh_K in Hm. lia.
  - rewrite Hx. now apply hh_vs_nth_length.
  - apply not_close_nonzero. now apply Hreg.
Qed.

Lemma hh_regular_step (A0 : matrix R) i :
  hh_regular A0 -> (i < hh_K A0)%nat ->
  isclose0 (vdot (reflection_vector (step_input A0 i) i)
                 (reflection_vector (step_input A0 i) i)) = false.
Proof.
  intros Hreg Hi. unfold step_input. rewrite <- hh_vs_nth by exact Hi. now apply Hreg.
Qed.

(** The entry [Q[r, i]] read off the reflections applied in the order
    of the elimination. *)
Lemma hh_Q_entry (A0 : matrix R) r i :
  wf A0 -> hh_regular A0 -> (r < nrows A0)%nat -> (i < nrows A0)%nat ->
  mget (hh_Q A0) r i =
  nth i (fold_left (fun x m => reflect_vec (nth m (hh_vs A0) []) m x)
                   (seq 0 (hh_K A0)) (basis_vec r (nrows A0))) 0.
Proof.
  intros Hwf Hreg Hr Hi.
  assert (Hb : forall c, length (basis_vec c (nrows A0) : vec R) = nrows A0)
    by (intros c; apply basis_vec_length).
  assert (Hlen : forall m x, In m (seq 0 (hh_K A0)) -> length x = nrows A0 ->
                   length (reflect_vec (nth m (hh_vs A0) []) m x) = nrows A0).
  { intros m x Hm Hx. apply in_seq in Hm. apply hh_reflect_length; [lia | exact Hx]. }
  assert (Hsym : forall m x y, In m (seq 0 (hh_K A0)) ->
                   length x = nrows A0 -> length y = nrows A0 ->
                   vdot (reflect_vec (nth m (hh_vs A0) []) m x) y =
                   vdot x (reflect_vec (nth m (hh_vs A0) []) m y)).
  { intros m x y Hm Hx Hy. apply in_seq in Hm. apply hh_reflect_sym; [lia | exact Hx | exact Hy]. }
  rewrite <- (@nth_colv R real_scalar (hh_Q A0) i r) by (rewrite hh_Q_nrows; exact Hr).
  cbn [fzero real_scalar].
  rewrite hh_Q_colv by assumption.
  rewrite <- (@vdot_basis r (nrows A0)); [ | | exact Hr].
  2:{ apply fold_length with (M := nrows A0); [|apply Hb].
      intros m x Hm. apply Hlen. now apply in_rev. }
  rewrite vdot_comm.
  rewrite (@fold_adjoint _ (nrows A0) (seq 0 (hh_K A0)) Hlen Hsym) by apply Hb.
  apply vdot_basis; [|exact Hi].
  apply fold_length with (M := nrows A0); [exact Hlen | apply Hb].
Qed.

(** The reflections in the order of lines 114-116 take column [k] of
    [R] back to column [k] of [A]. *)
Lemma hh_R_column_back (A0 : matrix R) k :
  wf A0 -> hh_regular A0 -> (k < hh_K A0)%nat ->
  fold_left (fun x m => reflect_vec (nth m (hh_vs A0) []) m x)
            (rev (seq 0 (hh_K A0))) (colv (hh_R A0) k) = colv A0 k.
Proof.
  intros Hwf Hreg Hk.
  assert (Es : seq 0 (hh_K A0) = seq 0 (S k) ++ seq (S k) (hh_K A0 - S k)).
  { replace (hh_K A0) with (S k + (hh_K A0 - S k))%nat at 1 by lia. apply seq_app. }
  rewrite Es, rev_app_distr, fold_left_app.
  rewrite (@fold_fixed _ (rev (seq (S k) (hh_K A0 - S k))) (colv (hh_R A0) k)).
  - rewrite hh_R_colv by assumption.
    apply fold_cancel with (M := nrows A0).
    + intros m x Hm Hx. apply in_seq in Hm. apply hh_reflect_length; [lia | exact Hx].
    + intros m x Hm Hx. apply in_seq in Hm. apply hh_reflect_invol; [exact Hreg | lia | exact Hx].
    + apply colv_length.
  - intros m Hm. apply in_rev, in_seq in Hm.
    assert (HmK : (m < hh_K A0)%nat) by lia.
    assert (HmM : (m <= nrows A0)%nat) by (unfold hh_K in HmK; lia).
    apply reflect_vec_zero_tail.
    + intros s0. rewrite nth_skipn.
      destruct (Nat.lt_ge_cases (m + s0) (nrows A0)) as [H|H].
      * rewrite (@nth_colv R real_scalar (hh_R A0) k (m + s0))
          by (rewrite hh_R_nrows; exact H).
        apply hh_R_below_zero; [exact Hwf | exact Hk | now apply hh_regular_step | lia | exact H].
      * apply nth_overflow. rewrite colv_length, hh_R_nrows. exact H.
    + rewrite length_skipn, colv_length, hh_R_nrows, hh_vs_nth_length by exact HmK. lia.
Qed.

(** The entries of [Q @ R] in the columns below [K]. *)
Lemma hh_QR_entry (A0 : matrix R) r k :
  wf A0 -> hh_regular A0 -> (r < nrows A0)%nat -> (k < hh_K A0)%nat ->
  fold_left (fun acc i => acc + mget (hh_Q A0) r i * mget (hh_R A0) i k)
            (seq 0 (nrows A0)) 0 =
  mget A0 r k.
Proof.
  intros Hwf Hreg Hr Hk.
  assert (Hb : forall c, length (basis_vec c (nrows A0) : vec R) = nrows A0)
    by (intros c; apply basis_vec_length).
  assert (Hlen : forall m x, In m (seq 0 (hh_K A0)) -> length x = nrows A0 ->
                   length (reflect_vec (nth m (hh_vs A0) []) m x) = nrows A0).
  { intros m x Hm Hx. apply in_seq in Hm. apply hh_reflect_length; [lia | exact Hx]. }
  assert (Hsym : forall m x y, In m (seq 0 (hh_K A0)) ->
                   length x = nrows A0 -> length y = nrows A0 ->
                   vdot (reflect_vec (nth m (hh_vs A0) []) m x) y =
                   vdot x (reflect_vec (nth m (hh_vs A0) []) m y)).
  { intros m x y Hm Hx Hy. apply in_seq in Hm. apply hh_reflect_sym; [lia | exact Hx | exact Hy]. }
  set (u := fold_left (fun x m => reflect_vec (nth m (hh_vs A0) []) m x)
                      (seq 0 (hh_K A0)) (basis_vec r (nrows A0))).
  assert (Hu : length u = nrows A0)
    by (apply fold_length with (M := nrows A0); [exact Hlen | apply Hb]).
  transitivity (fold_left (fun acc i => acc + nth i u 0 * mget (hh_R A0) i k)
                          (seq 0 (nrows A0)) 0).
  { apply fold_left_ext_in. intros acc i Hi. apply in_seq in Hi.
    now rewrite hh_Q_entry by (auto; lia). }
  transitivity (vdot (map (fun i => nth i u 0) (seq 0 (nrows A0)))
                     (map (fun i => mget (hh_R A0) i k) (seq 0 (nrows A0)))).
  { symmetry.
    exact (fold_left_combine_map (fun i => nth i u 0) (fun i => mget (hh_R A0) i k)
             (seq 0 (nrows A0)) 0). }
  rewrite <- Hu at 1. rewrite map_nth_seq.
  assert (EC : map (fun i => mget (hh_R A0) i k) (seq 0 (nrows A0)) = colv (hh_R A0) k).
  { unfold colv, col_from. now rewrite hh_R_nrows, Nat.sub_0_r. }
  rewrite EC, vdot_comm. unfold u.
  rewrite <- (@fold_adjoint _ (nrows A0) (seq 0 (hh_K A0)) Hlen Hsym)
    by (try apply Hb; rewrite colv_length; apply hh_R_nrows).
  rewrite hh_R_column_back by assumption.
  rewrite vdot_comm, vdot_basis by (try apply colv_length; exact Hr).
  exact (@nth_colv R real_scalar A0 k r Hr).
Qed.

(** ** Theorem *)

(** The entries of the product of the pair [householder] returns, in the
    columns below [K]; and the product itself when [A] has at most as
    many columns as rows. *)
Lemma householder_pair_entries (self : QR R) (r k : nat) :
  wf (cell (heap self) (backup self)) ->
  hh_regular (cell (heap self) (backup self)) ->
  (r < nrows (cell (heap self) (backup self)))%nat ->
  (k < hh_K (cell (heap self) (backup self)))%nat ->
  mget (matmul (fst (householder_values self)) (snd (householder_values self))) r k =
  mget (cell (heap self) (backup self)) r k.
Proof.
  set (A0 := cell (heap self) (backup self)). intros Hwf Hreg Hr Hk.
  destruct (householder_values_shape self) as (S1 & S2 & S3 & S4). cbv zeta in *.
  fold A0 in S1, S2, S3, S4.
  assert (HKM : (hh_K A0 <= nrows A0)%nat) by (unfold hh_K; lia).
  assert (HKN : (hh_K A0 <= ncols A0)%nat) by (unfold hh_K; lia).
  rewrite mget_matmul by (rewrite ?S1, ?S4; lia).
  rewrite S2, <- (hh_QR_entry Hwf Hreg Hr Hk).
  rewrite householder_values_eq. fold A0. cbn [fst snd].
  destruct (reduce self).
  - assert (Es : seq 0 (nrows A0) =
                 seq 0 (hh_K A0) ++ seq (hh_K A0) (nrows A0 - hh_K A0)).
    { replace (nrows A0) with (hh_K A0 + (nrows A0 - hh_K A0))%nat at 1 by lia.
      apply seq_app. }
    rewrite Es, fold_left_app.
    rewrite (@fold_left_add_zero
               (fun i => mget (hh_Q A0) r i * mget (hh_R A0) i k)
               (seq (hh_K A0) (nrows A0 - hh_K A0))).
    + apply fold_left_ext_in. intros acc i Hi. apply in_seq in Hi.
      rewrite mget_slice_cols, mget_slice_rows by lia. reflexivity.
    + intros i Hi. apply in_seq in Hi.
      rewrite (@hh_R_below_zero A0 k i) by (auto using hh_regular_step; lia).
      ring.
  - reflexivity.
Qed.

Lemma householder_pair_reconstructs (self : QR R) :
  wf (cell (heap self) (backup self)) ->
  hh_regular (cell (heap self) (backup self)) ->
  (ncols (cell (heap self) (backup self)) <= nrows (cell (heap self) (backup self)))%nat ->
  matmul (fst (householder_values self)) (snd (householder_values self)) =
  cell (heap self) (backup self).
Proof.
  set (A0 := cell (heap self) (backup self)). intros Hwf Hreg HNM.
  destruct (householder_values_shape self) as (S1 & S2 & S3 & S4). cbv zeta in *.
  fold A0 in S1, S2, S3, S4.
  apply matrix_ext_entries.
  - unfold matmul. apply wf_tabulate.
  - exact Hwf.
  - exact S1.
  - exact S4.
  - intros r c Hr Hc.
    change (nrows (matmul (fst (householder_values self)) (snd (householder_values self))))
      with (nrows (fst (householder_values self))) in Hr.
    change (ncols (matmul (fst (householder_values self)) (snd (householder_values self))))
      with (ncols (snd (householder_values self))) in Hc.
    apply householder_pair_entries;
      [exact Hwf | exact Hreg | fold A0; lia | fold A0; unfold hh_K; lia].
Qed.

(** In exact arithmetic, when no step is skipped, the pair [householder]
    returns reproduces the columns [0 .. K-1] of [A]: [(Q @ R)[r, k] =
    A[r, k]] for every row [r] and every [k < K = min(M, N)], with or
    without [reduce]; so [Q @ R = A] when [A] has at most as many columns
    as rows.  (The columns from [K] on of a wide [A] are never updated.) *)
Theorem householder_reconstructs (self : QR R) :
  wf (cell (heap self) (backup self)) ->
  hh_regular (cell (heap self) (backup self)) ->
  (forall r k,
     (r < nrows (cell (heap self) (backup self)))%nat ->
     (k < hh_K (cell (heap self) (backup self)))%nat ->
     mget (matmul (fst (householder_values self)) (snd (householder_values self))) r k =
     mget (cell (heap self) (backup self)) r k) /\
  ((ncols (cell (heap self) (backup self)) <= nrows (cell (heap self) (backup self)))%nat ->
   matmul (fst (householder_values self)) (snd (householder_values self)) =
   cell (heap self) (backup self)).
Proof.
  intros Hwf Hreg. split.
  - intros r k Hr Hk. now apply householder_pair_entries.
  - intros HNM. now apply householder_pair_reconstructs.
Qed.

(** ** An instance: the 2 by 1 array [[3], [4]] *)

Lemma three_four_regular :
  hh_regular (cell (heap three_four_engine) (backup three_four_engine)).
Proof.
  intros i Hi.
  change (hh_K (cell (heap three_four_engine) (backup three_four_engine))) with 1%nat in Hi.
  assert (i = 0%nat) by lia. subst i.
  rewrite hh_vs_nth by (cbv; lia).
  change (fst (eliminate_upto
                 (hh_K (cell (heap three_four_engine) (backup three_four_engine))) 0
                 (cell (heap three_four_engine) (backup three_four_engine))))
    with (step_input (cell (heap three_four_engine) (backup three_four_engine)) 0).
  rewrite (@reflection_vector_cons _ 0%nat 3 [4] three_four_subcolumn).
  apply step_not_skipped. lra.
Qed.

Lemma householder_reconstructs_witness :
  matmul (fst (householder_values three_four_engine))
         (snd (householder_values three_four_engine)) = three_four.
Proof.
  apply (@householder_reconstructs three_four_engine).
  - exact three_four_wf.
  - exact three_four_regular.
  - cbv. lia.
Defined.

(** ** [Q] is orthogonal *)

Lemma basis_vec_entry (i j M : nat) :
  (i < M)%nat -> nth i (basis_vec j M : vec R) 0 = if (i =? j)%nat then 1 else 0.
Proof.
  intros H. unfold basis_vec.
  exact (@nth_map_seq R real_scalar (fun k => if (k =? j)%nat then 1 else 0) M i H).
Qed.

Lemma vdot_basis_basis (i j M : nat) :
  (i < M)%nat ->
  vdot (basis_vec i M : vec R) (basis_vec j M) = if (i =? j)%nat then 1 else 0.
Proof.
  intros H. rewrite vdot_basis by (auto; apply basis_vec_length).
  now apply basis_vec_entry.
Qed.

(** The reflections in the two orders undo each other. *)
Lemma hh_forward_backward (A0 : matrix R) (x : vec R) :
  hh_regular A0 -> length x = nrows A0 ->
  fold_left (fun y m => reflect_vec (nth m (hh_vs A0) []) m y) (seq 0 (hh_K A0))
    (fold_left (fun y m => reflect_vec (nth m (hh_vs A0) []) m y)
               (rev (seq 0 (hh_K A0))) x) = x.
Proof.
  intros Hreg Hx.
  rewrite <- (rev_involutive (seq 0 (hh_K A0))) at 1.
  apply fold_cancel with (M := nrows A0).
  - intros m y Hm Hy. apply in_rev, in_seq in Hm. apply hh_reflect_length; [lia | exact Hy].
  - intros m y Hm Hy. apply in_rev, in_seq in Hm.
    apply hh_reflect_invol; [exact Hreg | lia | exact Hy].
  - exact Hx.
Qed.

Lemma hh_backward_forward (A0 : matrix R) (x : vec R) :
  hh_regular A0 -> length x = nrows A0 ->
  fold_left (fun y m => reflect_vec (nth m (hh_vs A0) []) m y) (rev (seq 0 (hh_K A0)))
    (fold_left (fun y m => reflect_vec (nth m (hh_vs A0) []) m y)
               (seq 0 (hh_K A0)) x) = x.
Proof.
  intros Hreg Hx.
  apply fold_cancel with (M := nrows A0).
  - intros m y Hm Hy. apply in_seq in Hm. apply hh_reflect_length; [lia | exact Hy].
  - intros m y Hm Hy. apply in_seq in Hm.
    apply hh_reflect_invol; [exact Hreg | lia | exact Hy].
  - exact Hx.
Qed.

Lemma hh_Q_columns_orth (A0 : matrix R) i j :
  wf A0 -> hh_regular A0 -> (i < nrows A0)%nat -> (j < nrows A0)%nat ->
  vdot (colv (hh_Q A0) i) (colv (hh_Q A0) j) = if (i =? j)%nat then 1 else 0.
Proof.
  intros Hwf Hreg Hi Hj.
  assert (Hb : forall c, length (basis_vec c (nrows A0) : vec R) = nrows A0)
    by (intros c; apply basis_vec_length).
  assert (Hlen : forall m x, In m (seq 0 (hh_K A0)) -> length x = nrows A0 ->
                   length (reflect_vec (nth m (hh_vs A0) []) m x) = nrows A0).
  { intros m x Hm Hx. apply in_seq in Hm. apply hh_reflect_length; [lia | exact Hx]. }
  assert (Hsym : forall m x y, In m (seq 0 (hh_K A0)) ->
                   length x = nrows A0 -> length y = nrows A0 ->
                   vdot (reflect_vec (nth m (hh_vs A0) []) m x) y =
                   vdot x (reflect_vec (nth m (hh_vs A0) []) m y)).
  { intros m x y Hm Hx Hy. apply in_seq in Hm. apply hh_reflect_sym; [lia | exact Hx | exact Hy]. }
  rewrite !hh_Q_colv by assumption.
  rewrite (@fold_adjoint _ (nrows A0) (seq 0 (hh_K A0)) Hlen Hsym).
  - rewrite hh_forward_backward by (auto; apply Hb). now apply vdot_basis_basis.
  - apply Hb.
  - apply fold_length with (M := nrows A0); [|apply Hb].
    intros m x Hm. apply Hlen. now apply in_rev.
Qed.

(** In exact arithmetic, when no step is skipped, the columns of the [Q]
    that [householder] returns are orthonormal. *)
Theorem householder_Q_orthonormal (self : QR R) (i j : nat) :
  wf (cell (heap self) (backup self)) ->
  hh_regular (cell (heap self) (backup self)) ->
  (i < ncols (fst (householder_values self)))%nat ->
  (j < ncols (fst (householder_values self)))%nat ->
  vdot (colv (fst (householder_values self)) i) (colv (fst (householder_values self)) j) =
  if (i =? j)%nat then 1 else 0.
Proof.
  set (A0 := cell (heap self) (backup self)). intros Hwf Hreg Hi Hj.
  destruct (householder_values_shape self) as (_ & S2 & _ & _). cbv zeta in S2.
  fold A0 in S2. rewrite S2 in Hi, Hj.
  assert (HiM : (i < nrows A0)%nat) by (destruct (reduce self); unfold hh_K in *; lia).
  assert (HjM : (j < nrows A0)%nat) by (destruct (reduce self); unfold hh_K in *; lia).
  assert (E : forall c, (c < if reduce self then hh_K A0 else nrows A0)%nat ->
            colv (fst (householder_values self)) c = colv (hh_Q A0) c).
  { intros c Hc. rewrite householder_values_eq. fold A0. cbn [fst].
    destruct (reduce self); [|reflexivity].
    unfold colv. apply col_from_ext; [reflexivity|].
    intros r _. now apply mget_slice_cols. }
  rewrite !E by assumption. now apply hh_Q_columns_orth.
Qed.

Lemma householder_Q_orthonormal_witness :
  vdot (colv (fst (householder_values three_four_engine)) 0)
       (colv (fst (householder_values three_four_engine)) 1) = 0.
Proof.
  apply (@householder_Q_orthonormal three_four_engine 0%nat 1%nat).
  - exact three_four_wf.
  - exact three_four_regular.
  - destruct (householder_values_shape three_four_engine) as (_ & S2 & _ & _).
    cbv zeta in S2. rewrite S2. cbv. lia.
  - destruct (householder_values_shape three_four_engine) as (_ & S2 & _ & _).
    cbv zeta in S2. rewrite S2. cbv. lia.
Defined.

(** ** Sums *)

Lemma sum_shift (f : nat -> R) (l : list nat) (a : R) :
  fold_left (fun acc i => acc + f i) l a = a + fold_left (fun acc i => acc + f i) l 0.
Proof.
  revert a. induction l as [|x t IH]; intros a; cbn [fold_left]; [lra|].
  rewrite (IH (a + f x)), (IH (0 + f x)). lra.
Qed.

Lemma sum_scale_l (c : R) (f : nat -> R) (l : list nat) :
  fold_left (fun acc i => acc + c * f i) l 0 = c * fold_left (fun acc i => acc + f i) l 0.
Proof.
  induction l as [|x t IH]; cbn [fold_left]; [lra|].
  rewrite (sum_shift _ t (0 + c * f x)), (sum_shift _ t (0 + f x)), IH. lra.
Qed.

Lemma sum_scale_r (c : R) (f : nat -> R) (l : list nat) :
  fold_left (fun acc i => acc + f i * c) l 0 = fold_left (fun acc i => acc + f i) l 0 * c.
Proof.
  induction l as [|x t IH]; cbn [fold_left]; [lra|].
  rewrite (sum_shift _ t (0 + f x * c)), (sum_shift _ t (0 + f x)), IH. lra.
Qed.

Lemma sum_plus (f g : nat -> R) (l : list nat) :
  fold_left (fun acc i => acc + (f i + g i)) l 0 =
  fold_left (fun acc i => acc + f i) l 0 + fold_left (fun acc i => acc + g i) l 0.
Proof.
  induction l as [|x t IH]; cbn [fold_left]; [lra|].
  rewrite (sum_shift _ t (0 + (f x + g x))), (sum_shift _ t (0 + f x)),
    (sum_shift _ t (0 + g x)), IH. lra.
Qed.

Lemma sum_exchange (g : nat -> nat -> R) (li lk : list nat) :
  fold_left (fun acc i => acc + fold_left (fun acc' k => acc' + g i k) lk 0) li 0 =
  fold_left (fun acc k => acc + fold_left (fun acc' i => acc' + g i k) li 0) lk 0.
Proof.
  induction li as [|x t IH]; cbn [fold_left].
  - symmetry. apply fold_left_add_zero. intros i _. reflexivity.
  - rewrite (sum_shift _ t (0 + _)), IH.
    transitivity
      (fold_left (fun acc k => acc + (g x k + fold_left (fun acc' i => acc' + g i k) t 0))
                 lk 0).
    + rewrite sum_plus. lra.
    + apply fold_left_ext_in. intros acc k _.
      rewrite (sum_shift _ t (0 + g x k)). lra.
Qed.

Lemma sum_delta (g : nat -> R) (r n : nat) :
  (r < n)%nat ->
  fold_left (fun acc s0 => acc + (if (r =? s0)%nat then 1 else 0) * g s0) (seq 0 n) 0 = g r.
Proof.
  intros H.
  assert (Es : seq 0 n = seq 0 r ++ r :: seq (S r) (n - S r)).
  { replace n with (r + S (n - S r))%nat at 1 by lia. rewrite seq_app. reflexivity. }
  rewrite Es, fold_left_app. cbn [fold_left].
  rewrite fold_left_add_zero.
  - rewrite sum_shift, fold_left_add_zero.
    + rewrite Nat.eqb_refl. lra.
    + intros i Hi. apply in_seq in Hi.
      destruct (Nat.eqb_spec r i); [lia | lra].
  - intros i Hi. apply in_seq in Hi.
    destruct (Nat.eqb_spec r i); [lia | lra].
Qed.

Lemma fold_left_map_plus (f : nat -> R) (l : list nat) (a : R) :
  fold_left Rplus (map f l) a = fold_left (fun acc i => acc + f i) l a.
Proof.
  revert a. induction l as [|x t IH]; intros a; [reflexivity|].
  cbn [map fold_left]. apply IH.
Qed.

(** ** Back substitution on a triangular [R] *)

(** The rows of [Q] are orthonormal as well. *)
Lemma hh_Q_rows_orth (A0 : matrix R) r s0 :
  wf A0 -> hh_regular A0 -> (r < nrows A0)%nat -> (s0 < nrows A0)%nat ->
  fold_left (fun acc i => acc + mget (hh_Q A0) r i * mget (hh_Q A0) s0 i)
            (seq 0 (nrows A0)) 0 =
  if (r =? s0)%nat then 1 else 0.
Proof.
  intros Hwf Hreg Hr Hs.
  assert (Hb : forall c, length (basis_vec c (nrows A0) : vec R) = nrows A0)
    by (intros c; apply basis_vec_length).
  assert (Hlen : forall m x, In m (rev (seq 0 (hh_K A0))) -> length x = nrows A0 ->
                   length (reflect_vec (nth m (hh_vs A0) []) m x) = nrows A0).
  { intros m x Hm Hx. apply in_rev, in_seq in Hm. apply hh_reflect_length; [lia | exact Hx]. }
  assert (Hsym : forall m x y, In m (rev (seq 0 (hh_K A0))) ->
                   length x = nrows A0 -> length y = nrows A0 ->
                   vdot (reflect_vec (nth m (hh_vs A0) []) m x) y =
                   vdot x (reflect_vec (nth m (hh_vs A0) []) m y)).
  { intros m x y Hm Hx Hy. apply in_rev, in_seq in Hm.
    apply hh_reflect_sym; [lia | exact Hx | exact Hy]. }
  set (T := fold_left (fun x m => reflect_vec (nth m (hh_vs A0) []) m x) (seq 0 (hh_K A0))).
  assert (HT : forall x, length x = nrows A0 -> length (T x) = nrows A0).
  { intros x Hx. unfold T. apply fold_length with (M := nrows A0); [|exact Hx].
    intros m y Hm. apply Hlen. now apply -> in_rev. }
  transitivity (fold_left (fun acc i => acc + nth i (T (basis_vec r (nrows A0))) 0
                                              * nth i (T (basis_vec s0 (nrows A0))) 0)
                          (seq 0 (nrows A0)) 0).
  { apply fold_left_ext_in. intros acc i Hi. apply in_seq in Hi.
    now rewrite !hh_Q_entry by (auto; lia). }
  transitivity (vdot (map (fun i => nth i (T (basis_vec r (nrows A0))) 0) (seq 0 (nrows A0)))
                     (map (fun i => nth i (T (basis_vec s0 (nrows A0))) 0) (seq 0 (nrows A0)))).
  { symmetry.
    exact (fold_left_combine_map (fun i => nth i (T (basis_vec r (nrows A0))) 0)
             (fun i => nth i (T (basis_vec s0 (nrows A0))) 0) (seq 0 (nrows A0)) 0). }
  rewrite <- (HT (basis_vec r (nrows A0)) (Hb r)) at 1.
  rewrite <- (HT (basis_vec s0 (nrows A0)) (Hb s0)) at 2.
  rewrite !map_nth_seq. unfold T at 1.
  rewrite <- (rev_involutive (seq 0 (hh_K A0))) at 1.
  rewrite (@fold_adjoint _ (nrows A0) (rev (seq 0 (hh_K A0))) Hlen Hsym)
    by (try apply Hb; apply HT; apply Hb).
  unfold T. rewrite hh_backward_forward by (auto; apply Hb).
  now apply vdot_basis_basis.
Qed.

(** A step that is not skipped leaves a pivot that is not zero. *)
Lemma hh_R_diag_nonzero (A0 : matrix R) i :
  wf A0 -> hh_regular A0 -> (i < hh_K A0)%nat -> mget (hh_R A0) i i <> 0.
Proof.
  intros Hwf Hreg Hi.
  pose proof (hh_regular_step Hreg Hi) as Hc.
  set (Ai := step_input A0 i) in *.
  assert (HwfA : wf Ai) by (apply wf_eliminate_upto; exact Hwf).
  assert (Hn : nrows Ai = nrows A0) by apply eliminate_upto_nrows.
  assert (Hm : ncols Ai = ncols A0) by apply eliminate_upto_ncols.
  assert (HiM : (i < nrows Ai)%nat) by (unfold hh_K in Hi; lia).
  assert (HiN : (i < ncols Ai)%nat) by (unfold hh_K in Hi; lia).
  rewrite mget_hh_R_diag by exact Hi.
  rewrite eliminate_upto_S, mget_hh_step_diag; [ | exact Hi | exact Hc].
  fold (step_input A0 i). fold Ai.
  destruct (col_from Ai i i) as [|a0 t] eqn:Ha.
  { rewrite col_from_cons in Ha by exact HiM. discriminate. }
  rewrite (reflection_vector_cons Ai i Ha) in Hc |- *.
  rewrite (@mget_reflect_diag _ _ Ai i a0 t _ _ HwfA HiM HiN Ha).
  cbn [fsub fmul fdiv real_scalar].
  destruct (reflection_head a0 t Hc) as [H1 H2]. rewrite H1.
  pose proof (sign_square a0) as Hs. nra.
Qed.

(** Row [i] of [R @ x] for the [x] of back substitution. *)
Lemma back_sub_row (Rm y : matrix R) (K N n i k : nat) :
  (K <= N)%nat -> (i < K)%nat -> (k < n)%nat -> mget Rm i i <> 0 ->
  upper_row_dot Rm (back_sub K Rm y n (zeros N n)) K i k = mget y i k.
Proof.
  intros HKN Hi Hk Hd.
  assert (Hwf : wf (zeros N n : matrix R)) by (unfold zeros; apply wf_tabulate).
  pose proof (@mget_back_sub R real_scalar K Rm y n (zeros N n) i k Hwf
                ltac:(cbn [nrows zeros tabulate]; lia)
                ltac:(cbn [ncols zeros tabulate]; lia) Hi Hk) as HX.
  cbv zeta in HX.
  rewrite upper_row_dot_cons by exact Hi.
  rewrite HX, bs_acc_exact. cbn [fdiv fsub real_scalar]. field. exact Hd.
Qed.

Lemma hh_back_sub_full_row (A0 y : matrix R) (n i k : nat) :
  wf A0 -> hh_regular A0 -> (i < hh_K A0)%nat -> (k < n)%nat ->
  fold_left (fun acc c =>
               acc + mget (hh_R A0) i c *
                     mget (back_sub (hh_K A0) (hh_R A0) y n (zeros (ncols A0) n)) c k)
            (seq 0 (hh_K A0)) 0 =
  mget y i k.
Proof.
  intros Hwf Hreg Hi Hk.
  rewrite <- (@back_sub_row (hh_R A0) y (hh_K A0) (ncols A0) n i k)
    by (try (unfold hh_K; lia); try lia; now apply hh_R_diag_nonzero).
  unfold upper_row_dot. cbn [fadd fmul fzero real_scalar].
  rewrite fold_left_map_plus.
  assert (Es : seq 0 (hh_K A0) = seq 0 i ++ seq i (hh_K A0 - i)).
  { replace (hh_K A0) with (i + (hh_K A0 - i))%nat at 1 by lia. apply seq_app. }
  rewrite Es, fold_left_app.
  rewrite (@fold_left_add_zero _ (seq 0 i) 0); [reflexivity|].
  intros c Hc. apply in_seq in Hc.
  assert (HcK : (c < hh_K A0)%nat) by lia.
  rewrite (@hh_R_below_zero A0 c i);
    [ring | exact Hwf | exact HcK | now apply hh_regular_step | lia
     | unfold hh_K in Hi; lia].
Qed.

(** ** Theorem *)

(** In exact arithmetic [solve] solves the systems that have a solution
    for every right-hand side: for an [A] with at most as many rows as
    columns on which no step of the elimination is skipped, and a 2-D [b]
    with as many rows, [solve(b)] returns an [x] with [A @ x = b], with or
    without [reduce].  (For a wide [A] it is the solution whose rows from
    [M] on are zero.) *)
Theorem solve_exact_solution (self : QR R) (B : matrix R) :
  wf (cell (heap self) (backup self)) ->
  (nrows (cell (heap self) (backup self)) <= ncols (cell (heap self) (backup self)))%nat ->
  hh_regular (cell (heap self) (backup self)) ->
  wf B ->
  nrows B = nrows (cell (heap self) (backup self)) ->
  exists X,
    snd (solve self (Arr2 B)) = Ok (Arr2 X) /\
    matmul (cell (heap self) (backup self)) X = B.
Proof.
  set (A0 := cell (heap self) (backup self)). intros Hwf Hsq Hreg HwfB HB.
  assert (HKM : hh_K A0 = nrows A0) by (unfold hh_K; lia).
  assert (HKN : (hh_K A0 <= ncols A0)%nat) by (unfold hh_K; lia).
  assert (Hsolve : snd (solve self (Arr2 B)) =
                   backward_value (hh_Q A0) (hh_R A0) (Arr2 B)).
  { rewrite solve_eq, householder_values_eq. fold A0. cbn [fst snd].
    destruct (reduce self); [|reflexivity].
    replace (hh_K A0) with (Nat.min (nrows (hh_R A0)) (ncols (hh_R A0)))
      by (rewrite hh_R_nrows, hh_R_ncols; reflexivity).
    apply backward_value_reduce.
    - now rewrite hh_Q_ncols, hh_Q_nrows.
    - now rewrite hh_R_nrows, hh_Q_nrows. }
  rewrite Hsolve, backward_value_Arr2 by (rewrite hh_Q_nrows; exact HB).
  rewrite hh_R_nrows, hh_R_ncols. fold (hh_K A0).
  eexists. split; [reflexivity|].
  set (y := matmul (transpose (hh_Q A0)) B).
  set (X := back_sub (hh_K A0) (hh_R A0) y (ncols B) (zeros (ncols A0) (ncols B))).
  destruct (back_sub_shape (hh_K A0) (hh_R A0) y (ncols B) (zeros (ncols A0) (ncols B)))
    as (X1 & X2 & _). fold X in X1, X2.
  apply matrix_ext_entries.
  - unfold matmul. apply wf_tabulate.
  - exact HwfB.
  - cbn [nrows matmul tabulate]. congruence.
  - cbn [ncols matmul tabulate]. rewrite X2. reflexivity.
  - intros r k Hr Hk.
    change (nrows (matmul A0 X)) with (nrows A0) in Hr.
    change (ncols (matmul A0 X)) with (ncols X) in Hk.
    rewrite X2 in Hk. cbn [ncols zeros tabulate] in Hk.
    rewrite mget_matmul by (try exact Hr; rewrite X2; exact Hk).
    cbn [fadd fmul fzero real_scalar].
    assert (Es : seq 0 (ncols A0) =
                 seq 0 (hh_K A0) ++ seq (hh_K A0) (ncols A0 - hh_K A0)).
    { replace (ncols A0) with (hh_K A0 + (ncols A0 - hh_K A0))%nat at 1 by lia.
      apply seq_app. }
    rewrite Es, fold_left_app.
    rewrite (@fold_left_add_zero (fun c => mget A0 r c * mget X c k)
               (seq (hh_K A0) (ncols A0 - hh_K A0))).
    2:{ intros c Hc. apply in_seq in Hc. unfold X.
        rewrite mget_back_sub_other by lia.
        rewrite (@mget_zeros R real_scalar). cbn [fzero real_scalar]. ring. }
    transitivity
      (fold_left (fun acc c =>
                    acc + fold_left (fun acc' i =>
                                       acc' + mget (hh_Q A0) r i *
                                              (mget (hh_R A0) i c * mget X c k))
                                    (seq 0 (nrows A0)) 0)
                 (seq 0 (hh_K A0)) 0).
    { apply fold_left_ext_in. intros acc c Hc. apply in_seq in Hc. f_equal.
      rewrite <- (@hh_QR_entry A0 r c) by (auto; lia).
      rewrite <- sum_scale_r. apply fold_left_ext_in. intros acc' i _. ring. }
    rewrite sum_exchange.
    transitivity
      (fold_left (fun acc i => acc + mget (hh_Q A0) r i * mget y i k)
                 (seq 0 (nrows A0)) 0).
    { apply fold_left_ext_in. intros acc i Hi. apply in_seq in Hi. f_equal.
      rewrite sum_scale_l. f_equal.
      unfold X. apply hh_back_sub_full_row; auto; lia. }
    transitivity
      (fold_left (fun acc i =>
                    acc + fold_left (fun acc' s0 =>
                                       acc' + mget (hh_Q A0) r i *
                                              (mget (hh_Q A0) s0 i * mget B s0 k))
                                    (seq 0 (nrows A0)) 0)
                 (seq 0 (nrows A0)) 0).
    { apply fold_left_ext_in. intros acc i Hi. apply in_seq in Hi. f_equal.
      rewrite sum_scale_l. f_equal. unfold y.
      rewrite mget_matmul
        by (cbn [nrows ncols transpose tabulate]; rewrite ?hh_Q_ncols; lia).
      cbn [ncols transpose tabulate fadd fmul fzero real_scalar].
      rewrite hh_Q_nrows.
      apply fold_left_ext_in. intros acc' s0 Hs. apply in_seq in Hs.
      rewrite mget_transpose by (rewrite ?hh_Q_ncols, ?hh_Q_nrows; lia).
      reflexivity. }
    rewrite sum_exchange.
    transitivity
      (fold_left (fun acc s0 => acc + (if (r =? s0)%nat then 1 else 0) * mget B s0 k)
                 (seq 0 (nrows A0)) 0).
    { apply fold_left_ext_in. intros acc s0 Hs. apply in_seq in Hs. f_equal.
      rewrite <- (@hh_Q_rows_orth A0 r s0) by (auto; lia).
      rewrite <- sum_scale_r. apply fold_left_ext_in. intros acc' i _. ring. }
    exact (@sum_delta (fun s0 => mget B s0 k) r (nrows A0) Hr).
Qed.

(** ** An instance: the 1 by 1 array [[2]] *)

Lemma two_engine_regular : hh_regular (cell (heap two_engine) (backup two_engine)).
Proof.
  intros i Hi.
  change (hh_K (cell (heap two_engine) (backup two_engine))) with 1%nat in Hi.
  assert (i = 0%nat) by lia. subst i.
  rewrite hh_vs_nth by (cbv; lia).
  change (fst (eliminate_upto
                 (hh_K (cell (heap two_engine) (backup two_engine))) 0
                 (cell (heap two_engine) (backup two_engine))))
    with (step_input (cell (heap two_engine) (backup two_engine)) 0).
  rewrite (@reflection_vector_cons _ 0%nat 2 [] two_engine_subcolumn).
  apply step_not_skipped. lra.
Qed.

Lemma rhs_four_wf : wf rhs_four.
Proof. split; [reflexivity|]. intros [|r] Hr; [reflexivity|]. cbn in Hr. lia. Qed.

Lemma solve_exact_solution_witness :
  exists X,
    snd (solve two_engine (Arr2 rhs_four)) = Ok (Arr2 X) /\
    matmul (cell (heap two_engine) (backup two_engine)) X = rhs_four.
Proof.
  apply (@solve_exact_solution two_engine rhs_four).
  - exact two_engine_wf.
  - cbv. lia.
  - exact two_engine_regular.
  - exact rhs_four_wf.
  - reflexivity.
Defined.

(** ** Least squares *)

Lemma hh_Q_cols_sum (A0 : matrix R) i j :
  wf A0 -> hh_regular A0 -> (i < nrows A0)%nat -> (j < nrows A0)%nat ->
  fold_left (fun acc r => acc + mget (hh_Q A0) r i * mget (hh_Q A0) r j)
            (seq 0 (nrows A0)) 0 =
  if (i =? j)%nat then 1 else 0.
Proof.
  intros Hwf Hreg Hi Hj.
  rewrite <- (hh_Q_columns_orth Hwf Hreg Hi Hj).
  unfold colv, col_from. rewrite hh_Q_nrows, Nat.sub_0_r.
  symmetry.
  exact (fold_left_combine_map (fun r => mget (hh_Q A0) r i) (fun r => mget (hh_Q A0) r j)
           (seq 0 (nrows A0)) 0).
Qed.

(** [A.T @ z] through the factors: [R.T @ (Q.T @ z)]. *)
Lemma hh_At_column (A0 : matrix R) (z : nat -> R) c :
  wf A0 -> hh_regular A0 -> (c < hh_K A0)%nat ->
  fold_left (fun acc r => acc + mget A0 r c * z r) (seq 0 (nrows A0)) 0 =
  fold_left (fun acc i =>
               acc + mget (hh_R A0) i c *
                     fold_left (fun acc' r => acc' + mget (hh_Q A0) r i * z r)
                               (seq 0 (nrows A0)) 0)
            (seq 0 (nrows A0)) 0.
Proof.
  intros Hwf Hreg Hc.
  transitivity
    (fold_left (fun acc r =>
                  acc + fold_left (fun acc' i =>
                                     acc' + mget (hh_R A0) i c * (mget (hh_Q A0) r i * z r))
                                  (seq 0 (nrows A0)) 0)
               (seq 0 (nrows A0)) 0).
  { apply fold_left_ext_in. intros acc r Hr. apply in_seq in Hr. f_equal.
    rewrite <- (@hh_QR_entry A0 r c) by (auto; lia).
    rewrite <- sum_scale_r. apply fold_left_ext_in. intros acc' i _. ring. }
  rewrite sum_exchange.
  apply fold_left_ext_in. intros acc i _. f_equal.
  now rewrite sum_scale_l.
Qed.

(** [Q.T @ A = R] on the columns below [K]. *)
Lemma hh_QtA_entry (A0 : matrix R) i c :
  wf A0 -> hh_regular A0 -> (i < nrows A0)%nat -> (c < hh_K A0)%nat ->
  fold_left (fun acc r => acc + mget (hh_Q A0) r i * mget A0 r c) (seq 0 (nrows A0)) 0 =
  mget (hh_R A0) i c.
Proof.
  intros Hwf Hreg Hi Hc.
  transitivity
    (fold_left (fun acc r =>
                  acc + fold_left (fun acc' j =>
                                     acc' + mget (hh_Q A0) r i *
                                            (mget (hh_Q A0) r j * mget (hh_R A0) j c))
                                  (seq 0 (nrows A0)) 0)
               (seq 0 (nrows A0)) 0).
  { apply fold_left_ext_in. intros acc r Hr. apply in_seq in Hr. f_equal.
    rewrite <- (@hh_QR_entry A0 r c) by (auto; lia).
    now rewrite sum_scale_l. }
  rewrite sum_exchange.
  transitivity
    (fold_left (fun acc j => acc + (if (i =? j)%nat then 1 else 0) * mget (hh_R A0) j c)
               (seq 0 (nrows A0)) 0).
  { apply fold_left_ext_in. intros acc j Hj. apply in_seq in Hj. f_equal.
    rewrite <- (@hh_Q_cols_sum A0 i j) by (auto; lia).
    rewrite <- sum_scale_r. apply fold_left_ext_in. intros acc' r _. ring. }
  exact (@sum_delta (fun j => mget (hh_R A0) j c) i (nrows A0) Hi).
Qed.

(** In exact arithmetic [solve] returns a least-squares solution: for
    an [A] with at least as many rows as columns on which no step of the
    elimination is skipped, and a 2-D [b] with as many rows, the returned
    [x] satisfies the normal equations [A.T @ (A @ x) = A.T @ b], with or
    without [reduce]. *)
Theorem solve_normal_equations (self : QR R) (B : matrix R) :
  wf (cell (heap self) (backup self)) ->
  (ncols (cell (heap self) (backup self)) <= nrows (cell (heap self) (backup self)))%nat ->
  hh_regular (cell (heap self) (backup self)) ->
  nrows B = nrows (cell (heap self) (backup self)) ->
  exists X,
    snd (solve self (Arr2 B)) = Ok (Arr2 X) /\
    matmul (transpose (cell (heap self) (backup self)))
           (matmul (cell (heap self) (backup self)) X) =
    matmul (transpose (cell (heap self) (backup self))) B.
Proof.
  set (A0 := cell (heap self) (backup self)). intros Hwf HNM Hreg HB.
  assert (HK : hh_K A0 = ncols A0) by (unfold hh_K; lia).
  assert (Hsolve : snd (solve self (Arr2 B)) =
                   backward_value (hh_Q A0) (hh_R A0) (Arr2 B)).
  { rewrite solve_eq, householder_values_eq. fold A0. cbn [fst snd].
    destruct (reduce self); [|reflexivity].
    replace (hh_K A0) with (Nat.min (nrows (hh_R A0)) (ncols (hh_R A0)))
      by (rewrite hh_R_nrows, hh_R_ncols; reflexivity).
    apply backward_value_reduce.
    - now rewrite hh_Q_ncols, hh_Q_nrows.
    - now rewrite hh_R_nrows, hh_Q_nrows. }
  rewrite Hsolve, backward_value_Arr2 by (rewrite hh_Q_nrows; exact HB).
  rewrite hh_R_nrows, hh_R_ncols. fold (hh_K A0).
  eexists. split; [reflexivity|].
  set (y := matmul (transpose (hh_Q A0)) B).
  set (X := back_sub (hh_K A0) (hh_R A0) y (ncols B) (zeros (ncols A0) (ncols B))).
  destruct (back_sub_shape (hh_K A0) (hh_R A0) y (ncols B) (zeros (ncols A0) (ncols B)))
    as (X1 & X2 & _). fold X in X1, X2.
  cbn [nrows ncols zeros tabulate] in X1, X2.
  apply matrix_ext_entries.
  - unfold matmul. apply wf_tabulate.
  - unfold matmul. apply wf_tabulate.
  - reflexivity.
  - cbn [ncols matmul tabulate]. exact X2.
  - intros c k Hc Hk.
    change (nrows (matmul (transpose A0) (matmul A0 X))) with (ncols A0) in Hc.
    change (ncols (matmul (transpose A0) (matmul A0 X))) with (ncols X) in Hk.
    rewrite X2 in Hk.
    assert (Hy : forall i, (i < nrows A0)%nat ->
              fold_left (fun acc r => acc + mget (hh_Q A0) r i * mget B r k)
                        (seq 0 (nrows A0)) 0 = mget y i k).
    { intros i Hi. unfold y.
      rewrite mget_matmul
        by (cbn [nrows ncols transpose tabulate]; rewrite ?hh_Q_ncols; lia).
      cbn [ncols transpose tabulate fadd fmul fzero real_scalar].
      rewrite hh_Q_nrows.
      apply fold_left_ext_in. intros acc r Hr. apply in_seq in Hr.
      rewrite mget_transpose by (rewrite ?hh_Q_ncols, ?hh_Q_nrows; lia).
      reflexivity. }
    assert (HAX : forall r, (r < nrows A0)%nat ->
              mget (matmul A0 X) r k =
              fold_left (fun acc c' => acc + mget A0 r c' * mget X c' k)
                        (seq 0 (ncols A0)) 0).
    { intros r Hr. now rewrite mget_matmul by (try exact Hr; rewrite X2; exact Hk). }
    assert (HAt : forall Z : matrix R,
              mget (matmul (transpose A0) Z) c k =
              fold_left (fun acc r => acc + mget A0 r c * mget Z r k)
                        (seq 0 (nrows A0)) 0 \/ (ncols Z <= k)%nat).
    { intros Z. destruct (Nat.lt_ge_cases k (ncols Z)) as [H|H]; [left | now right].
      rewrite mget_matmul by (cbn [nrows ncols transpose tabulate]; lia).
      cbn [ncols transpose tabulate fadd fmul fzero real_scalar].
      apply fold_left_ext_in. intros acc r Hr. apply in_seq in Hr.
      rewrite mget_transpose by lia. reflexivity. }
    destruct (HAt (matmul A0 X)) as [E1|E1];
      [|cbn [ncols matmul tabulate] in E1; lia].
    destruct (HAt B) as [E2|E2]; [|lia].
    rewrite E1, E2.
    rewrite (@hh_At_column A0 (fun r => mget (matmul A0 X) r k) c) by (auto; lia).
    rewrite (@hh_At_column A0 (fun r => mget B r k) c) by (auto; lia).
    apply fold_left_ext_in. intros acc i Hi. apply in_seq in Hi. f_equal.
    destruct (Nat.lt_ge_cases i (ncols A0)) as [HiN|HiN].
    + f_equal. rewrite Hy by lia.
      transitivity
        (fold_left (fun acc' r =>
                      acc' + fold_left (fun a c' =>
                                          a + mget (hh_Q A0) r i *
                                              (mget A0 r c' * mget X c' k))
                                       (seq 0 (ncols A0)) 0)
                   (seq 0 (nrows A0)) 0).
      { apply fold_left_ext_in. intros acc' r Hr. apply in_seq in Hr. f_equal.
        rewrite HAX by lia. now rewrite sum_scale_l. }
      rewrite sum_exchange.
      transitivity
        (fold_left (fun a c' => a + mget (hh_R A0) i c' * mget X c' k)
                   (seq 0 (ncols A0)) 0).
      { apply fold_left_ext_in. intros a c' Hc'. apply in_seq in Hc'. f_equal.
        rewrite <- (@hh_QtA_entry A0 i c') by (auto; lia).
        rewrite <- sum_scale_r. apply fold_left_ext_in. intros a' r _. ring. }
      unfold X. replace (seq 0 (ncols A0)) with (seq 0 (hh_K A0)) by (now rewrite HK).
      apply hh_back_sub_full_row; auto; lia.
    + assert (HcK : (c < hh_K A0)%nat) by lia.
      rewrite (@hh_R_below_zero A0 c i);
        [ring | exact Hwf | exact HcK | now apply hh_regular_step | lia | lia].
Qed.

Lemma solve_normal_equations_witness :
  exists X,
    snd (solve three_four_engine (Arr2 (mk_matrix 2 1 [[5]; [10]]))) = Ok (Arr2 X) /\
    matmul (transpose three_four) (matmul three_four X) =
    matmul (transpose three_four) (mk_matrix 2 1 [[5]; [10]]).
Proof.
  apply (@solve_normal_equations three_four_engine (mk_matrix 2 1 [[5]; [10]])).
  - exact three_four_wf.
  - cbv. lia.
  - exact three_four_regular.
  - reflexivity.
Defined.

(** ** An instance: the 2 by 2 identity *)

Lemma identity_two_subcolumn_0 : col_from (step_input identity_two 0) 0 0 = [1; 0].
Proof. reflexivity. Qed.

Lemma identity_two_step_0 :
  isclose0 (vdot (reflection_vector (step_input identity_two 0) 0)
                 (reflection_vector (step_input identity_two 0) 0)) = false.
Proof.
  rewrite (@reflection_vector_cons _ 0%nat 1 [0] identity_two_subcolumn_0).
  apply step_not_skipped. lra.
Qed.

(** The first step leaves the second column of the identity as it is. *)
Lemma identity_two_subcolumn_1 : col_from (step_input identity_two 1) 1 1 = [1].
Proof.
  assert (Hn : nrows (step_input identity_two 1) = 2%nat)
    by (unfold step_input; now rewrite eliminate_upto_nrows).
  rewrite col_from_cons by (rewrite Hn; lia). rewrite Hn.
  cbn [seq map Nat.sub]. f_equal.
  rewrite <- (@nth_colv R real_scalar (step_input identity_two 1) 1 1) by (rewrite Hn; lia).
  unfold step_input. rewrite eliminate_upto_S.
  rewrite hh_step_colv;
    [ | exact identity_two_wf | cbv; lia | cbv; lia | cbv; lia | exact identity_two_step_0 ].
  change ((0 <=? 1) && (1 <? hh_K identity_two)) with true. cbv iota.
  change (fst (eliminate_upto (hh_K identity_two) 0 identity_two)) with identity_two.
  change (colv identity_two 1) with [0; 1].
  rewrite (@reflection_vector_cons identity_two 0%nat 1 [0] eq_refl).
  unfold reflect_vec. cbn [firstn skipn app fzero real_scalar].
  rewrite nth_vsub_scale by (cbn [length]; lia).
  cbn [nth]. ring.
Qed.

Lemma identity_two_hh_regular :
  hh_regular (cell (heap identity_two_engine) (backup identity_two_engine)).
Proof.
  change (cell (heap identity_two_engine) (backup identity_two_engine)) with identity_two.
  intros i Hi. change (hh_K identity_two) with 2%nat in Hi.
  rewrite hh_vs_nth by exact Hi.
  change (fst (eliminate_upto (hh_K identity_two) i identity_two))
    with (step_input identity_two i).
  destruct i as [|[|i]]; [exact identity_two_step_0 | | lia].
  rewrite (@reflection_vector_cons _ 1%nat 1 [] identity_two_subcolumn_1).
  apply step_not_skipped. lra.
Qed.

Lemma solve_solves_triangular_system_witness :
  exists X,
    snd (solve identity_two_engine (Arr2 identity_two)) = Ok (Arr2 X) /\
    upper_row_dot (snd (householder_values identity_two_engine)) X
                  (hh_K (cell (heap identity_two_engine) (backup identity_two_engine))) 0 0 =
    mget (matmul (transpose (fst (householder_values identity_two_engine))) identity_two) 0 0.
Proof.
  apply (@solve_solves_triangular_system identity_two_engine identity_two 0%nat 0%nat).
  - reflexivity.
  - cbv; lia.
  - cbv; lia.
  - intros j _ Hj. rewrite householder_values_eq.
    cbn [snd reduce identity_two_engine QR_init].
    apply hh_R_diag_nonzero;
      [exact identity_two_wf | exact identity_two_hh_regular | exact Hj].
Defined.

End HouseholderExact.

(** * The three methods in exact arithmetic *)

Module ThreeMethods.
Import Reals Lra Exact ExactFacts FurtherExact GramSchmidtExact HouseholderExact Samples.
Local Open Scope R_scope.



End ThreeMethods.

(** * [_backward] on the state it left *)

Section BackwardAgain.
Context {F : Type} {SF : Scalar F}.

(** [_backward] reads [self.Q], [self.R] and [self.b] only, and creates
    [self.x] anew from zeros: on the state it has left it returns the
    same outcome and leaves that state as it is. *)
Theorem backward_idempotent (self : QR F) :
  _backward (fst (_backward self)) = _backward self.
Proof.
  destruct self as [h bk rd a q r b y x].
  unfold _backward. cbn [self_R self_Q self_b heap].
  destruct r as [r|]; [|reflexivity].
  destruct q as [q|]; [|reflexivity].
  destruct b as [b|]; [|reflexivity].
  destruct (np_dot (transpose (deref h q)) b) as [y0|e] eqn:E.
  - cbv beta iota zeta delta [fst set_y set_x heap backup reduce
                               self_A self_Q self_R self_b self_y self_x].
    rewrite E. reflexivity.
  - cbn [fst self_R self_Q self_b heap]. rewrite E. reflexivity.
Qed.

End BackwardAgain.
